(** * SMS notification system: rate limiter, dispatch service, queue processor

    A shallow embedding of the JavaScript sources
    [rateLimiter.js] (class [RateLimiter]), [smsService.js] (class
    [SMSService]), [queueProcessor.js] (class [QueueProcessor]) and
    [api.js] (class [APIRouter]), followed by the properties of the
    admission-controlled dispatch engine that the specification states.

    Conventions of the embedding.
    - Times are milliseconds since the epoch, as [Z]; every number the code
      handles is an integer far below 2^53, so JavaScript arithmetic on them
      is exact integer arithmetic.
    - Strings are sequences of 8-bit code units.
    - An [async] method is a state transformer on [World]: it returns either
      a value or a thrown error, and the world after the call.
    - Redis, BullMQ's queue and the gateway client are external; the Redis
      commands the code issues are modelled with the semantics the Redis
      server documents for them, the queue as the list of jobs added, the
      gateway as a function from payloads to replies.
    - Console output ([console.log], [console.warn], [console.error]) is
      not part of the world. *)

From Stdlib Require Import ZArith Lia Ascii String.
From stdpp Require Import base option list gmap strings pretty.

Local Open Scope Z_scope.

(** ** Values exchanged with the gateway and stored in the logs *)

(** One element of [result.SMSMessageData.Recipients]. *)
Record Recipient := mkRecipient {
  messageId : string;
  status : string;
  cost : string
}.

(** The object the gateway resolves with; only [SMSMessageData.Recipients]
    is read by the code. *)
Record ApiResponse := mkApiResponse {
  Recipients : list Recipient
}.

(** The argument of [client.SMS.send]. *)
Record SmsPayload := mkSmsPayload {
  payload_to : list string;
  payload_message : string;
  payload_from : string
}.

(** The object literal [logEntry] of [logSMSDelivery]; the list elements in
    Redis are its [JSON.stringify] text, read back with [JSON.parse]. *)
Record LogEntry := mkLogEntry {
  log_timestamp : string;
  log_to : string;
  log_message : string;
  log_status : string;
  log_apiResponse : option ApiResponse;
  log_error : option string
}.

(** ** Thrown errors

    Every [throw] site of the sources has a constructor; [error_message] is the
    [error.message] the JavaScript code reads. *)
Inductive Error : Type :=
| ClientNotInitialized                (* redis.js, getClient *)
| StoreFailure (msg : string)         (* a rejected Redis command *)
| RateLimitError (seconds : string)   (* smsService.js, sendSMS *)
| PhoneFormatError                    (* smsService.js, sendSMS *)
| EmptyMessageError                   (* smsService.js, sendSMS *)
| GatewayFailure (msg : string)       (* client.SMS.send rejected *)
| NoRecipient                         (* TypeError on Recipients[0].messageId *)
| QueueFailure (msg : string)         (* queue.add rejected *)
| Wrapped (inner : string)            (* queueProcessor.js, processSMSJob *)
| NotAFunction (callee : string).     (* TypeError: call of a method the object lacks *)

Definition error_message (e : Error) : string :=
  match e with
  | ClientNotInitialized => "Redis client not initialized. Call connect() first."
  | StoreFailure msg => msg
  | RateLimitError seconds =>
      "Rate limit exceeded. Blocked for " +:+ seconds +:+ " seconds"
  | PhoneFormatError => "Invalid phone number format"
  | EmptyMessageError => "Message cannot be empty"
  | GatewayFailure msg => msg
  | NoRecipient => "Cannot read properties of undefined (reading 'messageId')"
  | QueueFailure msg => msg
  | Wrapped inner => "Non-retryable error: " +:+ inner
  | NotAFunction callee => callee +:+ " is not a function"
  end.

(** ** The Redis data the code touches *)

(** A sorted-set member [`${now}-${Math.random()}`]: the time it was built
    at and the random draw (the draw is an input of the model). *)
Definition member : Type := Z * N.

Inductive value : Type :=
| Str (s : string)
| ZSet (z : gmap member Z)        (* member -> score *)
| Lst (l : list LogEntry).

Record entry := mkEntry {
  val : value;
  expire_at : option Z            (* absolute expiry time, if any *)
}.

(** ** BullMQ jobs *)

(** [job.data]: the request fields as the API received them.  The two
    required fields are strings, the empty string standing for an absent
    one (both are falsy to the API's checks); an absent optional field is
    [None]. *)
Record SmsData := mkSmsData {
  data_to : string;
  data_message : string;
  data_identifier : option string;
  data_priority : option Z;
  data_metadata : option string
}.

(** The [jobOptions] literal of [addSMSJob], after the spread of [options]. *)
Record JobOptions := mkJobOptions {
  opt_attempts : Z;
  opt_backoff_type : string;
  opt_backoff_delay : Z;
  opt_removeOnComplete : Z;
  opt_removeOnFail : Z;
  opt_priority : Z;
  opt_delay : Z;
  opt_identifier : option string
}.

Record Job := mkJob {
  job_id : nat;
  job_name : string;
  job_data : SmsData;
  job_opts : JobOptions
}.

(** ** The world the methods run in *)

Record World := mkWorld {
  initialized : bool;          (* redisClient.initialized *)
  faults : list bool;          (* for each coming Redis command: does it throw? *)
  db : gmap string entry;      (* the Redis keyspace *)
  outbox : list SmsPayload;    (* payloads handed to the gateway, newest first *)
  jobs : list Job;             (* the queue, in the order the jobs were added *)
  qfaults : list bool          (* for each coming queue.add: does it throw? *)
}.

Definition set_faults (fs : list bool) (w : World) : World :=
  mkWorld (initialized w) fs (db w) (outbox w) (jobs w) (qfaults w).
Definition set_db (d : gmap string entry) (w : World) : World :=
  mkWorld (initialized w) (faults w) d (outbox w) (jobs w) (qfaults w).
Definition set_outbox (o : list SmsPayload) (w : World) : World :=
  mkWorld (initialized w) (faults w) (db w) o (jobs w) (qfaults w).
Definition set_jobs (js : list Job) (w : World) : World :=
  mkWorld (initialized w) (faults w) (db w) (outbox w) js (qfaults w).
Definition set_qfaults (fs : list bool) (w : World) : World :=
  mkWorld (initialized w) (faults w) (db w) (outbox w) (jobs w) fs.

(** ** Asynchronous computations that may throw *)

Inductive Result (A : Type) : Type :=
| Return (a : A)
| Throw (e : Error).
Arguments Return {A} a.
Arguments Throw {A} e.

Definition Cmd (A : Type) : Type := World → Result A * World.

Definition ret {A} (a : A) : Cmd A := λ w, (Return a, w).
Definition throw {A} (e : Error) : Cmd A := λ w, (Throw e, w).
Definition bind {A B} (m : Cmd A) (k : A → Cmd B) : Cmd B :=
  λ w, match m w with
       | (Return a, w') => k a w'
       | (Throw e, w') => (Throw e, w')
       end.
(** [try { m } catch (error) { h error }] *)
Definition try_catch {A} (m : Cmd A) (h : Error → Cmd A) : Cmd A :=
  λ w, match m w with
       | (Return a, w') => (Return a, w')
       | (Throw e, w') => h e w'
       end.

Notation "'let*' x ':=' m 'in' k" := (bind m (λ x, k))
  (at level 10, x name, m at level 100, k at level 200).
Notation "m ';;' k" := (bind m (λ _, k))
  (at level 100, k at level 200, right associativity).

(** [Math.ceil(a / b)] for integers [a] and positive [b]. *)
Definition ceil_div (a b : Z) : Z := - ((- a) / b).

(** ** Redis commands *)

Module Redis.

(** A key is visible while its expiry time has not passed. *)
Definition live (now : Z) (e : entry) : bool :=
  match expire_at e with
  | Some w => bool_decide (now ≤ w)
  | None => true
  end.

Definition lookup_live (now : Z) (k : string) (d : gmap string entry)
  : option entry :=
  match d !! k with
  | Some e => if live now e then Some e else None
  | None => None
  end.

Definition wrongtype : Error :=
  StoreFailure "WRONGTYPE Operation against a key holding the wrong kind of value".

(** TTL key: -2 for a missing key, -1 for a key without expiry, else the
    remaining life in whole seconds, which the server computes from the
    remaining milliseconds as [(ms + 500) / 1000]. *)
Definition ttl (now : Z) (k : string) (d : gmap string entry)
  : Error + Z * gmap string entry :=
  match lookup_live now k d with
  | None => inr (-2, d)
  | Some e =>
      match expire_at e with
      | None => inr (-1, d)
      | Some w => inr ((w - now + 500) / 1000, d)
      end
  end.

Definition in_range (lo hi : Z) (p : member * Z) : Prop := lo ≤ p.2 ≤ hi.
Global Instance in_range_dec lo hi p : Decision (in_range lo hi p).
Proof. unfold in_range. apply _. Defined.

(** ZREMRANGEBYSCORE key lo hi: drops the members whose score is in
    [lo, hi]; a sorted set left empty is removed with its expiry. *)
Definition zremrangebyscore (now : Z) (k : string) (lo hi : Z)
    (d : gmap string entry) : Error + Z * gmap string entry :=
  match lookup_live now k d with
  | None => inr (0, d)
  | Some e =>
      match val e with
      | ZSet z =>
          let z' := filter (λ p, ¬ in_range lo hi p) z in
          let removed := Z.of_nat (size z) - Z.of_nat (size z') in
          if decide (z' = ∅) then inr (removed, delete k d)
          else inr (removed, <[k := mkEntry (ZSet z') (expire_at e)]> d)
      | _ => inl wrongtype
      end
  end.

(** ZCARD key *)
Definition zcard (now : Z) (k : string) (d : gmap string entry)
  : Error + Z * gmap string entry :=
  match lookup_live now k d with
  | None => inr (0, d)
  | Some e =>
      match val e with
      | ZSet z => inr (Z.of_nat (size z), d)
      | _ => inl wrongtype
      end
  end.

(** SETEX key seconds value *)
Definition setex (now : Z) (k : string) (seconds : Z) (v : string)
    (d : gmap string entry) : Error + unit * gmap string entry :=
  if decide (seconds ≤ 0)
  then inl (StoreFailure "ERR invalid expire time in 'setex' command")
  else inr ((), <[k := mkEntry (Str v) (Some (now + seconds * 1000))]> d).

Definition min_score (z : gmap member Z) : option Z :=
  map_fold (λ _ sc acc, match acc with
                        | None => Some sc
                        | Some a => Some (Z.min a sc)
                        end) None z.

(** ZRANGE key 0 0 WITHSCORES: the element of least score.  The caller
    reads the score only, which is what is returned here. *)
Definition zrange_first (now : Z) (k : string) (d : gmap string entry)
  : Error + option Z * gmap string entry :=
  match lookup_live now k d with
  | None => inr (None, d)
  | Some e =>
      match val e with
      | ZSet z => inr (min_score z, d)
      | _ => inl wrongtype
      end
  end.

(** ZADD key score member *)
Definition zadd (now : Z) (k : string) (score : Z) (m : member)
    (d : gmap string entry) : Error + unit * gmap string entry :=
  match lookup_live now k d with
  | None => inr ((), <[k := mkEntry (ZSet {[m := score]}) None]> d)
  | Some e =>
      match val e with
      | ZSet z => inr ((), <[k := mkEntry (ZSet (<[m := score]> z)) (expire_at e)]> d)
      | _ => inl wrongtype
      end
  end.

(** EXPIRE key seconds: a non-positive time to live deletes the key. *)
Definition expire (now : Z) (k : string) (seconds : Z)
    (d : gmap string entry) : Error + Z * gmap string entry :=
  match lookup_live now k d with
  | None => inr (0, d)
  | Some e =>
      if decide (seconds ≤ 0) then inr (1, delete k d)
      else inr (1, <[k := mkEntry (val e) (Some (now + seconds * 1000))]> d)
  end.

(** DEL key1 key2 *)
Definition del (now : Z) (k1 k2 : string) (d : gmap string entry)
  : Error + Z * gmap string entry :=
  let n1 := if lookup_live now k1 d is Some _ then 1 else 0 in
  let d1 := delete k1 d in
  let n2 := if lookup_live now k2 d1 is Some _ then 1 else 0 in
  inr (n1 + n2, delete k2 d1).

(** LPUSH key element *)
Definition lpush (now : Z) (k : string) (x : LogEntry)
    (d : gmap string entry) : Error + Z * gmap string entry :=
  match lookup_live now k d with
  | None => inr (1, <[k := mkEntry (Lst [x]) None]> d)
  | Some e =>
      match val e with
      | Lst l => inr (Z.of_nat (S (length l)),
                      <[k := mkEntry (Lst (x :: l)) (expire_at e)]> d)
      | _ => inl wrongtype
      end
  end.

(** LTRIM key 0 stop, for [stop >= 0]: keeps the first [stop + 1]
    elements. *)
Definition ltrim (now : Z) (k : string) (stop : nat)
    (d : gmap string entry) : Error + unit * gmap string entry :=
  match lookup_live now k d with
  | None => inr ((), d)
  | Some e =>
      match val e with
      | Lst l => inr ((), <[k := mkEntry (Lst (take (S stop) l)) (expire_at e)]> d)
      | _ => inl wrongtype
      end
  end.

(** LRANGE key start stop: both ends are included; a negative index
    counts from the end of the list; the range is clipped to the list. *)
Definition lrange (now : Z) (k : string) (start stop : Z)
    (d : gmap string entry) : Error + list LogEntry * gmap string entry :=
  match lookup_live now k d with
  | None => inr ([], d)
  | Some e =>
      match val e with
      | Lst l =>
          let llen := Z.of_nat (length l) in
          let start := if decide (start < 0) then llen + start else start in
          let stop := if decide (stop < 0) then llen + stop else stop in
          let start := if decide (start < 0) then 0 else start in
          if decide (start > stop ∨ start >= llen) then inr ([], d)
          else
            let stop := if decide (stop >= llen) then llen - 1 else stop in
            inr (take (Z.to_nat (stop - start + 1)) (drop (Z.to_nat start) l), d)
      | _ => inl wrongtype
      end
  end.

(** Issuing a command through the client: the connection either fails
    (the promise rejects, nothing is executed) or the server executes
    the command and replies. *)
Definition exec {A} (op : gmap string entry → Error + A * gmap string entry)
  : Cmd A :=
  λ w, match op (db w) with
       | inl e => (Throw e, w)
       | inr (a, d') => (Return a, set_db d' w)
       end.

Definition connection_lost : Error := StoreFailure "Connection is closed.".

Definition command {A} (op : gmap string entry → Error + A * gmap string entry)
  : Cmd A :=
  λ w, match faults w with
       | true :: fs => (Throw connection_lost, set_faults fs w)
       | false :: fs => exec op (set_faults fs w)
       | [] => exec op w
       end.

(** [redisClient.getClient()] *)
Definition getClient : Cmd unit :=
  λ w, if initialized w then (Return (), w)
       else (Throw ClientNotInitialized, w).

End Redis.

(** ** rateLimiter.js *)

Module RateLimiter.

(** The fields the constructor copies from [config.rateLimit]. *)
Record t := mk {
  windowMs : Z;
  maxRequests : Z;
  blockDurationMs : Z
}.

(** [config.rateLimit] with no environment override. *)
Definition default : t := mk 60000 30 300000.

(** The object [isAllowed] and [getStatus] resolve with; [blockDuration]
    is present only on the blocked results. *)
Record Decision := mkDecision {
  allowed : bool;
  remaining : Z;
  resetTime : Z;
  blocked : bool;
  blockDuration : option Z
}.

Definition key (identifier : string) : string :=
  "rate_limit:sms:" +:+ identifier.
Definition blockKey (identifier : string) : string :=
  "rate_limit:block:" +:+ identifier.

(** The body of the [try] block of [isAllowed]. *)
Definition isAllowed_try (rl : t) (identifier : string) (now : Z) (rnd : N)
  : Cmd Decision :=
  let windowStart := now - windowMs rl in
  let key := key identifier in
  let blockKey := blockKey identifier in
  let* blockExpiry := Redis.command (Redis.ttl now blockKey) in
  if decide (blockExpiry > 0) then
    ret (mkDecision false 0 (now + blockExpiry * 1000) true
           (Some (blockExpiry * 1000)))
  else
    Redis.command (Redis.zremrangebyscore now key 0 windowStart) ;;
    let* currentRequests := Redis.command (Redis.zcard now key) in
    if decide (currentRequests >= maxRequests rl) then
      Redis.command
        (Redis.setex now blockKey (ceil_div (blockDurationMs rl) 1000) "1") ;;
      let* oldestRequest := Redis.command (Redis.zrange_first now key) in
      let resetTime :=
        match oldestRequest with
        | Some score => score + windowMs rl
        | None => now + windowMs rl
        end in
      ret (mkDecision false 0 resetTime true (Some (blockDurationMs rl)))
    else
      Redis.command (Redis.zadd now key now (now, rnd)) ;;
      Redis.command (Redis.expire now key (ceil_div (windowMs rl) 1000)) ;;
      let remaining := maxRequests rl - (currentRequests + 1) in
      ret (mkDecision true remaining (now + windowMs rl) false None).

(** What the [catch] block of [isAllowed] returns. *)
Definition fail_open (rl : t) (now : Z) : Decision :=
  mkDecision true (maxRequests rl - 1) (now + windowMs rl) false None.

Definition isAllowed (rl : t) (identifier : string) (now : Z) (rnd : N)
  : Cmd Decision :=
  Redis.getClient ;;
  try_catch (isAllowed_try rl identifier now rnd)
            (λ _, ret (fail_open rl now)).

Definition reset (identifier : string) (now : Z) : Cmd bool :=
  Redis.getClient ;;
  try_catch
    (Redis.command (Redis.del now (key identifier) (blockKey identifier)) ;;
     ret true)
    (λ _, ret false).

(** The body of the [try] block of [getStatus]. *)
Definition getStatus_try (rl : t) (identifier : string) (now : Z)
  : Cmd Decision :=
  let windowStart := now - windowMs rl in
  let key := key identifier in
  let blockKey := blockKey identifier in
  let* blockExpiry := Redis.command (Redis.ttl now blockKey) in
  if decide (blockExpiry > 0) then
    ret (mkDecision false 0 (now + blockExpiry * 1000) true
           (Some (blockExpiry * 1000)))
  else
    Redis.command (Redis.zremrangebyscore now key 0 windowStart) ;;
    let* currentRequests := Redis.command (Redis.zcard now key) in
    let remaining := Z.max 0 (maxRequests rl - currentRequests) in
    ret (mkDecision (bool_decide (remaining > 0)) remaining
           (now + windowMs rl) false None).

Definition getStatus (rl : t) (identifier : string) (now : Z)
  : Cmd Decision :=
  Redis.getClient ;;
  try_catch (getStatus_try rl identifier now)
            (λ _, ret (mkDecision true (maxRequests rl) (now + windowMs rl)
                         false None)).

End RateLimiter.

(** [calls] evaluated one after the other for the same identifier; each
    call is the time it is made at and its random draw. *)
Fixpoint isAllowed_each (rl : RateLimiter.t) (identifier : string)
    (calls : list (Z * N)) : Cmd (list RateLimiter.Decision) :=
  match calls with
  | [] => ret []
  | (now, rnd) :: rest =>
      let* d := RateLimiter.isAllowed rl identifier now rnd in
      let* ds := isAllowed_each rl identifier rest in
      ret (d :: ds)
  end.

(** ** Regular expressions

    The fragment of JavaScript regular expressions that [phoneRegex] uses:
    character classes, concatenation, alternation and bounded repetition,
    matched between [^] and [$] (no flags, so [$] is the end of the
    input), by Brzozowski derivatives. *)

Module RegExp.

Inductive t : Type :=
| Never                       (* matches nothing *)
| Empty                       (* matches the empty string *)
| Class (p : ascii → bool)    (* one character of a class *)
| Seq (r1 r2 : t)
| Or (r1 r2 : t).

Fixpoint nullable (r : t) : bool :=
  match r with
  | Never => false
  | Empty => true
  | Class _ => false
  | Seq r1 r2 => nullable r1 && nullable r2
  | Or r1 r2 => nullable r1 || nullable r2
  end.

Fixpoint derive (c : ascii) (r : t) : t :=
  match r with
  | Never => Never
  | Empty => Never
  | Class p => if p c then Empty else Never
  | Seq r1 r2 =>
      if nullable r1 then Or (Seq (derive c r1) r2) (derive c r2)
      else Seq (derive c r1) r2
  | Or r1 r2 => Or (derive c r1) (derive c r2)
  end.

(** [/^r$/.test(s)] *)
Fixpoint test (r : t) (s : string) : bool :=
  match s with
  | EmptyString => nullable r
  | String c s' => test (derive c r) s'
  end.

(** [r{n}] *)
Fixpoint exactly (n : nat) (r : t) : t :=
  match n with
  | O => Empty
  | S n' => Seq r (exactly n' r)
  end.

(** [r{0,n}] *)
Fixpoint at_most (n : nat) (r : t) : t :=
  match n with
  | O => Empty
  | S n' => Or Empty (Seq r (at_most n' r))
  end.

(** [r{lo,hi}] *)
Definition between (lo hi : nat) (r : t) : t :=
  Seq (exactly lo r) (at_most (hi - lo) r).

(** The strings a regular expression denotes. *)
Inductive matches : t → string → Prop :=
| m_empty : matches Empty ""
| m_class p c : p c = true → matches (Class p) (String c "")
| m_seq r1 r2 s1 s2 :
    matches r1 s1 → matches r2 s2 → matches (Seq r1 r2) (s1 +:+ s2)
| m_or_l r1 r2 s : matches r1 s → matches (Or r1 r2) s
| m_or_r r1 r2 s : matches r2 s → matches (Or r1 r2) s.

Definition code (c : ascii) : nat := nat_of_ascii c.

(** [\+] *)
Definition plus_sign (c : ascii) : bool := Nat.eqb (code c) 43.
(** [[1-9]] *)
Definition one_to_nine (c : ascii) : bool :=
  Nat.leb 49 (code c) && Nat.leb (code c) 57.
(** [\d] *)
Definition digit (c : ascii) : bool :=
  Nat.leb 48 (code c) && Nat.leb (code c) 57.

End RegExp.

(** ** String helpers of the JavaScript runtime *)

(** White space as [String.prototype.trim] sees it, among the 8-bit code
    units: tab, line feed, vertical tab, form feed, carriage return, space
    and no-break space. *)
Definition is_space (c : ascii) : bool :=
  let n := nat_of_ascii c in
  (Nat.leb 9 n && Nat.leb n 13) || Nat.eqb n 32 || Nat.eqb n 160.

Fixpoint trimStart (s : string) : string :=
  match s with
  | EmptyString => EmptyString
  | String c s' => if is_space c then trimStart s' else s
  end.

Fixpoint trimEnd (s : string) : string :=
  match s with
  | EmptyString => EmptyString
  | String c s' =>
      match trimEnd s' with
      | EmptyString => if is_space c then EmptyString else String c EmptyString
      | rest => String c rest
      end
  end.

(** [s.trim()] *)
Definition trim (s : string) : string := trimEnd (trimStart s).

(** [s.includes(sub)] *)
Fixpoint includes (s sub : string) : bool :=
  String.prefix sub s ||
  match s with
  | EmptyString => false
  | String _ s' => includes s' sub
  end.

(** [s.split(sep)[0]] for a one-character separator. *)
Fixpoint before (sep : ascii) (s : string) : string :=
  match s with
  | EmptyString => EmptyString
  | String c s' => if Ascii.eqb c sep then EmptyString else String c (before sep s')
  end.

(** [value || fallback] on an optional string: absent and empty strings are
    falsy. *)
Definition or_else (value : option string) (fallback : string) : string :=
  match value with
  | Some s => if decide (s = "") then fallback else s
  | None => fallback
  end.

(** ** smsService.js *)

Module SMSService.

(** The service object: the gateway client ([this.client.SMS.send], which
    resolves with a response or rejects with a message), the sender name,
    and the rate limiter singleton it imports. *)
Record t := mk {
  client : SmsPayload → string + ApiResponse;
  from : string;
  rateLimiter : RateLimiter.t
}.

(** The [rateLimit] object of a successful result. *)
Record RateLimitInfo := mkRateLimitInfo {
  rl_allowed : bool;
  rl_remaining : Z;
  rl_resetTime : Z
}.

(** What [sendSMS] resolves with. *)
Record SendResult := mkSendResult {
  success : bool;
  sent_messageId : string;
  sent_status : string;
  sent_cost : string;
  rateLimit : RateLimitInfo
}.

(** [/^\+[1-9]\d{1,14}$/] *)
Definition phoneRegex : RegExp.t :=
  RegExp.Seq (RegExp.Class RegExp.plus_sign)
    (RegExp.Seq (RegExp.Class RegExp.one_to_nine)
       (RegExp.between 1 14 (RegExp.Class RegExp.digit))).

Definition isValidPhoneNumber (phoneNumber : string) : bool :=
  RegExp.test phoneRegex phoneNumber.

(** The pattern in the words of the specification: a plus sign, a digit
    from 1 to 9, then 1 to 14 further digits, and nothing else. *)
Definition plus_digit_digits (s : string) : Prop :=
  ∃ (d : ascii) (ds : string),
    s = String "+" (String d ds)
    ∧ (49 ≤ nat_of_ascii d ≤ 57)%nat
    ∧ (1 ≤ String.length ds ≤ 14)%nat
    ∧ ∀ c, c ∈ list_ascii_of_string ds → (48 ≤ nat_of_ascii c ≤ 57)%nat.

(** [this.client.SMS.send(smsData)] *)
Definition send (svc : t) (smsData : SmsPayload) : Cmd ApiResponse :=
  λ w, match client svc smsData with
       | inr result => (Return result, set_outbox (smsData :: outbox w) w)
       | inl msg => (Throw (GatewayFailure msg), set_outbox (smsData :: outbox w) w)
       end.

(** [now] is the time of the Redis server and [iso] the text of
    [new Date().toISOString()] when the entry is written. *)
Definition logSMSDelivery (to message status : string)
    (apiResponse : option ApiResponse) (error : option string)
    (now : Z) (iso : string) : Cmd unit :=
  Redis.getClient ;;
  try_catch
    (let logEntry :=
       mkLogEntry iso to
         (String.substring 0 100 message +:+
            (if Nat.ltb 100 (String.length message) then "..." else ""))
         status apiResponse error in
     Redis.command (Redis.lpush now "sms_delivery_logs" logEntry) ;;
     Redis.command (Redis.ltrim now "sms_delivery_logs" 999) ;;
     let today := before "T" iso in
     let dailyKey := "sms_logs:" +:+ today in
     Redis.command (Redis.lpush now dailyKey logEntry) ;;
     Redis.command (Redis.expire now dailyKey (86400 * 7)) ;;
     ret ())
    (λ _, ret ()).

(** [Math.ceil(rateLimitResult.blockDuration / 1000)] inside the template
    string; an absent [blockDuration] gives [NaN]. *)
Definition blocked_seconds (d : RateLimiter.Decision) : string :=
  match RateLimiter.blockDuration d with
  | Some ms => pretty (ceil_div ms 1000)
  | None => "NaN"
  end.

(** The body of the [try] block of [sendSMS]. *)
Definition sendSMS_try (svc : t) (to message identifier : string)
    (now : Z) (rnd : N) (iso : string) : Cmd SendResult :=
  let* rateLimitResult :=
    RateLimiter.isAllowed (rateLimiter svc) identifier now rnd in
  if negb (RateLimiter.allowed rateLimitResult) then
    throw (RateLimitError (blocked_seconds rateLimitResult))
  else if negb (isValidPhoneNumber to) then
    throw PhoneFormatError
  else if bool_decide (message = "") || Nat.eqb (String.length (trim message)) 0 then
    throw EmptyMessageError
  else
    let smsData := mkSmsPayload [to] (trim message) (from svc) in
    let* result := send svc smsData in
    logSMSDelivery to message "success" (Some result) None now iso ;;
    match Recipients result with
    | r :: _ =>
        ret (mkSendResult true (messageId r) (status r) (cost r)
               (mkRateLimitInfo true
                  (RateLimiter.remaining rateLimitResult)
                  (RateLimiter.resetTime rateLimitResult)))
    | [] => throw NoRecipient
    end.

(** [identifier] is [None] when the caller passes [undefined], which
    selects the default ['default']. *)
Definition sendSMS (svc : t) (to message : string) (identifier : option string)
    (now : Z) (rnd : N) (iso : string) : Cmd SendResult :=
  let identifier := default "default" identifier in
  try_catch (sendSMS_try svc to message identifier now rnd iso)
    (λ error,
       logSMSDelivery to message "failed" None (Some (error_message error))
         now iso ;;
       throw error).

Definition getRateLimitStatus (svc : t) (identifier : string) (now : Z)
  : Cmd RateLimiter.Decision :=
  RateLimiter.getStatus (rateLimiter svc) identifier now.

Definition resetRateLimit (identifier : string) (now : Z) : Cmd bool :=
  RateLimiter.reset identifier now.

(** One element of the array [sendBulkSMS] resolves with: the message,
    then the fields of the result of [sendSMS] or the error message. *)
Record BulkSent := mkBulkSent {
  bulk_data : SmsData;
  bulk_result : option SendResult;
  bulk_error : option string;
  bulk_success : bool
}.

(** The loop of [sendBulkSMS].  Each message comes with the readings of
    the clock and of [Math.random] made while it is sent. *)
Fixpoint sendBulkSMS_loop (svc : t) (messages : list (SmsData * (Z * N * string)))
    (identifier : string) : Cmd (list BulkSent) :=
  match messages with
  | [] => ret []
  | (smsData, (now, rnd, iso)) :: rest =>
      let* r :=
        try_catch
          (let* result :=
             sendSMS svc (data_to smsData) (data_message smsData)
               (Some identifier) now rnd iso in
           ret (mkBulkSent smsData (Some result) None true))
          (λ error,
             ret (mkBulkSent smsData None (Some (error_message error)) false)) in
      let* rs := sendBulkSMS_loop svc rest identifier in
      ret (r :: rs)
  end.

(** [identifier] is [None] when the caller leaves it out, which selects
    the default ['bulk']. *)
Definition sendBulkSMS (svc : t) (messages : list (SmsData * (Z * N * string)))
    (identifier : option string) : Cmd (list BulkSent) :=
  sendBulkSMS_loop svc messages (default "bulk" identifier).

(** [limit] and [offset] are [None] when left out (defaults 50 and 0).
    The entries are stored by [JSON.stringify] and read by [JSON.parse],
    which gives back the entry. *)
Definition getDeliveryLogs (limit offset : option Z) (now : Z)
  : Cmd (list LogEntry) :=
  let limit := default 50 limit in
  let offset := default 0 offset in
  Redis.getClient ;;
  try_catch
    (Redis.command
       (Redis.lrange now "sms_delivery_logs" offset (offset + limit - 1)))
    (λ _, ret []).

Record DailyStats := mkDailyStats {
  total : Z;
  successful : Z;
  failed : Z;
  date : string
}.

(** The body of the [forEach] of [getDailyStats]. *)
Definition count_log (stats : DailyStats) (log : LogEntry) : DailyStats :=
  if decide (log_status log = "success")
  then mkDailyStats (total stats) (successful stats + 1) (failed stats) (date stats)
  else mkDailyStats (total stats) (successful stats) (failed stats + 1) (date stats).

(** [date] is [None] when left out, which selects the day of [iso], the
    text of [new Date().toISOString()]. *)
Definition getDailyStats (date : option string) (now : Z) (iso : string)
  : Cmd DailyStats :=
  let date := default (before "T" iso) date in
  Redis.getClient ;;
  try_catch
    (let dailyKey := "sms_logs:" +:+ date in
     let* logs := Redis.command (Redis.lrange now dailyKey 0 (-1)) in
     ret (fold_left count_log logs
            (mkDailyStats (Z.of_nat (length logs)) 0 0 date)))
    (λ _, ret (mkDailyStats 0 0 0 date)).

End SMSService.

(** ** queueProcessor.js *)

Module QueueProcessor.

(** [config.retry] *)
Record RetryConfig := mkRetryConfig {
  maxAttempts : Z;
  backoffType : string;
  delay : Z
}.

Definition default_retry : RetryConfig := mkRetryConfig 3 "exponential" 2000.

(** [concurrency] of the worker created by [initialize]. *)
Definition concurrency : Z := 5.

(** The [options] argument of [addSMSJob]. *)
Record Options := mkOptions {
  priority : option Z;
  delay_ms : option Z;
  identifier : option string
}.

Definition no_options : Options := mkOptions None None None.

Definition nonRetryableErrors : list string :=
  [ "Rate limit exceeded";
    "Invalid phone number format";
    "Message cannot be empty";
    "Non-retryable error" ].

Definition shouldRetry (error : Error) : bool :=
  negb (existsb (λ nonRetryableError,
                   includes (error_message error) nonRetryableError)
          nonRetryableErrors).

(** The methods called on a job.  [job] is an instance of BullMQ's [Job]
    class, the only import from the library being [Worker] and [Queue].
    [job.updateProgress] is a method of that class; it writes to the job
    record that BullMQ keeps, which none of the methods here reads, and is
    taken to resolve.  The class has no method [addResult] and no method
    [getQueuePosition], and nothing in the repository adds one: calling
    either is a call of [undefined], which throws a [TypeError]. *)
Definition updateProgress (job : Job) (progress : Z) : Cmd unit := ret ().
Definition addResult (job : Job) (error : option string) : Cmd unit :=
  throw (NotAFunction "job.addResult").
Definition getQueuePosition (job : Job) : Cmd Z :=
  throw (NotAFunction "job.getQueuePosition").

(** The processor the worker runs on a job. *)
Definition processSMSJob (svc : SMSService.t) (job : Job)
    (now : Z) (rnd : N) (iso : string) : Cmd SMSService.SendResult :=
  let data := job_data job in
  try_catch
    (let* result :=
       SMSService.sendSMS svc (data_to data) (data_message data)
         (data_identifier data) now rnd iso in
     updateProgress job 100 ;;
     addResult job None ;;
     ret result)
    (λ error,
       updateProgress job 0 ;;
       addResult job (Some (error_message error)) ;;
       if shouldRetry error then throw error
       else throw (Wrapped (error_message error))).

(** [this.queue.add('send-sms', smsData, jobOptions)]: BullMQ numbers the
    jobs of a queue from 1. *)
Definition queue_add (name : string) (data : SmsData) (opts : JobOptions)
  : Cmd Job :=
  λ w, match qfaults w with
       | true :: fs => (Throw (QueueFailure "Connection is closed."), set_qfaults fs w)
       | fs =>
           let job := mkJob (S (length (jobs w))) name data opts in
           (Return job, set_jobs (jobs w ++ [job]) (set_qfaults (tail fs) w))
       end.

Definition addSMSJob (cfg : RetryConfig) (smsData : SmsData) (options : Options)
  : Cmd Job :=
  let jobOptions :=
    mkJobOptions (maxAttempts cfg) (backoffType cfg) (delay cfg) 100 50
      (default 0 (priority options)) (default 0 (delay_ms options))
      (identifier options) in
  try_catch (queue_add "send-sms" smsData jobOptions) (λ error, throw error).

(** One element of the array [addBulkSMSJobs] resolves with. *)
Record BulkResult := mkBulkResult {
  bulk_smsData : SmsData;
  bulk_jobId : option nat;
  bulk_error : option string;
  bulk_success : bool
}.

Fixpoint addBulkSMSJobs (cfg : RetryConfig) (messages : list SmsData)
    (options : Options) : Cmd (list BulkResult) :=
  match messages with
  | [] => ret []
  | smsData :: rest =>
      let* r :=
        try_catch
          (let* job := addSMSJob cfg smsData options in
           ret (mkBulkResult smsData (Some (job_id job)) None true))
          (λ error,
             ret (mkBulkResult smsData None (Some (error_message error)) false)) in
      let* rs := addBulkSMSJobs cfg rest options in
      ret (r :: rs)
  end.

End QueueProcessor.

(** ** api.js *)

Module APIRouter.

(** [req.body] of [POST /sms/bulk]; [messages] is [None] when the field is
    absent or not an array. *)
Record BulkRequest := mkBulkRequest {
  messages : option (list SmsData);
  bulk_identifier : option string;
  bulk_priority : option Z
}.

(** What a handler answers: the status code and the part of the JSON body
    that depends on the request. *)
Inductive Response : Type :=
| BadRequest (error : string)                               (* 400 *)
| Accepted (jobId : nat) (queuePosition : Z)                (* 202 *)
| AcceptedBulk (total successful failed : nat)
    (results : list QueueProcessor.BulkResult)              (* 202 *)
| ServerError (error details : string).                     (* 500 *)

Definition falsy (s : string) : bool := bool_decide (s = "").

(** [req.body] is an [SmsData]: [to], [message], [identifier], [priority],
    [metadata]. *)
Definition sendSMS (cfg : QueueProcessor.RetryConfig) (body : SmsData)
  : Cmd Response :=
  try_catch
    (if falsy (data_to body) || falsy (data_message body) then
       ret (BadRequest "Missing required fields: to, message")
     else
       let* job :=
         QueueProcessor.addSMSJob cfg
           (mkSmsData (data_to body) (data_message body)
              (Some (or_else (data_identifier body) "api"))
              (Some (default 0 (data_priority body)))
              (Some (default "{}" (data_metadata body))))
           QueueProcessor.no_options in
       let* queuePosition := QueueProcessor.getQueuePosition job in
       ret (Accepted (job_id job) queuePosition))
    (λ error, ret (ServerError "Failed to queue SMS" (error_message error))).

Definition sendBulkSMS (cfg : QueueProcessor.RetryConfig) (body : BulkRequest)
  : Cmd Response :=
  try_catch
    (match messages body with
     | None | Some [] => ret (BadRequest "Missing or invalid messages array")
     | Some msgs =>
         if existsb (λ msg, falsy (data_to msg) || falsy (data_message msg)) msgs
         then ret (BadRequest "Each message must contain to and message fields")
         else
           let* results :=
             QueueProcessor.addBulkSMSJobs cfg msgs
               (QueueProcessor.mkOptions
                  (Some (default 0 (bulk_priority body))) None
                  (Some (or_else (bulk_identifier body) "bulk-api"))) in
           let successful := filter (λ r, QueueProcessor.bulk_success r = true) results in
           let failed := filter (λ r, QueueProcessor.bulk_success r ≠ true) results in
           ret (AcceptedBulk (length msgs) (length successful) (length failed)
                  results)
     end)
    (λ error, ret (ServerError "Failed to queue bulk SMS" (error_message error))).

(** What the handlers of the logs and of the rate limit answer. *)
Inductive Reply : Type :=
| LogsPage (logs : list LogEntry) (limit offset : Z) (total : nat)        (* 200 *)
| DailyStatsReply (stats : SMSService.DailyStats)                         (* 200 *)
| RateLimitReply (identifier : string) (rateLimit : RateLimiter.Decision) (* 200 *)
| ResetReply (identifier : string)                                        (* 200 *)
| Refused (error : string)                                                (* 400 *)
| Failed (error : string) (details : option string).                      (* 500 *)

(** [parseInt(text) || fallback], from the value of [parseInt(text)]
    ([None] for [NaN]): [NaN] and 0 are falsy. *)
Definition number_or (parsed : option Z) (fallback : Z) : Z :=
  match parsed with
  | Some n => if decide (n = 0) then fallback else n
  | None => fallback
  end.

(** [limit] and [offset] are [parseInt] of the query parameters. *)
Definition getDeliveryLogs (limit offset : option Z) (now : Z) : Cmd Reply :=
  try_catch
    (let limit := number_or limit 50 in
     let offset := number_or offset 0 in
     let* logs := SMSService.getDeliveryLogs (Some limit) (Some offset) now in
     ret (LogsPage logs limit offset (length logs)))
    (λ error,
       ret (Failed "Failed to get delivery logs" (Some (error_message error)))).

Definition getDailyStats (date : option string) (now : Z) (iso : string)
  : Cmd Reply :=
  try_catch
    (let date := or_else date (before "T" iso) in
     let* stats := SMSService.getDailyStats (Some date) now iso in
     ret (DailyStatsReply stats))
    (λ error,
       ret (Failed "Failed to get daily stats" (Some (error_message error)))).

Definition getRateLimitStatus (svc : SMSService.t) (identifier : string)
    (now : Z) : Cmd Reply :=
  try_catch
    (if falsy identifier then ret (Refused "Identifier is required")
     else
       let* status := SMSService.getRateLimitStatus svc identifier now in
       ret (RateLimitReply identifier status))
    (λ error,
       ret (Failed "Failed to get rate limit status"
              (Some (error_message error)))).

Definition resetRateLimit (identifier : string) (now : Z) : Cmd Reply :=
  try_catch
    (if falsy identifier then ret (Refused "Identifier is required")
     else
       let* success := SMSService.resetRateLimit identifier now in
       if success then ret (ResetReply identifier)
       else ret (Failed "Failed to reset rate limit" None))
    (λ error,
       ret (Failed "Failed to reset rate limit" (Some (error_message error)))).

End APIRouter.

(** ** Notions used to state the properties *)

(** The events stored for an identifier, as a reader at time [now] sees
    them: the members of the sorted set with their scores. *)
Definition events (identifier : string) (now : Z) (d : gmap string entry)
  : gmap member Z :=
  match Redis.lookup_live now (RateLimiter.key identifier) d with
  | Some e => match val e with ZSet z => z | _ => ∅ end
  | None => ∅
  end.

(** The events key of the identifier holds a sorted set if it holds
    anything. *)
Definition typed_key (identifier : string) (d : gmap string entry) : Prop :=
  ∀ e, d !! RateLimiter.key identifier = Some e → ∃ z, val e = ZSet z.

(** The client is connected, the store answers every command, and the
    events key is well typed. *)
Definition store_ok (identifier : string) (w : World) : Prop :=
  initialized w = true ∧ faults w = [] ∧ typed_key identifier (db w).

(** The reply of [TTL] on the block key of the identifier. *)
Definition block_seconds (identifier : string) (now : Z)
    (d : gmap string entry) : Z :=
  match Redis.ttl now (RateLimiter.blockKey identifier) d with
  | inr (seconds, _) => seconds
  | inl _ => -2
  end.

(** The events that [ZREMRANGEBYSCORE key 0 (now - windowMs)] keeps. *)
Definition in_window (rl : RateLimiter.t) (now : Z) (z : gmap member Z)
  : gmap member Z :=
  filter (λ p, ¬ Redis.in_range 0 (now - RateLimiter.windowMs rl) p) z.

(** The events key, if visible at [now], holds a sorted set. *)
Definition live_typed (identifier : string) (now : Z)
    (d : gmap string entry) : Prop :=
  match Redis.lookup_live now (RateLimiter.key identifier) d with
  | Some e => ∃ z, val e = ZSet z
  | None => True
  end.

(** Every character of a string is in a class. *)
Fixpoint all_chars (p : ascii → bool) (s : string) : bool :=
  match s with
  | EmptyString => true
  | String c s' => p c && all_chars p s'
  end.

(** A computation that, when it returns on a store with faults scheduled,
    returns the same on the store with none. *)
Definition steady {A} (m : Cmd A) : Prop :=
  ∀ w a w', m w = (Return a, w') →
            m (set_faults [] w) = (Return a, set_faults [] w').

(** A computation that changes nothing but the Redis store and the
    schedule of its faults. *)
Definition redis_only {A} (m : Cmd A) : Prop :=
  ∀ w r w', m w = (r, w') →
    initialized w' = initialized w ∧ outbox w' = outbox w
    ∧ jobs w' = jobs w ∧ qfaults w' = qfaults w.

(** Every call of a run was admitted. *)
Definition all_admitted (r : Result (list RateLimiter.Decision)) : Prop :=
  match r with
  | Return ds => Forall (λ d, RateLimiter.allowed d = true) ds
  | Throw _ => False
  end.

(** The calls are made at times that do not decrease, from [t] on. *)
Fixpoint in_order (t : Z) (calls : list (Z * N)) : Prop :=
  match calls with
  | [] => True
  | (t', _) :: rest => t ≤ t' ∧ in_order t' rest
  end.

(** A rejection because of a block. *)
Definition rejected_blocked (r : Result RateLimiter.Decision) : Prop :=
  ∃ d, r = Return d ∧ RateLimiter.allowed d = false
       ∧ RateLimiter.blocked d = true.

(** A world with a connected client, an empty store and an empty queue. *)
Definition blank : World := mkWorld true [] ∅ [] [] [].

(** A service whose gateway accepts every message, with the sender name
    and the limiter of the default configuration. *)
Definition sample_service : SMSService.t :=
  SMSService.mk
    (λ _, inr (mkApiResponse [mkRecipient "ATXid_1" "Success" "KES 0.8000"]))
    "SlausCop" RateLimiter.default.

(** A service whose gateway rejects every message with [msg]. *)
Definition failing_service (msg : string) : SMSService.t :=
  SMSService.mk (λ _, inl msg) "SlausCop" RateLimiter.default.

(** [n] calls, 30 ms apart from [t0] on, with the draws 0, 1, 2, ... *)
Definition burst (t0 : Z) (n : nat) : list (Z * N) :=
  (λ i : nat, (t0 + 30 * Z.of_nat i, N.of_nat i)) <$> seq 0 n.

(** The two keys the limiter keeps for an identifier. *)
Definition limiter_keys (identifier : string) : list string :=
  [RateLimiter.key identifier; RateLimiter.blockKey identifier].

(** The two keys [logSMSDelivery] writes for an entry stamped [iso]. *)
Definition log_keys (iso : string) : list string :=
  ["sms_delivery_logs"; "sms_logs:" +:+ before "T" iso].

(** A command, or a computation, that changes no key of the store outside
    [ks]. *)
Definition op_touches {A} (ks : list string)
    (op : gmap string entry → Error + A * gmap string entry) : Prop :=
  ∀ d a d' k, op d = inr (a, d') → k ∉ ks → d' !! k = d !! k.

Definition touches {A} (ks : list string) (m : Cmd A) : Prop :=
  ∀ w r w' k, m w = (r, w') → k ∉ ks → db w' !! k = db w !! k.

(** A computation started on a store satisfying [P] ends on one satisfying
    [Q a] when it returns [a], and on one satisfying [E] when it throws. *)
Definition triple {A} (P : gmap string entry → Prop) (m : Cmd A)
    (Q : A → gmap string entry → Prop) (E : gmap string entry → Prop) : Prop :=
  ∀ w r w', m w = (r, w') → P (db w) →
    match r with Return a => Q a (db w') | Throw _ => E (db w') end.

(** No sorted set stored under the events key of the identifier, expired
    or not, holds more than [maxRequests] events. *)
Definition stored_limit (rl : RateLimiter.t) (identifier : string)
    (d : gmap string entry) : Prop :=
  ∀ e z, d !! RateLimiter.key identifier = Some e → val e = ZSet z →
         Z.of_nat (size z) ≤ RateLimiter.maxRequests rl.

(** At no time does a reader see more than [maxRequests] events stored
    for the identifier. *)
Definition within_limit (rl : RateLimiter.t) (identifier : string)
    (d : gmap string entry) : Prop :=
  ∀ t, Z.of_nat (size (events identifier t d)) ≤ RateLimiter.maxRequests rl.

(** A computation that keeps an empty schedule of connection failures
    empty. *)
Definition calm {A} (m : Cmd A) : Prop :=
  ∀ w r w', m w = (r, w') → faults w = [] → faults w' = [].

(** The list a reader at time [now] finds under a key: empty for a key
    that is absent or expired, none for a key of another type. *)
Definition list_at (now : Z) (k : string) (d : gmap string entry)
  : option (list LogEntry) :=
  match Redis.lookup_live now k d with
  | None => Some []
  | Some e => match val e with Lst l => Some l | _ => None end
  end.

(** The expiry time of a key, if it is visible at [now] and has one. *)
Definition expiry_at (now : Z) (k : string) (d : gmap string entry)
  : option Z :=
  match Redis.lookup_live now k d with
  | Some e => expire_at e
  | None => None
  end.

(** A key that is absent, or holds a list that never expires. *)
Definition plain_list (k : string) (d : gmap string entry) : Prop :=
  match d !! k with
  | None => True
  | Some e => (∃ l, val e = Lst l) ∧ expire_at e = None
  end.

(** The daily list under [k] is [dl], absent when empty and otherwise
    kept until seven days after [t0] at least. *)
Definition daily_state (k : string) (t0 : Z) (dl : list LogEntry)
    (d : gmap string entry) : Prop :=
  (dl = [] ∧ d !! k = None)
  ∨ ∃ x, d !! k = Some (mkEntry (Lst dl) (Some x)) ∧ t0 + 604800000 ≤ x.

(** [e] is the entry of a delivery stamped [iso]: the fields as given, the
    message whole if it has at most 100 characters, else its first 100
    followed by three dots. *)
Definition logged (to message status : string)
    (apiResponse : option ApiResponse) (error : option string)
    (iso : string) (e : LogEntry) : Prop :=
  log_timestamp e = iso ∧ log_to e = to ∧ log_status e = status
  ∧ log_apiResponse e = apiResponse ∧ log_error e = error
  ∧ (if decide (String.length message ≤ 100)%nat then log_message e = message
     else log_message e = String.substring 0 100 message +:+ "..."
          ∧ String.length (log_message e) = 103%nat).

(** A call of [logSMSDelivery]: its arguments, the time of the store and
    the text of the date when it runs. *)
Record LogCall := mkLogCall {
  call_to : string;
  call_message : string;
  call_status : string;
  call_apiResponse : option ApiResponse;
  call_error : option string;
  call_now : Z;
  call_iso : string
}.

(** [calls] made one after the other. *)
Fixpoint logSMSDelivery_each (calls : list LogCall) : Cmd unit :=
  match calls with
  | [] => ret ()
  | c :: rest =>
      bind (SMSService.logSMSDelivery (call_to c) (call_message c)
              (call_status c) (call_apiResponse c) (call_error c)
              (call_now c) (call_iso c))
           (λ _, logSMSDelivery_each rest)
  end.

(** Three deliveries and two failures logged on 14 November 2023. *)
Definition sample_day : list LogCall :=
  [ mkLogCall "+254712345678" "one" "success" None None
      1700000000000 "2023-11-14T22:13:20.000Z";
    mkLogCall "+254712345678" "two" "failed" None (Some "Gateway down")
      1700000001000 "2023-11-14T22:13:21.000Z";
    mkLogCall "+254700000001" "three" "success" None None
      1700000002000 "2023-11-14T22:13:22.000Z";
    mkLogCall "12345" "four" "failed" None (Some "Invalid phone number format")
      1700000003000 "2023-11-14T22:13:23.000Z";
    mkLogCall "+254700000002" "five" "success" None None
      1700000004000 "2023-11-14T22:13:24.000Z" ].

Definition first_char (s : string) : option ascii :=
  match s with
  | EmptyString => None
  | String c _ => Some c
  end.

Fixpoint last_char (s : string) : option ascii :=
  match s with
  | EmptyString => None
  | String c EmptyString => Some c
  | String _ s' => last_char s'
  end.



(** * Properties *)

(** ** Keys and whole seconds *)

Lemma keys_differ identifier identifier' :
  RateLimiter.key identifier ≠ RateLimiter.blockKey identifier'.
Proof. unfold RateLimiter.key, RateLimiter.blockKey. cbv [append]. congruence. Qed.

Lemma ceil_div_pos a : 0 < a → 0 < ceil_div a 1000.
Proof.
  intros H. unfold ceil_div.
  assert ((- a) / 1000 < 0) by (apply Z.div_lt_upper_bound; lia). lia.
Qed.

Lemma ceil_div_ge a : a ≤ ceil_div a 1000 * 1000.
Proof.
  unfold ceil_div.
  pose proof (Z.mul_div_le (- a) 1000 ltac:(lia)). lia.
Qed.

(** ** Redis commands on the events key *)

Lemma lookup_live_Some now k d e :
  Redis.lookup_live now k d = Some e ↔ d !! k = Some e ∧ Redis.live now e = true.
Proof.
  unfold Redis.lookup_live. destruct (d !! k) as [e'|]; [|split; [done|by intros [? _]]].
  destruct (Redis.live now e') eqn:Hlive; split.
  - by intros [= ->].
  - by intros [[= ->] _].
  - done.
  - intros [[= ->] ?]. congruence.
Qed.

Lemma events_live identifier now d e :
  typed_key identifier d →
  Redis.lookup_live now (RateLimiter.key identifier) d = Some e →
  val e = ZSet (events identifier now d).
Proof.
  intros Hty Hl. unfold events. rewrite Hl.
  apply lookup_live_Some in Hl as [Hd _]. destruct (Hty e Hd) as [z Hz].
  by rewrite Hz.
Qed.

Lemma events_dead identifier now d :
  Redis.lookup_live now (RateLimiter.key identifier) d = None →
  events identifier now d = ∅.
Proof. intros Hl. unfold events. by rewrite Hl. Qed.

(** [ZREMRANGEBYSCORE] followed by [ZCARD] on the events key. *)
Lemma prune_spec identifier now lo hi d :
  typed_key identifier d →
  ∃ n d1,
    Redis.zremrangebyscore now (RateLimiter.key identifier) lo hi d = inr (n, d1)
    ∧ Redis.zcard now (RateLimiter.key identifier) d1
      = inr (Z.of_nat (size (events identifier now d1)), d1)
    ∧ events identifier now d1
      = filter (λ p, ¬ Redis.in_range lo hi p) (events identifier now d)
    ∧ (∀ k, k ≠ RateLimiter.key identifier → d1 !! k = d !! k)
    ∧ typed_key identifier d1.
Proof.
  intros Hty. unfold Redis.zremrangebyscore, Redis.zcard. cbv zeta.
  destruct (Redis.lookup_live now (RateLimiter.key identifier) d) as [e|] eqn:Hl.
  - pose proof (events_live _ _ _ _ Hty Hl) as Hz.
    apply lookup_live_Some in Hl as Hd. destruct Hd as [Hd Hlive].
    rewrite Hz. case_decide as Hempty.
    + eexists _, _. split; [done|].
      assert (Hl1 : Redis.lookup_live now (RateLimiter.key identifier)
                (delete (RateLimiter.key identifier) d) = None).
      { unfold Redis.lookup_live. by rewrite lookup_delete_eq. }
      rewrite Hl1, (events_dead _ _ _ Hl1), Hempty. split_and!; try done.
      * intros k Hk. by rewrite lookup_delete_ne.
      * intros e1. by rewrite lookup_delete_eq.
    + eexists _, _. split; [done|].
      match goal with |- context [<[_ := ?e1]> d] =>
        assert (Hl1 : Redis.lookup_live now (RateLimiter.key identifier)
                  (<[RateLimiter.key identifier := e1]> d) = Some e1)
      end.
      { apply lookup_live_Some. by rewrite lookup_insert_eq. }
      rewrite Hl1.
      match goal with |- context [events identifier now (<[?k := ?e1]> d)] =>
        assert (Hev : events identifier now (<[k := e1]> d)
                      = filter (λ p, ¬ Redis.in_range lo hi p)
                          (events identifier now d))
          by (unfold events at 1; by rewrite Hl1) end.
      rewrite Hev. simpl.
      split_and!; try done.
      * intros k Hk. by rewrite lookup_insert_ne.
      * intros e1. rewrite lookup_insert_eq. intros [= <-]. simpl. eauto.
  - eexists _, _. split; [done|]. rewrite Hl, (events_dead _ _ _ Hl).
    rewrite map_filter_empty. done.
Qed.

(** [ZADD] followed by [EXPIRE] with a positive time to live. *)
Lemma admit_spec identifier now m seconds d :
  typed_key identifier d → 0 < seconds →
  ∃ d1 d2,
    Redis.zadd now (RateLimiter.key identifier) now m d = inr ((), d1)
    ∧ Redis.expire now (RateLimiter.key identifier) seconds d1 = inr (1, d2)
    ∧ d2 !! RateLimiter.key identifier
      = Some (mkEntry (ZSet (<[m := now]> (events identifier now d)))
                (Some (now + seconds * 1000)))
    ∧ (∀ k, k ≠ RateLimiter.key identifier → d2 !! k = d !! k).
Proof.
  intros Hty Hs. unfold Redis.zadd.
  destruct (Redis.lookup_live now (RateLimiter.key identifier) d) as [e|] eqn:Hl.
  - pose proof (events_live _ _ _ _ Hty Hl) as Hz. rewrite Hz.
    apply lookup_live_Some in Hl as [Hd Hlive].
    eexists _, _. split; [done|]. unfold Redis.expire.
    match goal with |- context [<[_ := ?e1]> d] =>
      assert (Hl1 : Redis.lookup_live now (RateLimiter.key identifier)
                (<[RateLimiter.key identifier := e1]> d) = Some e1)
    end.
    { apply lookup_live_Some. by rewrite lookup_insert_eq. }
    rewrite Hl1. rewrite decide_False by lia. split; [done|]. simpl. split.
    + by rewrite lookup_insert_eq.
    + intros k Hk. by rewrite !lookup_insert_ne.
  - rewrite (events_dead _ _ _ Hl).
    eexists _, _. split; [done|]. unfold Redis.expire.
    match goal with |- context [<[_ := ?e1]> d] =>
      assert (Hl1 : Redis.lookup_live now (RateLimiter.key identifier)
                (<[RateLimiter.key identifier := e1]> d) = Some e1)
    end.
    { apply lookup_live_Some. by rewrite lookup_insert_eq. }
    rewrite Hl1. rewrite decide_False by lia. split; [done|]. simpl. split.
    + rewrite lookup_insert_eq. by rewrite insert_empty.
    + intros k Hk. by rewrite !lookup_insert_ne.
Qed.

(** ** [isAllowed] on a store that answers *)

Lemma ttl_total now k d : ∃ seconds, Redis.ttl now k d = inr (seconds, d).
Proof. unfold Redis.ttl. repeat case_match; eauto. Qed.

Lemma block_seconds_ttl identifier now d :
  Redis.ttl now (RateLimiter.blockKey identifier) d
  = inr (block_seconds identifier now d, d).
Proof.
  unfold block_seconds.
  destruct (ttl_total now (RateLimiter.blockKey identifier) d) as [s Hs].
  by rewrite Hs.
Qed.

Ltac sim :=
  cbv beta iota zeta delta
    [initialized faults db outbox jobs qfaults
     set_db set_faults set_outbox set_jobs set_qfaults].

Ltac run_limiter :=
  unfold RateLimiter.isAllowed, RateLimiter.isAllowed_try,
    RateLimiter.getStatus, RateLimiter.getStatus_try,
    bind, try_catch, ret, Redis.getClient, Redis.command, Redis.exec;
  sim.

Lemma isAllowed_blocked rl identifier now rnd w :
  initialized w = true → faults w = [] →
  block_seconds identifier now (db w) > 0 →
  RateLimiter.isAllowed rl identifier now rnd w
  = (Return (RateLimiter.mkDecision false 0
               (now + block_seconds identifier now (db w) * 1000) true
               (Some (block_seconds identifier now (db w) * 1000))), w).
Proof.
  destruct w as [i f d o j q]. cbn. intros -> -> Hb. run_limiter.
  rewrite block_seconds_ttl. sim. by rewrite decide_True.
Qed.

Lemma isAllowed_rejected rl identifier now rnd w :
  store_ok identifier w →
  0 < RateLimiter.blockDurationMs rl →
  block_seconds identifier now (db w) ≤ 0 →
  RateLimiter.maxRequests rl
    ≤ Z.of_nat (size (in_window rl now (events identifier now (db w)))) →
  ∃ reset w',
    RateLimiter.isAllowed rl identifier now rnd w
    = (Return (RateLimiter.mkDecision false 0 reset true
                 (Some (RateLimiter.blockDurationMs rl))), w')
    ∧ db w' !! RateLimiter.blockKey identifier
      = Some (mkEntry (Str "1")
                (Some (now + ceil_div (RateLimiter.blockDurationMs rl) 1000 * 1000)))
    ∧ initialized w' = true ∧ faults w' = [].
Proof.
  destruct w as [i f d o j q]. intros (Hi & Hf & Hty). cbn in Hi, Hf, Hty.
  subst i f. cbn. intros Hbd Hb Hfull. run_limiter.
  rewrite block_seconds_ttl. sim. rewrite decide_False by lia.
  destruct (prune_spec identifier now 0 (now - RateLimiter.windowMs rl) d Hty)
    as (n & d1 & Hrem & Hcard & Hev & Hother & Hty1).
  rewrite Hrem. sim. rewrite Hcard. sim. rewrite Hev.
  fold (in_window rl now (events identifier now d)).
  rewrite decide_True by lia.
  unfold Redis.setex. rewrite decide_False by (pose proof (ceil_div_pos _ Hbd); lia).
  sim. unfold Redis.zrange_first.
  assert (Hl : Redis.lookup_live now (RateLimiter.key identifier)
      (<[RateLimiter.blockKey identifier := mkEntry (Str "1")
            (Some (now + ceil_div (RateLimiter.blockDurationMs rl) 1000 * 1000))]> d1)
    = Redis.lookup_live now (RateLimiter.key identifier) d1).
  { unfold Redis.lookup_live. rewrite lookup_insert_ne; [done|].
    intros H. by eapply keys_differ. }
  rewrite Hl.
  destruct (Redis.lookup_live now (RateLimiter.key identifier) d1) as [e|] eqn:Hl1.
  - rewrite (events_live _ _ _ _ Hty1 Hl1).
    eexists _, _. split; [done|]. cbn. by rewrite lookup_insert_eq.
  - eexists _, _. split; [done|]. cbn. by rewrite lookup_insert_eq.
Qed.

Lemma isAllowed_admitted rl identifier now rnd w :
  store_ok identifier w →
  0 < RateLimiter.windowMs rl →
  block_seconds identifier now (db w) ≤ 0 →
  Z.of_nat (size (in_window rl now (events identifier now (db w))))
    < RateLimiter.maxRequests rl →
  ∃ w',
    RateLimiter.isAllowed rl identifier now rnd w
    = (Return (RateLimiter.mkDecision true
                 (RateLimiter.maxRequests rl
                  - (Z.of_nat (size (in_window rl now (events identifier now (db w)))) + 1))
                 (now + RateLimiter.windowMs rl) false None), w')
    ∧ db w' !! RateLimiter.key identifier
      = Some (mkEntry
                (ZSet (<[(now, rnd) := now]>
                         (in_window rl now (events identifier now (db w)))))
                (Some (now + ceil_div (RateLimiter.windowMs rl) 1000 * 1000)))
    ∧ (∀ k, k ≠ RateLimiter.key identifier → db w' !! k = db w !! k)
    ∧ initialized w' = true ∧ faults w' = [].
Proof.
  destruct w as [i f d o j q]. intros (Hi & Hf & Hty). cbn in Hi, Hf, Hty.
  subst i f. cbn. intros Hw Hb Hroom. run_limiter.
  rewrite block_seconds_ttl. sim. rewrite decide_False by lia.
  destruct (prune_spec identifier now 0 (now - RateLimiter.windowMs rl) d Hty)
    as (n & d1 & Hrem & Hcard & Hev & Hother & Hty1).
  rewrite Hrem. sim. rewrite Hcard. sim. rewrite Hev.
  fold (in_window rl now (events identifier now d)).
  rewrite decide_False by lia.
  destruct (admit_spec identifier now (now, rnd)
              (ceil_div (RateLimiter.windowMs rl) 1000) d1 Hty1
              (ceil_div_pos _ Hw))
    as (d2 & d3 & Hadd & Hexp & Hkey & Hother').
  rewrite Hadd. sim. rewrite Hexp. eexists. split; [done|]. cbn.
  rewrite Hkey, Hev. split_and!; try done.
  intros k Hk. by rewrite Hother', Hother.
Qed.

Lemma block_seconds_ext identifier now d1 d2 :
  d1 !! RateLimiter.blockKey identifier = d2 !! RateLimiter.blockKey identifier →
  block_seconds identifier now d1 = block_seconds identifier now d2.
Proof.
  intros H. unfold block_seconds, Redis.ttl, Redis.lookup_live. rewrite H.
  destruct (d2 !! RateLimiter.blockKey identifier) as [e|]; [|done].
  destruct (Redis.live now e); [|done]. by destruct (expire_at e).
Qed.

Lemma block_seconds_mono identifier t t' d :
  t ≤ t' → block_seconds identifier t d ≤ 0 → block_seconds identifier t' d ≤ 0.
Proof.
  intros Ht. unfold block_seconds, Redis.ttl, Redis.lookup_live, Redis.live.
  destruct (d !! RateLimiter.blockKey identifier) as [e|]; [|done].
  destruct (expire_at e) as [x|] eqn:Hx; [|by rewrite Hx].
  repeat case_bool_decide; rewrite ?Hx; try lia.
  intros Hle. etrans; [|exact Hle]. apply Z.div_le_mono; lia.
Qed.

Lemma events_stored identifier now d z x :
  d !! RateLimiter.key identifier = Some (mkEntry (ZSet z) (Some x)) →
  now ≤ x → events identifier now d = z.
Proof.
  intros Hd Hx. unfold events, Redis.lookup_live, Redis.live. rewrite Hd.
  cbn. by rewrite bool_decide_true.
Qed.

(** ** Runs of admitted calls *)

Section admitted_runs.

Context (rl : RateLimiter.t) (identifier : string).
Hypothesis Hwindow : 0 < RateLimiter.windowMs rl.
Hypothesis Hblock : 0 < RateLimiter.blockDurationMs rl.

(** What an admitted call on a well-formed store did. *)
Lemma isAllowed_allowed_inv now rnd w d w' :
  store_ok identifier w →
  RateLimiter.isAllowed rl identifier now rnd w = (Return d, w') →
  RateLimiter.allowed d = true →
  block_seconds identifier now (db w) ≤ 0
  ∧ RateLimiter.remaining d
    = RateLimiter.maxRequests rl
      - (Z.of_nat (size (in_window rl now (events identifier now (db w)))) + 1)
  ∧ 0 ≤ RateLimiter.remaining d
  ∧ store_ok identifier w'
  ∧ db w' !! RateLimiter.blockKey identifier
    = db w !! RateLimiter.blockKey identifier
  ∧ ∀ t, now ≤ t ≤ now + RateLimiter.windowMs rl →
      events identifier t (db w')
      = <[(now, rnd) := now]> (in_window rl now (events identifier now (db w))).
Proof.
  intros Hok Hrun Hd.
  destruct (decide (block_seconds identifier now (db w) > 0)) as [Hb|Hb].
  { destruct Hok as (Hi & Hf & _).
    rewrite (isAllowed_blocked rl identifier now rnd w Hi Hf Hb) in Hrun.
    by injection Hrun as <- _. }
  destruct (decide (RateLimiter.maxRequests rl
      ≤ Z.of_nat (size (in_window rl now (events identifier now (db w))))))
    as [Hfull|Hroom].
  { destruct (isAllowed_rejected rl identifier now rnd w Hok Hblock ltac:(lia) Hfull)
      as (reset & w1 & Hrej & _).
    rewrite Hrej in Hrun. by injection Hrun as <- _. }
  destruct (isAllowed_admitted rl identifier now rnd w Hok Hwindow
              ltac:(lia) ltac:(lia))
    as (w1 & Hadm & Hkey & Hother & Hi1 & Hf1).
  rewrite Hadm in Hrun. injection Hrun as <- <-. cbn.
  split_and!; try done; try lia.
  - split_and!; try done. intros e. rewrite Hkey. intros [= <-]. cbn. eauto.
  - apply Hother. intros H. by eapply keys_differ.
  - intros t Ht. eapply events_stored; [exact Hkey|].
    pose proof (ceil_div_ge (RateLimiter.windowMs rl)). lia.
Qed.

Lemma in_window_lookup now z m sc :
  z !! m = Some sc → now - RateLimiter.windowMs rl < sc →
  in_window rl now z !! m = Some sc.
Proof.
  intros Hz Hsc. unfold in_window. apply map_lookup_filter_Some.
  split; [done|]. unfold Redis.in_range. cbn. lia.
Qed.

(** A run of admitted calls keeps the recent events and adds its own. *)
Lemma admitted_run_events now calls :
  ∀ w t0 ds w',
    store_ok identifier w →
    isAllowed_each rl identifier calls w = (Return ds, w') →
    Forall (λ d, RateLimiter.allowed d = true) ds →
    in_order t0 calls → t0 ≤ now →
    (∀ t r, (t, r) ∈ calls → t ≤ now < t + RateLimiter.windowMs rl) →
    store_ok identifier w'
    ∧ db w' !! RateLimiter.blockKey identifier
      = db w !! RateLimiter.blockKey identifier
    ∧ (∀ t r rest, calls = (t, r) :: rest →
         block_seconds identifier t (db w) ≤ 0)
    ∧ (∀ sc r, now < sc + RateLimiter.windowMs rl →
         (∀ t, t0 ≤ t ≤ now → events identifier t (db w) !! (sc, r) = Some sc) →
         events identifier now (db w') !! (sc, r) = Some sc)
    ∧ (∀ t r, (t, r) ∈ calls →
         events identifier now (db w') !! (t, r) = Some t).
Proof.
  induction calls as [|[t r] rest IH];
    intros w t0 ds w' Hok Hrun Hall Hord Ht0 Hin.
  - injection Hrun as <- <-. split_and!; try done.
    + intros sc r _ H. apply H. lia.
    + intros t r H. by apply elem_of_nil in H.
  - cbn in Hrun. unfold bind in Hrun.
    destruct (RateLimiter.isAllowed rl identifier t r w) as [[d|e] w1] eqn:Hd;
      [|done].
    destruct (isAllowed_each rl identifier rest w1) as [[ds'|e] w2] eqn:Hrest;
      [|done].
    injection Hrun as <- <-. apply Forall_cons in Hall as [Hd1 Hall].
    destruct Hord as [Ht Hord].
    assert (Htin : t ≤ now < t + RateLimiter.windowMs rl)
      by (apply (Hin t r); left).
    destruct (isAllowed_allowed_inv _ _ _ _ _ Hok Hd Hd1)
      as (Hb & _ & _ & Hok1 & Hbk & Hev).
    destruct (IH w1 t ds' w2 Hok1 Hrest Hall Hord ltac:(lia))
      as (Hok2 & Hbk2 & _ & Hkeep & Hnew).
    { intros t1 r1 H1. apply (Hin t1 r1). by right. }
    split_and!; try done.
    + by rewrite Hbk2.
    + by intros ? ? ? [= -> -> ->].
    + intros sc r0 Hsc Hold. apply Hkeep; [done|]. intros t1 Ht1.
      rewrite Hev by lia. destruct (decide ((t, r) = (sc, r0))) as [[= -> ->]|Hne].
      * by rewrite lookup_insert_eq.
      * rewrite lookup_insert_ne by done.
        apply in_window_lookup; [apply Hold|]; lia.
    + intros t1 r1 [[= -> ->]|H1]%elem_of_cons.
      * apply Hkeep; [lia|]. intros t2 Ht2. rewrite Hev by lia.
        by rewrite lookup_insert_eq.
      * by apply Hnew.
Qed.

Lemma in_window_all (now : Z) (z : gmap member Z) :
  (∀ (m : member) (sc : Z),
     z !! m = Some sc → now - RateLimiter.windowMs rl < sc) →
  in_window rl now z = z.
Proof.
  intros H. unfold in_window. apply map_filter_id. intros m sc Hm.
  apply H in Hm. unfold Redis.in_range. cbn. lia.
Qed.

(** A run of calls on a store whose events are all recent and leave room
    for the calls: each call is admitted and reports one slot less. *)
Lemma admitted_run_counts T calls :
  ∀ w t0 (z : gmap member Z),
    store_ok identifier w →
    (∀ t, block_seconds identifier t (db w) ≤ 0) →
    (∀ t, t0 ≤ t ≤ T → events identifier t (db w) = z) →
    (∀ m sc, z !! m = Some sc → T - RateLimiter.windowMs rl < sc) →
    in_order t0 calls → t0 ≤ T →
    (∀ t r, (t, r) ∈ calls →
       t ≤ T < t + RateLimiter.windowMs rl ∧ z !! (t, r) = None) →
    NoDup calls →
    Z.of_nat (size z) + Z.of_nat (length calls) ≤ RateLimiter.maxRequests rl →
    ∃ ds w' (z' : gmap member Z),
      isAllowed_each rl identifier calls w = (Return ds, w')
      ∧ length ds = length calls
      ∧ (∀ (i : nat) d, ds !! i = Some d →
           RateLimiter.allowed d = true ∧ RateLimiter.blocked d = false
           ∧ RateLimiter.remaining d
             = RateLimiter.maxRequests rl - (Z.of_nat (size z) + Z.of_nat i + 1))
      ∧ store_ok identifier w'
      ∧ (∀ t, block_seconds identifier t (db w') ≤ 0)
      ∧ events identifier T (db w') = z'
      ∧ size z' = (size z + length calls)%nat
      ∧ (∀ m sc, z' !! m = Some sc → T - RateLimiter.windowMs rl < sc).
Proof.
  induction calls as [|[t r] rest IH];
    intros w t0 z Hok Hb Hev Hrecent Hord Ht0 Hin Hnd Hroom.
  - exists [], w, z. cbn. split_and!; try done; try lia. by apply Hev.
  - destruct Hord as [Ht Hord]. apply NoDup_cons in Hnd as [Hfresh Hnd].
    destruct (Hin t r ltac:(left)) as [HtT Hnew].
    assert (Hwin : in_window rl t z = z).
    { apply in_window_all. intros m sc Hm. apply Hrecent in Hm. lia. }
    cbn [length] in Hroom.
    destruct (isAllowed_admitted rl identifier t r w Hok Hwindow (Hb t))
      as (w1 & Hadm & Hkey & Hother & Hi1 & Hf1).
    { rewrite Hev, Hwin by lia. lia. }
    rewrite Hev, Hwin in Hadm, Hkey by lia.
    assert (Hok1 : store_ok identifier w1).
    { split_and!; try done. intros e. rewrite Hkey. intros [= <-]. cbn. eauto. }
    destruct (IH w1 t (<[(t, r) := t]> z) Hok1) as
      (ds & w2 & z' & Hrun & Hlen & Hds & Hok2 & Hb2 & Hev2 & Hsize & Hrecent2).
    + intros t1. rewrite (block_seconds_ext _ _ _ (db w)); [apply Hb|].
      apply Hother. intros H. by eapply keys_differ.
    + intros t1 Ht1. eapply events_stored; [exact Hkey|].
      pose proof (ceil_div_ge (RateLimiter.windowMs rl)). lia.
    + intros m sc. rewrite lookup_insert. case_decide as Hm.
      * intros [= <-]. lia.
      * apply Hrecent.
    + done.
    + lia.
    + intros t1 r1 H1. destruct (Hin t1 r1 ltac:(by right)) as [? Hz].
      split; [done|]. rewrite lookup_insert_ne; [done|].
      intros [= -> ->]. done.
    + done.
    + rewrite map_size_insert_None by done. lia.
    + eexists (_ :: ds), w2, z'. cbn. unfold bind. rewrite Hadm, Hrun.
      split; [done|]. split; [by rewrite Hlen|].
      rewrite map_size_insert_None in Hsize, Hds by done.
      split_and!; try done; try lia.
      intros [|i] d; cbn.
      * intros [= <-]. cbn. split_and!; try done. lia.
      * intros Hd. destruct (Hds i d Hd) as (? & ? & ->). split_and!; try done. lia.
Qed.

End admitted_runs.

Lemma size_at_least (z : gmap member Z) (calls : list (Z * N)) :
  NoDup calls →
  (∀ t r, (t, r) ∈ calls → z !! (t, r) = Some t) →
  (length calls ≤ size z)%nat.
Proof.
  intros Hnd Hin.
  pose (l := (λ c : Z * N, (c, c.1)) <$> calls).
  assert (Hfst : l.*1 = calls).
  { unfold l. rewrite <- list_fmap_compose. apply list_fmap_id. }
  assert (Hsize : size (list_to_map l : gmap member Z) = length calls).
  { rewrite map_size_list_to_map.
    - unfold l. by rewrite length_fmap.
    - rewrite <- Hfst in Hnd. exact Hnd. }
  rewrite <- Hsize. apply map_subseteq_size, map_subseteq_spec.
  intros m sc Hm. apply elem_of_list_to_map_2 in Hm.
  apply list_elem_of_fmap in Hm as ([t r] & [= -> ->] & Hc). by apply Hin.
Qed.

Lemma block_seconds_stored identifier now d x v :
  d !! RateLimiter.blockKey identifier = Some (mkEntry v (Some x)) →
  now ≤ x → block_seconds identifier now d = (x - now + 500) / 1000.
Proof.
  intros Hd Hx. unfold block_seconds, Redis.ttl, Redis.lookup_live, Redis.live.
  rewrite Hd. cbn. by rewrite bool_decide_true.
Qed.

(** After as many admitted calls as the window allows, all of them within
    one window length of [now], the call at [now] sets a block, and the
    block rejects every call made while it has 500 ms or more to live. *)
Lemma block_after_admissions rl identifier w calls t0 now rnd :
  store_ok identifier w →
  0 < RateLimiter.maxRequests rl →
  0 < RateLimiter.blockDurationMs rl →
  length calls = Z.to_nat (RateLimiter.maxRequests rl) →
  NoDup calls →
  in_order t0 calls →
  (∀ t r, (t, r) ∈ calls → t ≤ now < t + RateLimiter.windowMs rl) →
  all_admitted (isAllowed_each rl identifier calls w).1 →
  ∃ reset w',
    RateLimiter.isAllowed rl identifier now rnd
      (isAllowed_each rl identifier calls w).2
    = (Return (RateLimiter.mkDecision false 0 reset true
                 (Some (RateLimiter.blockDurationMs rl))), w')
    ∧ ∀ t rnd',
        now ≤ t →
        t + 500 ≤ now + ceil_div (RateLimiter.blockDurationMs rl) 1000 * 1000 →
        rejected_blocked (RateLimiter.isAllowed rl identifier t rnd' w').1
        ∧ (RateLimiter.isAllowed rl identifier t rnd' w').2 = w'.
Proof.
  intros Hok Hmax Hbd Hlen Hnd Hord Hin Hall.
  destruct (isAllowed_each rl identifier calls w) as [[ds|e] w1] eqn:Hrun;
    [|done]. cbn in Hall |- *.
  destruct calls as [|[t1 r1] rest] eqn:Hcalls.
  { cbn in Hlen. lia. }
  rewrite <- Hcalls in *.
  assert (Ht1 : t1 ≤ now < t1 + RateLimiter.windowMs rl)
    by (apply (Hin t1 r1); rewrite Hcalls; left).
  assert (Ht0 : t0 ≤ t1) by (rewrite Hcalls in Hord; apply Hord).
  destruct (admitted_run_events rl identifier ltac:(lia) Hbd now calls
              w t0 ds w1 Hok Hrun Hall Hord ltac:(lia) Hin)
    as (Hok1 & Hbk & Hfirst & _ & Hmem).
  assert (Hb : block_seconds identifier now (db w1) ≤ 0).
  { rewrite (block_seconds_ext _ _ _ _ Hbk).
    apply (block_seconds_mono _ t1); [lia|]. by eapply Hfirst. }
  assert (Hfull : RateLimiter.maxRequests rl
    ≤ Z.of_nat (size (in_window rl now (events identifier now (db w1))))).
  { assert (length calls ≤ size (in_window rl now (events identifier now (db w1))))%nat.
    { apply size_at_least; [done|]. intros t r Htr.
      apply in_window_lookup; [by apply Hmem|]. specialize (Hin t r Htr). lia. }
    lia. }
  destruct (isAllowed_rejected rl identifier now rnd w1 Hok1 Hbd Hb Hfull)
    as (reset & w2 & Hrej & Hblock & Hi2 & Hf2).
  exists reset, w2. split; [done|]. intros t rnd' Ht Hlife.
  assert (Hsec : block_seconds identifier t (db w2) > 0).
  { rewrite (block_seconds_stored _ _ _ _ _ Hblock) by lia.
    assert (1 ≤ (now + ceil_div (RateLimiter.blockDurationMs rl) 1000 * 1000
                 - t + 500) / 1000)
      by (apply Z.div_le_lower_bound; lia). lia. }
  rewrite (isAllowed_blocked rl identifier t rnd' w2 Hi2 Hf2 Hsec). cbn.
  split; [|done]. eexists. by split_and!.
Qed.

Lemma isAllowed_each_snoc rl identifier calls now rnd w ds w1 d w2 :
  isAllowed_each rl identifier calls w = (Return ds, w1) →
  RateLimiter.isAllowed rl identifier now rnd w1 = (Return d, w2) →
  isAllowed_each rl identifier (calls ++ [(now, rnd)]) w = (Return (ds ++ [d]), w2).
Proof.
  revert w ds. induction calls as [|[t r] rest IH]; intros w ds Hrun Hlast.
  - injection Hrun as <- <-. cbn. unfold bind, ret. by rewrite Hlast.
  - cbn in Hrun |- *. unfold bind in Hrun |- *.
    destruct (RateLimiter.isAllowed rl identifier t r w) as [[d1|e] w3]; [|done].
    destruct (isAllowed_each rl identifier rest w3) as [[ds1|e] w4] eqn:Hrest;
      [|done].
    injection Hrun as <- <-. by rewrite (IH w3 ds1 Hrest Hlast).
Qed.

Lemma in_order_ge t0 calls t r : in_order t0 calls → (t, r) ∈ calls → t0 ≤ t.
Proof.
  revert t0. induction calls as [|[t1 r1] rest IH]; intros t0 Hord Hin.
  - by apply elem_of_nil in Hin.
  - destruct Hord as [Ht Hord]. apply elem_of_cons in Hin as [[= -> ->]|Hin].
    + done.
    + specialize (IH t1 Hord Hin). lia.
Qed.

Lemma blank_store_ok identifier : store_ok identifier blank.
Proof. by split_and!. Qed.

(** The scenario of the specification, for any timing of the requests
    within one second: 30 admitted with 29, 28, ..., 0 left, the 31st
    rejected and blocked for 300000 ms. *)
Lemma burst_of_31 identifier calls t0 now rnd :
  length calls = 30%nat → NoDup calls → in_order t0 calls →
  (∀ t r, (t, r) ∈ calls → t ≤ now ≤ t0 + 1000) →
  ∃ ds d w',
    isAllowed_each RateLimiter.default identifier (calls ++ [(now, rnd)]) blank
    = (Return (ds ++ [d]), w')
    ∧ length ds = 30%nat
    ∧ (∀ (i : nat) d', ds !! i = Some d' →
         RateLimiter.allowed d' = true
         ∧ RateLimiter.remaining d' = 29 - Z.of_nat i)
    ∧ RateLimiter.allowed d = false
    ∧ RateLimiter.blocked d = true
    ∧ RateLimiter.blockDuration d = Some 300000.
Proof.
  intros Hlen Hnd Hord Hin.
  assert (Ht0 : t0 ≤ now).
  { destruct calls as [|[t r] rest]; [done|].
    destruct Hord as [? _]. specialize (Hin t r ltac:(left)). lia. }
  destruct (admitted_run_counts RateLimiter.default identifier ltac:(done)
              now calls blank t0 ∅ (blank_store_ok identifier))
    as (ds & w1 & z & Hrun & Hds & Hdec & Hok1 & Hb1 & Hev1 & Hsize & Hrecent);
    try done.
  - intros t r Htr. pose proof (in_order_ge _ _ _ _ Hord Htr).
    specialize (Hin t r Htr). cbn. split; [lia|]. apply lookup_empty.
  - rewrite Hlen. cbn. rewrite map_size_empty. lia.
  - rewrite map_size_empty, Hlen in Hsize. cbn in Hsize.
    destruct (isAllowed_rejected RateLimiter.default identifier now rnd w1
                Hok1 ltac:(done) (Hb1 now))
      as (reset & w2 & Hrej & _).
    { rewrite Hev1, (in_window_all _ _ _ Hrecent), Hsize. cbn. lia. }
    eexists ds, _, w2. split; [by apply (isAllowed_each_snoc _ _ _ _ _ _ _ _ _ _ Hrun Hrej)|].
    split; [lia|]. split; [|done].
    intros i d' Hi. destruct (Hdec i d' Hi) as (Ha & _ & Hr).
    split; [done|]. rewrite Hr, map_size_empty. cbn. lia.
Qed.

(** What the code does keep of a block.  After [maxRequests] admitted calls within one window
    length, the next call is rejected with [blocked = true] and a reported
    block duration of [blockDurationMs]; from then on every call for the
    identifier is rejected as blocked while the block has 500 ms or more
    of its life (the block duration rounded up to whole seconds) left.
    In the scenario window = 60 s, max = 30, block = 300 s, with 31 requests
    within one second on an empty store, requests 1 to 30 are admitted
    with 29 down to 0 remaining and request 31 is rejected with
    [blocked = true] and [blockDuration = 300000]. *)
Lemma blocked_after_max_admissions :
  (∀ rl identifier w calls t0 now rnd,
     store_ok identifier w →
     0 < RateLimiter.maxRequests rl →
     0 < RateLimiter.blockDurationMs rl →
     length calls = Z.to_nat (RateLimiter.maxRequests rl) →
     NoDup calls →
     in_order t0 calls →
     (∀ t r, (t, r) ∈ calls → t ≤ now < t + RateLimiter.windowMs rl) →
     all_admitted (isAllowed_each rl identifier calls w).1 →
     ∃ reset w',
       RateLimiter.isAllowed rl identifier now rnd
         (isAllowed_each rl identifier calls w).2
       = (Return (RateLimiter.mkDecision false 0 reset true
                    (Some (RateLimiter.blockDurationMs rl))), w')
       ∧ ∀ t rnd',
           now ≤ t →
           t + 500 ≤ now + ceil_div (RateLimiter.blockDurationMs rl) 1000 * 1000 →
           rejected_blocked (RateLimiter.isAllowed rl identifier t rnd' w').1
           ∧ (RateLimiter.isAllowed rl identifier t rnd' w').2 = w')
  ∧ (∀ identifier calls t0 now rnd,
       length calls = 30%nat → NoDup calls → in_order t0 calls →
       (∀ t r, (t, r) ∈ calls → t ≤ now ≤ t0 + 1000) →
       ∃ ds d w',
         isAllowed_each RateLimiter.default identifier
           (calls ++ [(now, rnd)]) blank
         = (Return (ds ++ [d]), w')
         ∧ length ds = 30%nat
         ∧ (∀ (i : nat) d', ds !! i = Some d' →
              RateLimiter.allowed d' = true
              ∧ RateLimiter.remaining d' = 29 - Z.of_nat i)
         ∧ RateLimiter.allowed d = false
         ∧ RateLimiter.blocked d = true
         ∧ RateLimiter.blockDuration d = Some 300000).
Proof.
  split.
  - intros. by eapply block_after_admissions.
  - intros. by eapply burst_of_31.
Qed.

(** C1, on the code.  The identifier does not stay blocked for
    [blockDurationMs].  With the default configuration (window 60 s, 30
    requests, block 300 s) the 31st request of a burst on an empty store
    is rejected with [blocked = true] and a block duration of 300000 ms,
    and a request made 299600 ms after it, inside the block duration, is
    admitted with 29 remaining: [isAllowed] tests the block by
    [TTL blockKey > 0], and [TTL] replies 0 in the last 500 ms of the
    life of the key. *)
Theorem block_lifts_before_block_duration :
  let w30 := (isAllowed_each RateLimiter.default "u1"
                (burst 1700000000000 30) blank).2 in
  let w31 :=
    (RateLimiter.isAllowed RateLimiter.default "u1" 1700000000900 30%N w30).2 in
  (RateLimiter.isAllowed RateLimiter.default "u1" 1700000000900 30%N w30).1
  = Return (RateLimiter.mkDecision false 0 1700000060000 true (Some 300000))
  ∧ 1700000000900 + 299600
    < 1700000000900 + RateLimiter.blockDurationMs RateLimiter.default
  ∧ block_seconds "u1" (1700000000900 + 299600) (db w31) = 0
  ∧ (RateLimiter.isAllowed RateLimiter.default "u1"
       (1700000000900 + 299600) 31%N w31).1
    = Return (RateLimiter.mkDecision true 29 1700000360500 false None).
Proof.
  intros w30 w31. split_and!.
  - vm_compute. reflexivity.
  - vm_compute. reflexivity.
  - vm_compute. reflexivity.
  - vm_compute. reflexivity.
Qed.

(** ** Commands on any store, with or without faults *)

Lemma command_inv {A} (op : gmap string entry → Error + A * gmap string entry)
    w r w' :
  Redis.command op w = (r, w') →
  (∃ e, r = Throw e ∧ db w' = db w)
  ∨ (∃ a, r = Return a ∧ op (db w) = inr (a, db w')).
Proof.
  unfold Redis.command, Redis.exec. destruct w as [i f d o j q]. sim.
  destruct f as [|[] fs]; sim.
  - destruct (op d) as [e|[a d']]; intros [= <- <-]; eauto.
  - intros [= <- <-]. eauto.
  - destruct (op d) as [e|[a d']]; intros [= <- <-]; eauto.
Qed.

Lemma ttl_db now k d seconds d' : Redis.ttl now k d = inr (seconds, d') → d' = d.
Proof.
  destruct (ttl_total now k d) as [s Hs]. rewrite Hs. by intros [= _ <-].
Qed.

Lemma zcard_db now k d n d' : Redis.zcard now k d = inr (n, d') → d' = d.
Proof. unfold Redis.zcard. repeat case_match; by intros [= _ <-]. Qed.

(** [ZREMRANGEBYSCORE] on the events key of any store: other keys are left
    alone and the events are filtered. *)
Lemma prune_frame identifier now lo hi d n d1 :
  Redis.zremrangebyscore now (RateLimiter.key identifier) lo hi d = inr (n, d1) →
  (∀ k, k ≠ RateLimiter.key identifier → d1 !! k = d !! k)
  ∧ events identifier now d1
    = filter (λ p, ¬ Redis.in_range lo hi p) (events identifier now d).
Proof.
  unfold Redis.zremrangebyscore. cbv zeta.
  destruct (Redis.lookup_live now (RateLimiter.key identifier) d) as [e|] eqn:Hl.
  - destruct (val e) as [s|z|l] eqn:Hval; try done.
    assert (Hev : events identifier now d = z).
    { unfold events. by rewrite Hl, Hval. }
    apply lookup_live_Some in Hl as [Hd Hlive].
    rewrite Hev. case_decide as Hempty; intros [= _ <-].
    + split; [intros k Hk; by rewrite lookup_delete_ne|].
      rewrite Hempty. apply events_dead.
      unfold Redis.lookup_live. by rewrite lookup_delete_eq.
    + split; [intros k Hk; by rewrite lookup_insert_ne|].
      unfold events, Redis.lookup_live. rewrite lookup_insert_eq.
      unfold Redis.live in *. cbn. by rewrite Hlive.
  - intros [= _ <-]. split; [done|].
    by rewrite (events_dead _ _ _ Hl), map_filter_empty.
Qed.

(** C5, as amended.  [getStatus] never touches the block key nor any key
    other than the events key of the identifier, and never adds or changes
    an event: the events stored after the call are those stored before,
    or those of them that [ZREMRANGEBYSCORE key 0 (now - windowMs)] keeps;
    every event whose score is outside [0, now - windowMs] is kept. *)
Theorem getStatus_only_prunes rl identifier now w :
  let w' := (RateLimiter.getStatus rl identifier now w).2 in
  db w' !! RateLimiter.blockKey identifier
  = db w !! RateLimiter.blockKey identifier
  ∧ (∀ k, k ≠ RateLimiter.key identifier → db w' !! k = db w !! k)
  ∧ (events identifier now (db w') = events identifier now (db w)
     ∨ events identifier now (db w')
       = in_window rl now (events identifier now (db w)))
  ∧ (∀ m sc, events identifier now (db w') !! m = Some sc →
       events identifier now (db w) !! m = Some sc)
  ∧ (∀ m sc, events identifier now (db w) !! m = Some sc →
       ¬ (0 ≤ sc ≤ now - RateLimiter.windowMs rl) →
       events identifier now (db w') !! m = Some sc).
Proof.
  intros w'.
  assert (Hmain : (∀ k, k ≠ RateLimiter.key identifier → db w' !! k = db w !! k)
    ∧ (events identifier now (db w') = events identifier now (db w)
       ∨ events identifier now (db w')
         = in_window rl now (events identifier now (db w)))).
  { subst w'. unfold RateLimiter.getStatus, RateLimiter.getStatus_try,
      Redis.getClient, bind, try_catch, ret.
    destruct (initialized w); [|cbn; auto].
    destruct (Redis.command (Redis.ttl now (RateLimiter.blockKey identifier)) w)
      as [r1 w1] eqn:H1.
    apply command_inv in H1 as [(e & -> & Hd1)|(seconds & -> & Hop1)].
    { cbn. rewrite Hd1. auto. }
    apply ttl_db in Hop1 as Hd1. case_decide.
    { cbn. rewrite Hd1. auto. }
    destruct (Redis.command
                (Redis.zremrangebyscore now (RateLimiter.key identifier) 0
                   (now - RateLimiter.windowMs rl)) w1) as [r2 w2] eqn:H2.
    apply command_inv in H2 as [(e & -> & Hd2)|(n & -> & Hop2)].
    { cbn. rewrite Hd2, Hd1. auto. }
    apply prune_frame in Hop2 as [Hother Hev]. rewrite Hd1 in Hother, Hev.
    destruct (Redis.command (Redis.zcard now (RateLimiter.key identifier)) w2)
      as [r3 w3] eqn:H3.
    apply command_inv in H3 as [(e & -> & Hd3)|(c & -> & Hop3)].
    { cbn. rewrite Hd3. auto. }
    apply zcard_db in Hop3 as Hd3. cbn. rewrite Hd3. auto. }
  destruct Hmain as [Hother Hev]. split_and!; try done.
  - apply Hother. intros H. by eapply keys_differ.
  - intros m sc. destruct Hev as [-> | ->]; [done|].
    unfold in_window. rewrite map_lookup_filter_Some. tauto.
  - intros m sc Hm Hsc. destruct Hev as [-> | ->]; [done|].
    unfold in_window. rewrite map_lookup_filter_Some. split; [done|].
    unfold Redis.in_range. cbn. lia.
Qed.

(** C5, as stated, fails: after two admitted calls 50 s apart, a
    [getStatus] call 20 s later removes the event of the first call from
    the store. *)
Lemma getStatus_removes_expired_events :
  let w := (isAllowed_each RateLimiter.default "u1"
              [(1700000000000, 0%N); (1700000050000, 1%N)] blank).2 in
  let w' := (RateLimiter.getStatus RateLimiter.default "u1" 1700000070000 w).2 in
  events "u1" 1700000070000 (db w) !! (1700000000000, 0%N) = Some 1700000000000
  ∧ events "u1" 1700000070000 (db w') !! (1700000000000, 0%N) = None
  ∧ db w' ≠ db w.
Proof.
  intros w w'.
  assert (H1 : events "u1" 1700000070000 (db w) !! (1700000000000, 0%N) = Some 1700000000000).
  { vm_compute. reflexivity. }
  assert (H2 : events "u1" 1700000070000 (db w') !! (1700000000000, 0%N) = None).
  { vm_compute. reflexivity. }
  split; [exact H1|]. split; [exact H2|].
  intros Heq. rewrite Heq in H2. congruence.
Qed.

(** ** Faults and the fail-open policy *)

Lemma steady_ret {A} (a : A) : steady (ret a).
Proof. intros w b w' [= <- <-]. done. Qed.

Lemma steady_command {A} (op : gmap string entry → Error + A * gmap string entry) :
  steady (Redis.command op).
Proof.
  intros [i f d o j q] a w'. unfold Redis.command, Redis.exec. sim.
  destruct f as [|[] fs]; sim; try done.
  - destruct (op d) as [e|[b d']]; [done|]. by intros [= <- <-].
  - destruct (op d) as [e|[b d']]; [done|]. by intros [= <- <-].
Qed.

Lemma steady_bind {A B} (m : Cmd A) (k : A → Cmd B) :
  steady m → (∀ a, steady (k a)) → steady (bind m k).
Proof.
  intros Hm Hk w b w'. unfold bind.
  destruct (m w) as [[a|e] w1] eqn:Hmw; [|done].
  rewrite (Hm _ _ _ Hmw). apply Hk.
Qed.

Lemma isAllowed_try_steady rl identifier now rnd :
  steady (RateLimiter.isAllowed_try rl identifier now rnd).
Proof.
  unfold RateLimiter.isAllowed_try.
  apply steady_bind; [apply steady_command|]. intros seconds.
  case_decide; [apply steady_ret|].
  apply steady_bind; [apply steady_command|]. intros _.
  apply steady_bind; [apply steady_command|]. intros c.
  case_decide.
  - apply steady_bind; [apply steady_command|]. intros _.
    apply steady_bind; [apply steady_command|]. intros oldest.
    apply steady_ret.
  - apply steady_bind; [apply steady_command|]. intros _.
    apply steady_bind; [apply steady_command|]. intros _.
    apply steady_ret.
Qed.

(** C6.  With a connected client, [isAllowed] always resolves with a
    decision; when a store command throws inside its [try] block, and in
    particular when the store does not answer the first command, the
    decision is [allowed = true], [blocked = false],
    [remaining = maxRequests - 1]; and a rejection is only ever the
    decision that the same store gives when no command throws. *)
Theorem isAllowed_fails_open rl identifier now rnd w :
  initialized w = true →
  ∃ d w',
    RateLimiter.isAllowed rl identifier now rnd w = (Return d, w')
    ∧ (∀ e w1,
         RateLimiter.isAllowed_try rl identifier now rnd w = (Throw e, w1) →
         RateLimiter.allowed d = true ∧ RateLimiter.blocked d = false
         ∧ RateLimiter.remaining d = RateLimiter.maxRequests rl - 1
         ∧ d = RateLimiter.fail_open rl now)
    ∧ (∀ fs, faults w = true :: fs →
         RateLimiter.allowed d = true ∧ RateLimiter.blocked d = false
         ∧ RateLimiter.remaining d = RateLimiter.maxRequests rl - 1)
    ∧ (RateLimiter.allowed d = false →
       (RateLimiter.isAllowed rl identifier now rnd (set_faults [] w)).1
       = Return d).
Proof.
  intros Hi. unfold RateLimiter.isAllowed, bind, try_catch, Redis.getClient.
  rewrite Hi. cbn [initialized set_faults].  rewrite Hi.
  destruct (RateLimiter.isAllowed_try rl identifier now rnd w)
    as [[d|e] w1] eqn:Htry.
  - exists d, w1. split; [done|]. split; [done|]. split.
    + intros fs Hf. exfalso. revert Htry.
      unfold RateLimiter.isAllowed_try, bind, Redis.command.
      by rewrite Hf.
    + intros _. by rewrite (isAllowed_try_steady _ _ _ _ _ _ _ Htry).
  - eexists _, _. split; [done|]. cbn. split_and!; try done.
Qed.

Lemma isAllowed_fails_open_witness :
  ∃ d w',
    RateLimiter.isAllowed RateLimiter.default "u1" 1700000000000 7%N
      (set_faults [true] blank) = (Return d, w')
    ∧ RateLimiter.allowed d = true ∧ RateLimiter.blocked d = false
    ∧ RateLimiter.remaining d = 29.
Proof.
  destruct (isAllowed_fails_open RateLimiter.default "u1" 1700000000000 7%N
              (set_faults [true] blank) eq_refl)
    as (d & w' & Hrun & _ & Hdown & _).
  exists d, w'. split; [exact Hrun|]. exact (Hdown [] eq_refl).
Defined.

(** ** [isAllowed] against [getStatus] *)

Ltac agree_leaf :=
  eexists _, _, _, _; split; [reflexivity|]; split; [reflexivity|];
  split_and!; simpl;
  rewrite ?bool_decide_true, ?bool_decide_false by lia; simpl;
  try done; try lia;
  try (intros _ _; simpl; by rewrite lookup_insert_eq).

Lemma lookup_live_insert_ne now k k' e d :
  k' ≠ k → Redis.lookup_live now k (<[k' := e]> d) = Redis.lookup_live now k d.
Proof. intros H. unfold Redis.lookup_live. by rewrite lookup_insert_ne. Qed.

Lemma prune_live_typed identifier now lo hi d n d1 :
  Redis.zremrangebyscore now (RateLimiter.key identifier) lo hi d = inr (n, d1) →
  live_typed identifier now d1.
Proof.
  unfold Redis.zremrangebyscore, live_typed. cbv zeta.
  destruct (Redis.lookup_live now (RateLimiter.key identifier) d) as [e|] eqn:Hl.
  - destruct (val e) as [s|z|l] eqn:Hval; try done.
    apply lookup_live_Some in Hl as [Hd Hlive].
    case_decide as Hempty; intros [= _ <-].
    + unfold Redis.lookup_live. by rewrite lookup_delete_eq.
    + unfold Redis.lookup_live. rewrite lookup_insert_eq.
      unfold Redis.live in *. cbn. rewrite Hlive. cbn. eauto.
  - intros [= _ <-]. by rewrite Hl.
Qed.

Lemma zcard_live_typed identifier now d :
  live_typed identifier now d →
  ∃ c, Redis.zcard now (RateLimiter.key identifier) d = inr (c, d).
Proof.
  unfold live_typed, Redis.zcard.
  destruct (Redis.lookup_live now (RateLimiter.key identifier) d) as [e|];
    [|eauto]. intros [z ->]. eauto.
Qed.

Lemma zrange_first_live_typed identifier now k e d :
  live_typed identifier now d → k ≠ RateLimiter.key identifier →
  ∃ oldest,
    Redis.zrange_first now (RateLimiter.key identifier) (<[k := e]> d)
    = inr (oldest, <[k := e]> d).
Proof.
  unfold live_typed, Redis.zrange_first. intros Hty Hk.
  rewrite lookup_live_insert_ne by done.
  destruct (Redis.lookup_live now (RateLimiter.key identifier) d) as [e'|];
    [|eauto]. destruct Hty as [z ->]. eauto.
Qed.

Lemma zadd_expire_live_typed identifier now score m seconds d :
  live_typed identifier now d →
  ∃ d1 d2,
    Redis.zadd now (RateLimiter.key identifier) score m d = inr ((), d1)
    ∧ Redis.expire now (RateLimiter.key identifier) seconds d1 = inr (1, d2)
    ∧ ∀ k, k ≠ RateLimiter.key identifier → d2 !! k = d !! k.
Proof.
  unfold live_typed, Redis.zadd. intros Hty.
  assert (Hexp : ∀ e1,
    Redis.live now e1 = true →
    ∃ d2, Redis.expire now (RateLimiter.key identifier) seconds
            (<[RateLimiter.key identifier := e1]> d) = inr (1, d2)
          ∧ ∀ k, k ≠ RateLimiter.key identifier → d2 !! k = d !! k).
  { intros e1 Hlive. unfold Redis.expire.
    assert (Hl1 : Redis.lookup_live now (RateLimiter.key identifier)
                    (<[RateLimiter.key identifier := e1]> d) = Some e1).
    { apply lookup_live_Some. by rewrite lookup_insert_eq. }
    rewrite Hl1. case_decide; eexists; (split; [done|]); intros k Hk.
    - by rewrite lookup_delete_ne, lookup_insert_ne.
    - by rewrite !lookup_insert_ne. }
  destruct (Redis.lookup_live now (RateLimiter.key identifier) d) as [e|] eqn:Hl.
  - destruct Hty as [z ->]. apply lookup_live_Some in Hl as [_ Hlive].
    edestruct Hexp as (d2 & Hd2 & Hframe); [|eexists _, d2; eauto].
    unfold Redis.live in *. exact Hlive.
  - edestruct Hexp as (d2 & Hd2 & Hframe); [|eexists _, d2; eauto]. done.
Qed.

(** C4, as amended.  On the same store, with no command failing,
    [isAllowed] and [getStatus] resolve with the same [allowed]; their
    [remaining] is the same (zero) when the request is rejected, and when
    it is admitted [isAllowed] reports one less than [getStatus], having
    counted the request it admits.  [getStatus] leaves the block key as it
    is; [isAllowed] sets it when it rejects an identifier that is not
    blocked. *)
Theorem isAllowed_getStatus_agree rl identifier now rnd w :
  initialized w = true → faults w = [] →
  0 < RateLimiter.blockDurationMs rl →
  ∃ d1 w1 d2 w2,
    RateLimiter.isAllowed rl identifier now rnd w = (Return d1, w1)
    ∧ RateLimiter.getStatus rl identifier now w = (Return d2, w2)
    ∧ RateLimiter.allowed d1 = RateLimiter.allowed d2
    ∧ RateLimiter.remaining d1
      = (if RateLimiter.allowed d1 then RateLimiter.remaining d2 - 1
         else RateLimiter.remaining d2)
    ∧ db w2 !! RateLimiter.blockKey identifier
      = db w !! RateLimiter.blockKey identifier
    ∧ (block_seconds identifier now (db w) ≤ 0 →
       RateLimiter.allowed d1 = false →
       db w1 !! RateLimiter.blockKey identifier
       = Some (mkEntry (Str "1")
                 (Some (now + ceil_div (RateLimiter.blockDurationMs rl) 1000 * 1000)))).
Proof.
  assert (Hne : RateLimiter.blockKey identifier ≠ RateLimiter.key identifier)
    by (intros H; by eapply keys_differ).
  destruct w as [i f d o j q]. cbn. intros -> -> Hbd. run_limiter.
  rewrite block_seconds_ttl. sim.
  case_decide as Hb; [agree_leaf|].
  destruct (Redis.zremrangebyscore now (RateLimiter.key identifier) 0
              (now - RateLimiter.windowMs rl) d) as [e|[n d1]] eqn:Hrem; sim;
    [agree_leaf|].
  pose proof (prune_frame _ _ _ _ _ _ _ Hrem) as [Hother _].
  pose proof (prune_live_typed _ _ _ _ _ _ _ Hrem) as Hty.
  assert (Hbk : d1 !! RateLimiter.blockKey identifier
                = d !! RateLimiter.blockKey identifier) by (by apply Hother).
  destruct (zcard_live_typed _ _ _ Hty) as [c Hcard]. rewrite Hcard. sim.
  case_decide as Hc; sim.
  - unfold Redis.setex.
    rewrite decide_False by (pose proof (ceil_div_pos _ Hbd); lia). sim.
    edestruct (zrange_first_live_typed identifier now) as [oldest Hold];
      [exact Hty|exact Hne|]. rewrite Hold. sim. agree_leaf.
  - destruct (zadd_expire_live_typed identifier now now (now, rnd)
                (ceil_div (RateLimiter.windowMs rl) 1000) d1 Hty)
      as (d2 & d3 & Hadd & Hexp & Hframe).
    rewrite Hadd. sim. rewrite Hexp. sim. agree_leaf.
Qed.

Lemma isAllowed_getStatus_agree_witness :
  ∃ d1 w1 d2 w2,
    RateLimiter.isAllowed RateLimiter.default "u1" 1700000000000 0%N blank
    = (Return d1, w1)
    ∧ RateLimiter.getStatus RateLimiter.default "u1" 1700000000000 blank
      = (Return d2, w2)
    ∧ RateLimiter.allowed d1 = RateLimiter.allowed d2
    ∧ RateLimiter.remaining d1
      = (if RateLimiter.allowed d1 then RateLimiter.remaining d2 - 1
         else RateLimiter.remaining d2).
Proof.
  destruct (isAllowed_getStatus_agree RateLimiter.default "u1" 1700000000000
              0%N blank eq_refl eq_refl eq_refl)
    as (d1 & w1 & d2 & w2 & H1 & H2 & Ha & Hr & _).
  exists d1, w1, d2, w2. by split_and!.
Defined.

(** C4, as stated, fails: on an empty store with the default configuration
    [isAllowed] reports 29 remaining and [getStatus] reports 30. *)
Lemma remaining_differs_when_admitted :
  ∃ d1 d2,
    (RateLimiter.isAllowed RateLimiter.default "u1" 1700000000000 0%N blank).1
    = Return d1
    ∧ (RateLimiter.getStatus RateLimiter.default "u1" 1700000000000 blank).1
      = Return d2
    ∧ RateLimiter.remaining d1 = 29
    ∧ RateLimiter.remaining d2 = 30
    ∧ RateLimiter.remaining d1 ≠ RateLimiter.remaining d2.
Proof.
  eexists _, _. split; [vm_compute; reflexivity|].
  split; [vm_compute; reflexivity|]. cbn. split_and!; [done|done|lia].
Qed.

(** ** Regular expressions: the matcher against the denotation *)

Lemma append_nil_inv (s1 s2 : string) : s1 +:+ s2 = "" → s1 = "" ∧ s2 = "".
Proof. destruct s1; [done|]. cbv [append]. discriminate. Qed.

Lemma append_cons_inv (s1 s2 : string) c s :
  s1 +:+ s2 = String c s →
  (s1 = "" ∧ s2 = String c s) ∨ (∃ s1', s1 = String c s1' ∧ s = s1' +:+ s2).
Proof.
  destruct s1 as [|c1 s1']; [left; done|].
  cbv [append]. fold append. intros [= -> <-]. right. eauto.
Qed.

Lemma append_cons c (s1 s2 : string) :
  String c s1 +:+ s2 = String c (s1 +:+ s2).
Proof. reflexivity. Qed.

Lemma append_assoc (s1 s2 s3 : string) :
  (s1 +:+ s2) +:+ s3 = s1 +:+ (s2 +:+ s3).
Proof.
  induction s1 as [|c s1 IH]; [done|]. by rewrite !append_cons, IH.
Qed.

Lemma matches_never_inv s : RegExp.matches RegExp.Never s ↔ False.
Proof. split; [|done]. inversion 1. Qed.

Lemma matches_empty_inv s : RegExp.matches RegExp.Empty s ↔ s = "".
Proof. split; [by inversion 1|intros ->; constructor]. Qed.

Lemma matches_class_inv p s :
  RegExp.matches (RegExp.Class p) s ↔ ∃ c, s = String c "" ∧ p c = true.
Proof.
  split; [inversion 1; eauto|]. intros (c & -> & Hc). by constructor.
Qed.

Lemma matches_seq_inv r1 r2 s :
  RegExp.matches (RegExp.Seq r1 r2) s
  ↔ ∃ s1 s2, s = s1 +:+ s2 ∧ RegExp.matches r1 s1 ∧ RegExp.matches r2 s2.
Proof.
  split; [inversion 1; eauto|]. intros (s1 & s2 & -> & H1 & H2).
  by constructor.
Qed.

Lemma matches_or_inv r1 r2 s :
  RegExp.matches (RegExp.Or r1 r2) s
  ↔ RegExp.matches r1 s ∨ RegExp.matches r2 s.
Proof.
  split; [inversion 1; eauto|]. intros [H|H]; [by apply RegExp.m_or_l|by apply RegExp.m_or_r].
Qed.

Lemma nullable_spec r : RegExp.nullable r = true ↔ RegExp.matches r "".
Proof.
  induction r as [| |p|r1 IH1 r2 IH2|r1 IH1 r2 IH2]; cbn.
  - rewrite matches_never_inv. done.
  - rewrite matches_empty_inv. done.
  - rewrite matches_class_inv. split; [done|]. by intros (c & ? & _).
  - rewrite andb_true_iff, IH1, IH2, matches_seq_inv. split.
    + intros [H1 H2]. by exists "", "".
    + intros (s1 & s2 & Hs & H1 & H2). symmetry in Hs.
      apply append_nil_inv in Hs as [-> ->]. done.
  - rewrite orb_true_iff, IH1, IH2, matches_or_inv. done.
Qed.

Lemma derive_spec c r s :
  RegExp.matches (RegExp.derive c r) s ↔ RegExp.matches r (String c s).
Proof.
  revert s. induction r as [| |p|r1 IH1 r2 IH2|r1 IH1 r2 IH2]; intros s; cbn.
  - by rewrite !matches_never_inv.
  - rewrite matches_never_inv, matches_empty_inv. done.
  - rewrite matches_class_inv. destruct (p c) eqn:Hp.
    + rewrite matches_empty_inv. split.
      * intros ->. eauto.
      * by intros (c' & [= <- ->] & _).
    + rewrite matches_never_inv. split; [done|].
      intros (c' & [= <- ->] & Hc). congruence.
  - assert (Hseq : RegExp.matches (RegExp.Seq r1 r2) (String c s)
        ↔ (RegExp.matches r1 "" ∧ RegExp.matches r2 (String c s))
          ∨ RegExp.matches (RegExp.Seq (RegExp.derive c r1) r2) s).
    { rewrite !matches_seq_inv. split.
      - intros (s1 & s2 & Hs & H1 & H2). symmetry in Hs.
        apply append_cons_inv in Hs as [[-> ->]|(s1' & -> & ->)].
        + by left.
        + right. exists s1', s2. by rewrite IH1.
      - intros [[H1 H2]|(s1 & s2 & -> & H1 & H2)].
        + by exists "", (String c s).
        + exists (String c s1), s2. by rewrite <- IH1. }
    rewrite Hseq. destruct (RegExp.nullable r1) eqn:Hn.
    + apply nullable_spec in Hn. rewrite matches_or_inv, IH2. tauto.
    + assert (¬ RegExp.matches r1 "") by (rewrite <- nullable_spec; congruence).
      tauto.
  - by rewrite !matches_or_inv, IH1, IH2.
Qed.

(** The matcher decides membership in the denotation. *)
Lemma test_spec r s : RegExp.test r s = true ↔ RegExp.matches r s.
Proof.
  revert r. induction s as [|c s IH]; intros r; cbn.
  - apply nullable_spec.
  - by rewrite IH, derive_spec.
Qed.

Lemma matches_class_seq p r s :
  RegExp.matches (RegExp.Seq (RegExp.Class p) r) s
  ↔ ∃ c s', s = String c s' ∧ p c = true ∧ RegExp.matches r s'.
Proof.
  rewrite matches_seq_inv. split.
  - intros (s1 & s2 & -> & H1 & H2).
    apply matches_class_inv in H1 as (c & -> & Hc). by exists c, s2.
  - intros (c & s' & -> & Hc & Hr). exists (String c ""), s'.
    split; [done|]. split; [|done]. apply matches_class_inv. eauto.
Qed.

Lemma at_most_class n p s :
  RegExp.matches (RegExp.at_most n (RegExp.Class p)) s
  ↔ (String.length s ≤ n)%nat ∧ all_chars p s = true.
Proof.
  revert s. induction n as [|n IH]; intros s; cbn.
  - rewrite matches_empty_inv. split.
    + by intros ->.
    + intros [Hl _]. destruct s; [done|cbn in Hl; lia].
  - rewrite matches_or_inv, matches_empty_inv, matches_class_seq. split.
    + intros [->|(c & s' & -> & Hc & Hr)]; [cbn; split; [lia|done]|].
      apply IH in Hr as [Hl Ha]. cbn. rewrite Hc, Ha. split; [lia|done].
    + destruct s as [|c s']; [by left|]. cbn.
      rewrite andb_true_iff. intros [Hl [Hc Ha]]. right.
      exists c, s'. split; [done|]. split; [done|]. apply IH. split; [lia|done].
Qed.

Lemma exactly_then_class n p r s :
  RegExp.matches (RegExp.Seq (RegExp.exactly n (RegExp.Class p)) r) s
  ↔ ∃ s1 s2, s = s1 +:+ s2 ∧ String.length s1 = n ∧ all_chars p s1 = true
             ∧ RegExp.matches r s2.
Proof.
  revert s. induction n as [|n IH]; intros s; cbn.
  - rewrite matches_seq_inv. split.
    + intros (s1 & s2 & -> & H1 & H2). apply matches_empty_inv in H1 as ->.
      by exists "", s2.
    + intros (s1 & s2 & -> & Hl & _ & Hr). destruct s1; [|done].
      exists "", s2. split; [done|]. split; [constructor|done].
  - assert (Hassoc : RegExp.matches
        (RegExp.Seq (RegExp.Seq (RegExp.Class p)
                       (RegExp.exactly n (RegExp.Class p))) r) s
      ↔ RegExp.matches
          (RegExp.Seq (RegExp.Class p)
             (RegExp.Seq (RegExp.exactly n (RegExp.Class p)) r)) s).
    { rewrite !matches_seq_inv. split.
      - intros (s1 & s2 & -> & H1 & H2).
        apply matches_seq_inv in H1 as (a & b & -> & Ha & Hb).
        exists a, (b +:+ s2). split; [by rewrite append_assoc|].
        split; [done|]. apply matches_seq_inv. eauto.
      - intros (s1 & s2 & -> & H1 & H2).
        apply matches_seq_inv in H2 as (a & b & -> & Ha & Hb).
        exists (s1 +:+ a), b. split; [by rewrite append_assoc|].
        split; [|done]. apply matches_seq_inv. eauto. }
    rewrite Hassoc, matches_class_seq. split.
    + intros (c & s' & -> & Hc & Hr).
      apply IH in Hr as (s1 & s2 & -> & Hl & Ha & Hr).
      exists (String c s1), s2. cbn. rewrite Hc, Ha, Hl. done.
    + intros (s1 & s2 & -> & Hl & Ha & Hr).
      destruct s1 as [|c s1]; [done|]. cbn in Hl, Ha.
      apply andb_true_iff in Ha as [Hc Ha].
      exists c, (s1 +:+ s2). split; [done|]. split; [done|].
      apply IH. exists s1, s2. split_and!; try done. lia.
Qed.

(** ** The phone number pattern *)

Lemma all_chars_spec p s :
  all_chars p s = true ↔ ∀ c, c ∈ list_ascii_of_string s → p c = true.
Proof.
  induction s as [|c s IH]; cbn.
  - split; [|done]. intros _ c Hc. by apply elem_of_nil in Hc.
  - rewrite andb_true_iff, IH. split.
    + intros [Hc Hs] c' [->|Hc']%elem_of_cons; auto.
    + intros H. split; [apply H; left|intros c' Hc'; apply H; by right].
Qed.

Lemma between_1_14_class p s :
  RegExp.matches (RegExp.between 1 14 (RegExp.Class p)) s
  ↔ (1 ≤ String.length s ≤ 14)%nat ∧ all_chars p s = true.
Proof.
  unfold RegExp.between. rewrite exactly_then_class. split.
  - intros (s1 & s2 & -> & Hl & Ha & Hr). apply at_most_class in Hr as [Hl2 Ha2].
    destruct s1 as [|c [|]]; try done. cbn in Ha.
    rewrite andb_true_r in Ha. rewrite append_cons. cbn.
    change ("" +:+ s2) with s2. rewrite Ha, Ha2. split; [lia|done].
  - intros [Hl Ha]. destruct s as [|c s]; [cbn in Hl; lia|]. cbn in Hl, Ha.
    apply andb_true_iff in Ha as [Hc Ha].
    exists (String c ""), s. split; [done|]. cbn. rewrite Hc.
    split_and!; try done. apply (proj2 (at_most_class 13 p s)).
    split; [lia|done].
Qed.

Lemma plus_sign_spec c : RegExp.plus_sign c = true ↔ c = "+"%char.
Proof.
  unfold RegExp.plus_sign, RegExp.code. rewrite Nat.eqb_eq. split.
  - intros H. rewrite <- (ascii_nat_embedding c), H. done.
  - by intros ->.
Qed.

Lemma range_spec lo hi n :
  Nat.leb lo n && Nat.leb n hi = true ↔ (lo ≤ n ≤ hi)%nat.
Proof. rewrite andb_true_iff, !Nat.leb_le. done. Qed.

(** The regular expression accepts exactly the strings of the pattern
    in words. *)
Lemma isValidPhoneNumber_spec phoneNumber :
  SMSService.isValidPhoneNumber phoneNumber = true
  ↔ SMSService.plus_digit_digits phoneNumber.
Proof.
  unfold SMSService.isValidPhoneNumber, SMSService.phoneRegex,
    SMSService.plus_digit_digits.
  rewrite test_spec, matches_class_seq. split.
  - intros (c & s' & -> & Hc & Hr). apply plus_sign_spec in Hc as ->.
    apply matches_class_seq in Hr as (d & ds & -> & Hd & Hr).
    apply between_1_14_class in Hr as [Hl Ha].
    exists d, ds. split; [done|]. split; [by apply range_spec in Hd|].
    split; [done|]. intros c Hc. rewrite all_chars_spec in Ha.
    apply Ha, range_spec in Hc. done.
  - intros (d & ds & -> & Hd & Hl & Ha). exists "+"%char, (String d ds).
    split; [done|]. split; [done|]. apply matches_class_seq.
    exists d, ds. split; [done|]. split; [by apply range_spec|].
    apply between_1_14_class. split; [done|]. apply all_chars_spec.
    intros c Hc. by apply range_spec, Ha.
Qed.

(** ** What the limiter and the delivery log leave alone *)

Lemma redis_only_ret {A} (a : A) : redis_only (ret a).
Proof. by intros w r w' [= <- <-]. Qed.

Lemma redis_only_throw {A} e : redis_only (@throw A e).
Proof. by intros w r w' [= <- <-]. Qed.

Lemma redis_only_getClient : redis_only Redis.getClient.
Proof.
  intros w r w'. unfold Redis.getClient.
  by destruct (initialized w) eqn:Hi; intros [= <- <-].
Qed.

Lemma redis_only_command {A}
    (op : gmap string entry → Error + A * gmap string entry) :
  redis_only (Redis.command op).
Proof.
  intros [i f d o j q] r w'. unfold Redis.command, Redis.exec. sim.
  destruct f as [|[] fs]; sim.
  - destruct (op d) as [e|[a d']]; by intros [= <- <-].
  - by intros [= <- <-].
  - destruct (op d) as [e|[a d']]; by intros [= <- <-].
Qed.

Lemma redis_only_bind {A B} (m : Cmd A) (k : A → Cmd B) :
  redis_only m → (∀ a, redis_only (k a)) → redis_only (bind m k).
Proof.
  intros Hm Hk w r w'. unfold bind.
  destruct (m w) as [[a|e] w1] eqn:Hmw.
  - intros Hka. destruct (Hm _ _ _ Hmw) as (H1 & H2 & H3 & H4).
    destruct (Hk _ _ _ _ Hka) as (H1' & H2' & H3' & H4').
    split_and!; congruence.
  - intros [= <- <-]. by eapply Hm.
Qed.

Lemma redis_only_try_catch {A} (m : Cmd A) (h : Error → Cmd A) :
  redis_only m → (∀ e, redis_only (h e)) → redis_only (try_catch m h).
Proof.
  intros Hm Hh w r w'. unfold try_catch.
  destruct (m w) as [[a|e] w1] eqn:Hmw.
  - intros [= <- <-]. by eapply Hm.
  - intros Hhe. destruct (Hm _ _ _ Hmw) as (H1 & H2 & H3 & H4).
    destruct (Hh _ _ _ _ Hhe) as (H1' & H2' & H3' & H4').
    split_and!; congruence.
Qed.

Ltac redis_only_tac :=
  repeat first
    [ apply redis_only_ret | apply redis_only_throw
    | apply redis_only_getClient | apply redis_only_command
    | apply redis_only_bind; [|intros ?]
    | apply redis_only_try_catch; [|intros ?]
    | case_decide ].

Lemma redis_only_isAllowed rl identifier now rnd :
  redis_only (RateLimiter.isAllowed rl identifier now rnd).
Proof.
  unfold RateLimiter.isAllowed, RateLimiter.isAllowed_try. redis_only_tac.
Qed.

Lemma redis_only_logSMSDelivery to message status apiResponse error now iso :
  redis_only
    (SMSService.logSMSDelivery to message status apiResponse error now iso).
Proof. unfold SMSService.logSMSDelivery. redis_only_tac. Qed.

Lemma isAllowed_returns rl identifier now rnd w :
  initialized w = true →
  ∃ d w', RateLimiter.isAllowed rl identifier now rnd w = (Return d, w').
Proof.
  intros Hi. unfold RateLimiter.isAllowed, bind, try_catch, Redis.getClient.
  rewrite Hi.
  destruct (RateLimiter.isAllowed_try rl identifier now rnd w) as [[d|e] w1];
    eauto.
Qed.

Lemma logSMSDelivery_returns to message status apiResponse error now iso w :
  initialized w = true →
  ∃ w', SMSService.logSMSDelivery to message status apiResponse error now iso w
        = (Return (), w').
Proof.
  intros Hi. unfold SMSService.logSMSDelivery at 1.
  unfold bind at 1, try_catch, Redis.getClient. rewrite Hi.
  match goal with |- context [match ?m w with _ => _ end] =>
    destruct (m w) as [[[]|e] w1] end; eauto.
Qed.

Lemma bind_Return {A B} (m : Cmd A) (k : A → Cmd B) w a w1 :
  m w = (Return a, w1) → bind m k w = k a w1.
Proof. intros H. unfold bind. by rewrite H. Qed.

Lemma bind_Throw {A B} (m : Cmd A) (k : A → Cmd B) w e w1 :
  m w = (Throw e, w1) → bind m k w = (Throw e, w1).
Proof. intros H. unfold bind. by rewrite H. Qed.

(** ** The outcome of [sendSMS] *)

(** With a connected client, [sendSMS] consults the limiter first and then
    takes the first of: rate-limit error, phone format error, empty message
    error, dispatch. *)
Lemma sendSMS_outcome svc to message identifier now rnd iso w :
  initialized w = true →
  ∃ d w1,
    RateLimiter.isAllowed (SMSService.rateLimiter svc)
      (default "default" identifier) now rnd w = (Return d, w1)
    ∧ let r := SMSService.sendSMS svc to message identifier now rnd iso w in
      let smsData :=
        mkSmsPayload [to] (trim message) (SMSService.from svc) in
      if negb (RateLimiter.allowed d) then
        r.1 = Throw (RateLimitError (SMSService.blocked_seconds d))
        ∧ outbox r.2 = outbox w
      else if negb (SMSService.isValidPhoneNumber to) then
        r.1 = Throw PhoneFormatError ∧ outbox r.2 = outbox w
      else if bool_decide (message = "")
              || Nat.eqb (String.length (trim message)) 0 then
        r.1 = Throw EmptyMessageError ∧ outbox r.2 = outbox w
      else
        outbox r.2 = smsData :: outbox w
        ∧ match SMSService.client svc smsData with
          | inl msg => r.1 = Throw (GatewayFailure msg)
          | inr result =>
              match Recipients result with
              | r0 :: _ =>
                  r.1 = Return (SMSService.mkSendResult true
                                  (messageId r0) (status r0) (cost r0)
                                  (SMSService.mkRateLimitInfo true
                                     (RateLimiter.remaining d)
                                     (RateLimiter.resetTime d)))
              | [] => r.1 = Throw NoRecipient
              end
          end.
Proof.
  intros Hi.
  destruct (isAllowed_returns (SMSService.rateLimiter svc)
              (default "default" identifier) now rnd w Hi) as (d & w1 & Hd).
  exists d, w1. split; [done|].
  destruct (redis_only_isAllowed _ _ _ _ _ _ _ Hd) as (Hi1 & Ho1 & _).
  rewrite Hi in Hi1.
  assert (Hfail : ∀ e w2, initialized w2 = true →
    ∃ w3, (SMSService.logSMSDelivery to message "failed" None
             (Some (error_message e)) now iso ;; throw e) w2
          = (@Throw SMSService.SendResult e, w3)
          ∧ outbox w3 = outbox w2).
  { intros e w2 Hi2.
    destruct (logSMSDelivery_returns to message "failed" None
                (Some (error_message e)) now iso w2 Hi2) as [w3 Hlog].
    exists w3. rewrite (bind_Return _ _ _ _ _ Hlog). split; [done|].
    by destruct (redis_only_logSMSDelivery _ _ _ _ _ _ _ _ _ _ Hlog)
      as (_ & -> & _). }
  intros r smsData.
  assert (Hr : r = SMSService.sendSMS svc to message identifier now rnd iso w)
    by done. clearbody r.
  unfold SMSService.sendSMS, try_catch, SMSService.sendSMS_try in Hr.
  rewrite (bind_Return _ _ _ _ _ Hd) in Hr.
  destruct (negb (RateLimiter.allowed d)).
  { unfold throw at 1 in Hr.
    destruct (Hfail (RateLimitError (SMSService.blocked_seconds d)) w1 Hi1)
      as (w3 & Heq & Ho3). rewrite Heq in Hr. subst r. cbn.
    split; [done|congruence]. }
  destruct (negb (SMSService.isValidPhoneNumber to)).
  { unfold throw at 1 in Hr. destruct (Hfail PhoneFormatError w1 Hi1)
      as (w3 & Heq & Ho3). rewrite Heq in Hr. subst r. cbn.
    split; [done|congruence]. }
  destruct (bool_decide (message = "")
            || Nat.eqb (String.length (trim message)) 0).
  { unfold throw at 1 in Hr. destruct (Hfail EmptyMessageError w1 Hi1)
      as (w3 & Heq & Ho3). rewrite Heq in Hr. subst r. cbn.
    split; [done|congruence]. }
  fold smsData in Hr.
  set (w2 := set_outbox (smsData :: outbox w1) w1).
  assert (Hi2 : initialized w2 = true) by done.
  assert (Ho2 : outbox w2 = smsData :: outbox w) by (cbn; congruence).
  destruct (SMSService.client svc smsData) as [msg|result] eqn:Hsend.
  { rewrite (bind_Throw _ _ _ (GatewayFailure msg) w2) in Hr
      by (unfold SMSService.send; by rewrite Hsend).
    destruct (Hfail (GatewayFailure msg) w2 Hi2) as (w3 & Heq & Ho3).
    rewrite Heq in Hr. subst r. cbn. split; [congruence|done]. }
  rewrite (bind_Return _ _ _ result w2) in Hr
    by (unfold SMSService.send; by rewrite Hsend).
  destruct (logSMSDelivery_returns to message "success" (Some result) None
              now iso w2 Hi2) as [w3 Hlog].
  rewrite (bind_Return _ _ _ _ _ Hlog) in Hr.
  destruct (redis_only_logSMSDelivery _ _ _ _ _ _ _ _ _ _ Hlog)
    as (Hi3 & Ho3 & _).
  destruct (Recipients result) as [|r0 rest].
  - unfold throw at 1 in Hr.
    destruct (Hfail NoRecipient w3 ltac:(congruence)) as (w4 & Heq & Ho4).
    rewrite Heq in Hr. subst r. cbn. split; [congruence|done].
  - unfold ret in Hr. subst r. cbn. split; [congruence|done].
Qed.

Lemma isAllowed_not_initialized rl identifier now rnd w :
  initialized w = false →
  RateLimiter.isAllowed rl identifier now rnd w = (Throw ClientNotInitialized, w).
Proof.
  intros Hi. unfold RateLimiter.isAllowed, bind, Redis.getClient.
  by rewrite Hi.
Qed.

Lemma sendSMS_not_initialized svc to message identifier now rnd iso w :
  initialized w = false →
  SMSService.sendSMS svc to message identifier now rnd iso w
  = (Throw ClientNotInitialized, w).
Proof.
  intros Hi. unfold SMSService.sendSMS, try_catch, SMSService.sendSMS_try.
  rewrite (bind_Throw _ _ _ _ _ (isAllowed_not_initialized _ _ _ _ _ Hi)).
  unfold SMSService.logSMSDelivery, bind, Redis.getClient. by rewrite Hi.
Qed.

(** C10.  [sendSMS] throws the error with message 'Invalid phone number
    format' exactly when the limiter admitted the request and the recipient
    is not a plus sign, a digit 1-9 and 1 to 14 further digits; a request
    the limiter rejects gets the rate-limit error whatever its recipient;
    an admitted request with a matching recipient goes on to the message
    check, and to the gateway if the message is not blank. *)
Theorem sendSMS_phone_validation svc to message identifier now rnd iso w :
  let evaluation :=
    RateLimiter.isAllowed (SMSService.rateLimiter svc)
      (default "default" identifier) now rnd w in
  let outcome := SMSService.sendSMS svc to message identifier now rnd iso w in
  (outcome.1 = Throw PhoneFormatError
   ↔ (∃ d, evaluation.1 = Return d ∧ RateLimiter.allowed d = true)
     ∧ ¬ SMSService.plus_digit_digits to)
  ∧ error_message PhoneFormatError = "Invalid phone number format"
  ∧ (∀ d, evaluation.1 = Return d → RateLimiter.allowed d = false →
       outcome.1 = Throw (RateLimitError (SMSService.blocked_seconds d)))
  ∧ (∀ d, evaluation.1 = Return d → RateLimiter.allowed d = true →
       SMSService.plus_digit_digits to →
       outcome.1 = Throw EmptyMessageError
       ∨ outbox outcome.2
         = mkSmsPayload [to] (trim message) (SMSService.from svc) :: outbox w).
Proof.
  intros evaluation outcome. subst evaluation outcome.
  destruct (initialized w) eqn:Hi.
  2: { rewrite (isAllowed_not_initialized _ _ _ _ _ Hi),
         (sendSMS_not_initialized _ _ _ _ _ _ _ _ Hi). cbn.
       split_and!; try done. split; [done|]. by intros [(d & ? & _) _]. }
  destruct (sendSMS_outcome svc to message identifier now rnd iso w Hi)
    as (d & w1 & Hd & Hout).
  rewrite Hd. cbv zeta in Hout. cbn [fst].
  pose proof (isValidPhoneNumber_spec to) as Hvalid.
  destruct (RateLimiter.allowed d) eqn:Ha; cbn [negb] in Hout.
  - destruct (SMSService.isValidPhoneNumber to); cbn [negb] in Hout.
    + assert (Hto : SMSService.plus_digit_digits to) by (by apply Hvalid).
      destruct (bool_decide (message = "")
                || Nat.eqb (String.length (trim message)) 0).
      * destruct Hout as [-> _]. split_and!; try done.
        -- split; [done|]. by intros [_ ?].
        -- intros d' [= <-]. congruence.
        -- intros. by left.
      * destruct Hout as [Ho Hr]. split_and!; try done.
        -- split; [|by intros [_ ?]]. intros Hthrow. rewrite Hthrow in Hr.
           destruct (SMSService.client svc _) as [msg|result]; [done|].
           by destruct (Recipients result).
        -- intros d' [= <-]. congruence.
        -- intros. by right.
    + assert (Hto : ¬ SMSService.plus_digit_digits to).
      { intros H. apply Hvalid in H. done. }
      destruct Hout as [-> _]. split_and!; try done.
      * split; [|done]. intros _. split; [|done]. eauto.
      * intros d' [= <-]. congruence.
  - destruct Hout as [-> _]. split_and!; try done.
    + split; [done|]. intros [(d' & [= <-] & ?) _]. congruence.
    + by intros d' [= <-] _.
    + intros d' [= <-]. congruence.
Qed.

(** An instance: a national-format recipient is refused by the pattern. *)
Lemma sendSMS_phone_validation_witness :
  (SMSService.sendSMS sample_service "0712345678" "Hello" (Some "u1")
     1700000000000 0%N "2024-01-15T10:30:00.000Z" blank).1
  = Throw PhoneFormatError.
Proof.
  apply (proj1 (sendSMS_phone_validation sample_service "0712345678" "Hello"
                  (Some "u1") 1700000000000 0%N "2024-01-15T10:30:00.000Z"
                  blank)).
  split.
  - eexists. split; [vm_compute; reflexivity|reflexivity].
  - intros (d & ds & Heq & _). discriminate Heq.
Defined.

(** ** The delivery log *)

Lemma daily_key_differs today : "sms_logs:" +:+ today ≠ "sms_delivery_logs".
Proof. cbv [append]. congruence. Qed.

(** C8, on the code.  The entry [logSMSDelivery] stores in the delivery
    log carries the recipient as it was given, unmasked: the full number
    is in the stored entry. *)
Theorem delivery_log_keeps_full_recipient to message status apiResponse
    error now iso :
  ∃ entry,
    db (SMSService.logSMSDelivery to message status apiResponse error now
          iso blank).2 !! "sms_delivery_logs"
    = Some (mkEntry (Lst [entry]) None)
    ∧ log_to entry = to.
Proof.
  eexists. split; [|shelve].
  pose proof (daily_key_differs (before "T" iso)) as Hne.
  unfold SMSService.logSMSDelivery, bind, try_catch, ret, Redis.getClient,
    Redis.command, Redis.exec, blank. sim.
  (* LPUSH sms_delivery_logs *)
  unfold Redis.lpush at 1, Redis.lookup_live. rewrite lookup_empty. sim.
  (* LTRIM sms_delivery_logs 0 999 *)
  unfold Redis.ltrim, Redis.lookup_live. rewrite lookup_insert_eq.
  cbn [Redis.live expire_at val]. sim. rewrite insert_insert_eq.
  (* LPUSH and EXPIRE on the daily list *)
  unfold Redis.lpush, Redis.lookup_live.
  rewrite lookup_insert_ne, lookup_empty by done. sim.
  unfold Redis.expire, Redis.lookup_live. rewrite lookup_insert_eq.
  cbn [Redis.live expire_at val]. sim. rewrite decide_False by lia. sim.
  cbv beta iota delta [snd db].
  rewrite !lookup_insert_ne by done. rewrite lookup_insert_eq. reflexivity.
  Unshelve. reflexivity.
Qed.

(** The same through [sendSMS], for a recipient in international format. *)
Lemma sendSMS_logs_full_recipient :
  ∃ entry,
    db (SMSService.sendSMS sample_service "+254712345678" "Hello" (Some "u1")
          1700000000000 0%N "2024-01-15T10:30:00.000Z" blank).2
      !! "sms_delivery_logs"
    = Some (mkEntry (Lst [entry]) None)
    ∧ log_to entry = "+254712345678"
    ∧ log_status entry = "success".
Proof. eexists. split; [vm_compute; reflexivity|done]. Qed.

(** ** Retry classification *)

Lemma shouldRetry_false error :
  QueueProcessor.shouldRetry error = false
  ↔ ∃ phrase, phrase ∈ QueueProcessor.nonRetryableErrors
              ∧ includes (error_message error) phrase = true.
Proof.
  unfold QueueProcessor.shouldRetry. rewrite negb_false_iff, existsb_exists.
  split; intros (phrase & Hin & Hinc); exists phrase;
    (split; [by apply list_elem_of_In|done]).
Qed.




(** ** Enqueueing *)

Lemma queue_add_spec name data opts w :
  QueueProcessor.queue_add name data opts w
  = if bool_decide (head (qfaults w) = Some true) then
      (Throw (QueueFailure "Connection is closed."),
       set_qfaults (tail (qfaults w)) w)
    else
      (Return (mkJob (S (length (jobs w))) name data opts),
       set_jobs (jobs w ++ [mkJob (S (length (jobs w))) name data opts])
         (set_qfaults (tail (qfaults w)) w)).
Proof.
  unfold QueueProcessor.queue_add. by destruct (qfaults w) as [|[] fs].
Qed.

Lemma addSMSJob_spec cfg smsData options w :
  QueueProcessor.addSMSJob cfg smsData options w
  = QueueProcessor.queue_add "send-sms" smsData
      (mkJobOptions (QueueProcessor.maxAttempts cfg)
         (QueueProcessor.backoffType cfg) (QueueProcessor.delay cfg) 100 50
         (default 0 (QueueProcessor.priority options))
         (default 0 (QueueProcessor.delay_ms options))
         (QueueProcessor.identifier options)) w.
Proof.
  unfold QueueProcessor.addSMSJob, try_catch, throw.
  by destruct (QueueProcessor.queue_add _ _ _ w) as [[job|e] w1].
Qed.

(** [addBulkSMSJobs] answers with one result per message, in order; the
    result of message [i] is a success exactly when the [i]-th [queue.add]
    of the call did not fail, whatever happened to the others; nothing but
    the queue changes. *)
Lemma addBulkSMSJobs_spec cfg messages options :
  ∀ w, ∃ results w',
    QueueProcessor.addBulkSMSJobs cfg messages options w = (Return results, w')
    ∧ length results = length messages
    ∧ (∀ (i : nat) r, results !! i = Some r →
         messages !! i = Some (QueueProcessor.bulk_smsData r)
         ∧ QueueProcessor.bulk_success r
           = negb (default false (qfaults w !! i))
         ∧ (QueueProcessor.bulk_success r = true →
            ∃ job, job ∈ jobs w'
                   ∧ QueueProcessor.bulk_jobId r = Some (job_id job)
                   ∧ job_data job = QueueProcessor.bulk_smsData r))
    ∧ (∀ job, job ∈ jobs w → job ∈ jobs w')
    ∧ length (jobs w')
      = (length (jobs w)
         + length (filter (λ r, QueueProcessor.bulk_success r = true) results))%nat
    ∧ db w' = db w ∧ outbox w' = outbox w.
Proof.
  induction messages as [|smsData rest IH]; intros w.
  - exists [], w. cbn. split_and!; try done; lia.
  - cbn [QueueProcessor.addBulkSMSJobs]. unfold bind at 1, try_catch.
    unfold bind at 1. rewrite addSMSJob_spec, queue_add_spec.
    case_bool_decide as Hfault.
    + set (w1 := set_qfaults (tail (qfaults w)) w).
      destruct (IH w1) as (results & w' & Hrun & Hlen & Hitem & Hkeep & Hjobs & Hdb & Hout).
      unfold ret at 1. rewrite (bind_Return _ _ _ _ _ Hrun). unfold ret.
      eexists _, w'. split; [done|]. split_and!; try done.
      * cbn. by rewrite Hlen.
      * intros [|i] r; cbn.
        -- intros [= <-]. cbn. split; [done|].
           destruct (qfaults w) as [|[] fs]; try done.
        -- intros Hr. destruct (Hitem i r Hr) as (Hm & Hs & Hj).
           split; [done|]. split; [|done]. rewrite Hs. subst w1. cbn.
           by destruct (qfaults w).
    + set (job := mkJob (S (length (jobs w))) "send-sms" smsData _).
      set (w1 := set_jobs (jobs w ++ [job]) (set_qfaults (tail (qfaults w)) w)).
      destruct (IH w1) as (results & w' & Hrun & Hlen & Hitem & Hkeep & Hjobs & Hdb & Hout).
      unfold ret at 1. cbv beta iota.
      rewrite (bind_Return _ _ _ _ _ Hrun). unfold ret.
      eexists _, w'. split; [done|]. split_and!; try done.
      * cbn. by rewrite Hlen.
      * intros [|i] r; cbn.
        -- intros [= <-]. cbn. split; [done|]. split.
           ++ destruct (qfaults w) as [|[] fs]; try done.
           ++ intros _. exists job. split; [|done]. apply Hkeep.
              subst w1. cbn. apply elem_of_app. right. by left.
        -- intros Hr. destruct (Hitem i r Hr) as (Hm & Hs & Hj).
           split; [done|]. split; [|done]. rewrite Hs. subst w1. cbn.
           by destruct (qfaults w).
      * intros j Hj. apply Hkeep. subst w1. cbn. apply elem_of_app. by left.
      * rewrite filter_cons_True by done. rewrite Hjobs. subst w1. cbn.
        rewrite length_app. cbn. lia.
Qed.

(** C7, as amended.  [addBulkSMSJobs] enqueues each message on its own and
    answers with one result per message: message [i] succeeds exactly when
    its own [queue.add] did not fail, and each success is a job in the
    queue.  The HTTP handler passes the batch on when every item has both
    [to] and [message], and answers with the per-item list; when any item
    lacks one of them it answers 400 for the whole batch and enqueues
    nothing. *)
Theorem bulk_submission_per_item :
  (∀ cfg messages options w,
     ∃ results w',
       QueueProcessor.addBulkSMSJobs cfg messages options w
       = (Return results, w')
       ∧ length results = length messages
       ∧ (∀ (i : nat) r, results !! i = Some r →
            messages !! i = Some (QueueProcessor.bulk_smsData r)
            ∧ QueueProcessor.bulk_success r
              = negb (default false (qfaults w !! i))
            ∧ (QueueProcessor.bulk_success r = true →
               ∃ job, job ∈ jobs w'
                      ∧ QueueProcessor.bulk_jobId r = Some (job_id job)
                      ∧ job_data job = QueueProcessor.bulk_smsData r))
       ∧ length (jobs w')
         = (length (jobs w)
            + length (filter (λ r, QueueProcessor.bulk_success r = true)
                        results))%nat)
  ∧ (∀ cfg body msgs w,
       APIRouter.messages body = Some msgs → msgs ≠ [] →
       Forall (λ msg, data_to msg ≠ "" ∧ data_message msg ≠ "") msgs →
       ∃ results w',
         QueueProcessor.addBulkSMSJobs cfg msgs
           (QueueProcessor.mkOptions
              (Some (default 0 (APIRouter.bulk_priority body))) None
              (Some (or_else (APIRouter.bulk_identifier body) "bulk-api"))) w
         = (Return results, w')
         ∧ APIRouter.sendBulkSMS cfg body w
           = (Return
                (APIRouter.AcceptedBulk (length msgs)
                   (length (filter (λ r, QueueProcessor.bulk_success r = true)
                              results))
                   (length (filter (λ r, QueueProcessor.bulk_success r ≠ true)
                              results))
                   results), w'))
  ∧ (∀ cfg body msgs w,
       APIRouter.messages body = Some msgs →
       Exists (λ msg, data_to msg = "" ∨ data_message msg = "") msgs →
       ∃ error,
         APIRouter.sendBulkSMS cfg body w
         = (Return (APIRouter.BadRequest error), w)).
Proof.
  split_and!.
  - intros cfg messages options w.
    destruct (addBulkSMSJobs_spec cfg messages options w)
      as (results & w' & Hrun & Hlen & Hitem & _ & Hjobs & _).
    by exists results, w'.
  - intros cfg body msgs w Hmsgs Hne Hall.
    edestruct (addBulkSMSJobs_spec cfg msgs) as (results & w' & Hrun & _).
    exists results, w'. split; [exact Hrun|].
    unfold APIRouter.sendBulkSMS, try_catch. rewrite Hmsgs.
    destruct msgs as [|msg rest]; [done|].
    assert (Hex : existsb (λ msg, APIRouter.falsy (data_to msg)
                                  || APIRouter.falsy (data_message msg))
                    (msg :: rest) = false).
    { apply not_true_is_false. intros (m & Hin & Hm)%existsb_exists.
      apply list_elem_of_In in Hin. rewrite Forall_forall in Hall.
      destruct (Hall m Hin) as [Hto Hmessage].
      unfold APIRouter.falsy in Hm.
      apply orb_true_iff in Hm as [Hm|Hm]; by apply bool_decide_eq_true in Hm. }
    rewrite Hex. by rewrite (bind_Return _ _ _ _ _ Hrun).
  - intros cfg body msgs w Hmsgs Hbad.
    unfold APIRouter.sendBulkSMS, try_catch. rewrite Hmsgs.
    destruct msgs as [|msg rest]; [by apply Exists_nil in Hbad|].
    assert (Hex : existsb (λ msg, APIRouter.falsy (data_to msg)
                                  || APIRouter.falsy (data_message msg))
                    (msg :: rest) = true).
    { apply existsb_exists. apply Exists_exists in Hbad as (m & Hin & Hm).
      exists m. split; [by apply list_elem_of_In|].
      unfold APIRouter.falsy. apply orb_true_iff.
      destruct Hm as [Hm|Hm]; [left|right]; by apply bool_decide_eq_true. }
    rewrite Hex. unfold ret. eauto.
Qed.

Lemma bulk_submission_per_item_witness :
  ∃ error,
    APIRouter.sendBulkSMS QueueProcessor.default_retry
      (APIRouter.mkBulkRequest
         (Some [mkSmsData "+254712345678" "Message 1" None None None;
                mkSmsData "+254798765432" "" None None None])
         (Some "bulk-campaign") (Some 2)) blank
    = (Return (APIRouter.BadRequest error), blank).
Proof.
  apply (proj2 (proj2 bulk_submission_per_item) QueueProcessor.default_retry
           _ [mkSmsData "+254712345678" "Message 1" None None None;
              mkSmsData "+254798765432" "" None None None] blank).
  - reflexivity.
  - apply Exists_cons_tl, Exists_cons_hd. right. reflexivity.
Defined.

(** C7, as stated, fails at the HTTP handler: one item without a message
    makes the handler answer 400 for the batch and the valid item is not
    enqueued; and an item with a malformed recipient is enqueued like the
    others and reported as a success. *)
Lemma invalid_item_fails_whole_batch :
  let valid := mkSmsData "+254712345678" "Message 1" None None None in
  let no_message := mkSmsData "+254798765432" "" None None None in
  let malformed := mkSmsData "0798765432" "Message 2" None None None in
  APIRouter.sendBulkSMS QueueProcessor.default_retry
    (APIRouter.mkBulkRequest (Some [valid; no_message])
       (Some "bulk-campaign") (Some 2)) blank
  = (Return (APIRouter.BadRequest
               "Each message must contain to and message fields"), blank)
  ∧ ∃ results w',
      APIRouter.sendBulkSMS QueueProcessor.default_retry
        (APIRouter.mkBulkRequest (Some [valid; malformed])
           (Some "bulk-campaign") (Some 2)) blank
      = (Return (APIRouter.AcceptedBulk 2 2 0 results), w')
      ∧ length (jobs w') = 2%nat.
Proof.
  intros valid no_message malformed. split; [vm_compute; reflexivity|].
  eexists _, _. split; [vm_compute; reflexivity|]. reflexivity.
Qed.

(** ** Admission against enqueueing *)

(** C2, as amended.  The HTTP handler hands every request that has both
    [to] and [message] to the queue without consulting the rate limiter:
    the store of the limiter and the gateway are left as they are; when
    [queue.add] succeeds the request is a job of the queue, and when it
    fails nothing is queued.  The limiter is consulted when the worker
    processes the job: the processor leaves the world as [sendSMS] on the
    data of the job leaves it.  A request whose identifier the limiter
    rejects is not handed to the gateway; [sendSMS] rejects it with an
    error that tells the seconds the block has left, and that error is
    not retryable. *)
Theorem admission_checked_by_worker :
  (∀ cfg body w,
     data_to body ≠ "" → data_message body ≠ "" →
     let w' := (APIRouter.sendSMS cfg body w).2 in
     db w' = db w ∧ outbox w' = outbox w
     ∧ (head (qfaults w) ≠ Some true →
        ∃ job,
          jobs w' = jobs w ++ [job]
          ∧ data_to (job_data job) = data_to body
          ∧ data_message (job_data job) = data_message body
          ∧ data_identifier (job_data job)
            = Some (or_else (data_identifier body) "api"))
     ∧ (head (qfaults w) = Some true → jobs w' = jobs w))
  ∧ (∀ svc job now rnd iso w,
       (QueueProcessor.processSMSJob svc job now rnd iso w).2
       = (SMSService.sendSMS svc (data_to (job_data job))
            (data_message (job_data job)) (data_identifier (job_data job))
            now rnd iso w).2)
  ∧ (∀ svc to message identifier now rnd iso w d w1,
       RateLimiter.isAllowed (SMSService.rateLimiter svc)
         (default "default" identifier) now rnd w = (Return d, w1) →
       RateLimiter.allowed d = false →
       (SMSService.sendSMS svc to message identifier now rnd iso w).1
       = Throw (RateLimitError (SMSService.blocked_seconds d))
       ∧ outbox (SMSService.sendSMS svc to message identifier now rnd iso w).2
         = outbox w
       ∧ error_message (RateLimitError (SMSService.blocked_seconds d))
         = "Rate limit exceeded. Blocked for "
           +:+ SMSService.blocked_seconds d +:+ " seconds"
       ∧ QueueProcessor.shouldRetry
           (RateLimitError (SMSService.blocked_seconds d)) = false).
Proof.
  split_and!.
  - intros cfg body w Hto Hmessage.
    unfold APIRouter.sendSMS, try_catch, APIRouter.falsy.
    rewrite !bool_decide_false by done. cbn [orb].
    unfold bind. rewrite addSMSJob_spec, queue_add_spec.
    destruct (bool_decide (head (qfaults w) = Some true)) eqn:Hfault.
    + apply bool_decide_eq_true in Hfault. unfold ret. cbn.
      split_and!; [done|done|done|done].
    + apply bool_decide_eq_false in Hfault.
      unfold QueueProcessor.getQueuePosition, throw, ret. cbn.
      split_and!; [done|done| |done].
      intros _. eexists. split; [reflexivity|]. done.
  - intros svc job now rnd iso w.
    unfold QueueProcessor.processSMSJob, try_catch, bind,
      QueueProcessor.updateProgress, QueueProcessor.addResult, ret, throw.
    by destruct (SMSService.sendSMS svc _ _ _ now rnd iso w) as [[res|e] w1].
  - intros svc to message identifier now rnd iso w d w1 Hd Ha.
    assert (Hi : initialized w = true).
    { destruct (initialized w) eqn:Hi; [done|].
      by rewrite (isAllowed_not_initialized _ _ _ _ _ Hi) in Hd. }
    destruct (sendSMS_outcome svc to message identifier now rnd iso w Hi)
      as (d' & w1' & Hd' & Hout).
    rewrite Hd in Hd'. injection Hd' as <- <-. cbv zeta in Hout.
    rewrite Ha in Hout. cbn [negb] in Hout. destruct Hout as [Hr Ho].
    split_and!; [done|done|done|].
    apply shouldRetry_false. exists "Rate limit exceeded".
    split; [set_solver|reflexivity].
Qed.

Lemma admission_checked_by_worker_witness :
  ∃ job,
    jobs (APIRouter.sendSMS QueueProcessor.default_retry
            (mkSmsData "+254712345678" "Hello" (Some "u1") None None) blank).2
    = jobs blank ++ [job]
    ∧ data_identifier (job_data job) = Some "u1".
Proof.
  destruct (proj1 admission_checked_by_worker QueueProcessor.default_retry
              (mkSmsData "+254712345678" "Hello" (Some "u1") None None) blank)
    as (_ & _ & Hqueued & _); [done|done|].
  destruct Hqueued as (job & Hjobs & _ & _ & Hid); [done|].
  exists job. split; [exact Hjobs|exact Hid].
Defined.

(** C2, as stated, fails: after a burst has blocked identifier "u1", a
    request for "u1" that the limiter would reject is still handed to the
    queue by the handler and becomes job 1, and the limiter is left as it
    was. *)
Lemma rate_limited_request_is_enqueued :
  let w := (isAllowed_each RateLimiter.default "u1"
              (burst 1700000000000 30 ++ [(1700000000900, 30%N)]) blank).2 in
  let body := mkSmsData "+254712345678" "Hello" (Some "u1") None None in
  rejected_blocked
    (RateLimiter.isAllowed RateLimiter.default "u1" 1700000001000 31%N w).1
  ∧ db (APIRouter.sendSMS QueueProcessor.default_retry body w).2 = db w
  ∧ ∃ job,
      jobs (APIRouter.sendSMS QueueProcessor.default_retry body w).2 = [job]
      ∧ job_id job = 1%nat
      ∧ data_to (job_data job) = "+254712345678"
      ∧ data_identifier (job_data job) = Some "u1".
Proof.
  intros w body. split_and!.
  - eexists. split; [vm_compute; reflexivity|]. done.
  - vm_compute. reflexivity.
  - eexists. split; [vm_compute; reflexivity|]. done.
Qed.

(** ** The keys a computation touches *)

Lemma touches_ret {A} ks (a : A) : touches ks (ret a).
Proof. by intros w r w' k [= <- <-]. Qed.

Lemma touches_throw {A} ks e : touches ks (@throw A e).
Proof. by intros w r w' k [= <- <-]. Qed.

Lemma touches_getClient ks : touches ks Redis.getClient.
Proof.
  intros w r w' k. unfold Redis.getClient.
  destruct (initialized w); by intros [= <- <-].
Qed.

Lemma touches_command {A} ks
    (op : gmap string entry → Error + A * gmap string entry) :
  op_touches ks op → touches ks (Redis.command op).
Proof.
  intros Hop w r w' k Hrun Hk.
  destruct (command_inv _ _ _ _ Hrun) as [(e & _ & ->)|(a & _ & Ha)]; [done|].
  by eapply Hop.
Qed.

Lemma touches_bind {A B} ks (m : Cmd A) (f : A → Cmd B) :
  touches ks m → (∀ a, touches ks (f a)) → touches ks (bind m f).
Proof.
  intros Hm Hf w r w' k. unfold bind.
  destruct (m w) as [[a|e] w1] eqn:Hmw.
  - intros Hfa Hk. rewrite (Hf _ _ _ _ _ Hfa Hk). by eapply Hm.
  - intros [= <- <-] Hk. by eapply Hm.
Qed.

Lemma touches_try_catch {A} ks (m : Cmd A) (h : Error → Cmd A) :
  touches ks m → (∀ e, touches ks (h e)) → touches ks (try_catch m h).
Proof.
  intros Hm Hh w r w' k. unfold try_catch.
  destruct (m w) as [[a|e] w1] eqn:Hmw.
  - intros [= <- <-] Hk. by eapply Hm.
  - intros Hhe Hk. rewrite (Hh _ _ _ _ _ Hhe Hk). by eapply Hm.
Qed.

Lemma op_touches_ttl ks now k : op_touches ks (Redis.ttl now k).
Proof. intros d a d' k' H _. by rewrite (ttl_db _ _ _ _ _ H). Qed.

Lemma op_touches_zcard ks now k : op_touches ks (Redis.zcard now k).
Proof. intros d a d' k' H _. by rewrite (zcard_db _ _ _ _ _ H). Qed.

Lemma op_touches_zremrangebyscore ks now k lo hi :
  k ∈ ks → op_touches ks (Redis.zremrangebyscore now k lo hi).
Proof.
  intros Hin d a d' k' H Hk. assert (k' ≠ k) by (by intros ->).
  revert H. unfold Redis.zremrangebyscore.
  destruct (Redis.lookup_live now k d) as [e|]; [|by intros [= _ <-]].
  destruct (val e); try done. case_decide; intros [= _ <-].
  - by rewrite lookup_delete_ne.
  - by rewrite lookup_insert_ne.
Qed.

Lemma op_touches_zrange_first ks now k : op_touches ks (Redis.zrange_first now k).
Proof.
  intros d a d' k' H _. revert H. unfold Redis.zrange_first.
  destruct (Redis.lookup_live now k d) as [e|]; [|by intros [= _ <-]].
  destruct (val e); try done. by intros [= _ <-].
Qed.

Lemma op_touches_setex ks now k seconds v :
  k ∈ ks → op_touches ks (Redis.setex now k seconds v).
Proof.
  intros Hin d a d' k' H Hk. assert (k' ≠ k) by (by intros ->).
  revert H. unfold Redis.setex. case_decide; [done|]. intros [= _ <-].
  by rewrite lookup_insert_ne.
Qed.

Lemma op_touches_zadd ks now k score m :
  k ∈ ks → op_touches ks (Redis.zadd now k score m).
Proof.
  intros Hin d a d' k' H Hk. assert (k' ≠ k) by (by intros ->).
  revert H. unfold Redis.zadd.
  destruct (Redis.lookup_live now k d) as [e|].
  - destruct (val e); try done. intros [= _ <-]. by rewrite lookup_insert_ne.
  - intros [= _ <-]. by rewrite lookup_insert_ne.
Qed.

Lemma op_touches_expire ks now k seconds :
  k ∈ ks → op_touches ks (Redis.expire now k seconds).
Proof.
  intros Hin d a d' k' H Hk. assert (k' ≠ k) by (by intros ->).
  revert H. unfold Redis.expire.
  destruct (Redis.lookup_live now k d) as [e|]; [|by intros [= _ <-]].
  case_decide; intros [= _ <-].
  - by rewrite lookup_delete_ne.
  - by rewrite lookup_insert_ne.
Qed.

Lemma op_touches_del ks now k1 k2 :
  k1 ∈ ks → k2 ∈ ks → op_touches ks (Redis.del now k1 k2).
Proof.
  intros Hin1 Hin2 d a d' k' H Hk.
  assert (k' ≠ k1) by (by intros ->). assert (k' ≠ k2) by (by intros ->).
  revert H. unfold Redis.del. intros [= _ <-].
  by rewrite !lookup_delete_ne.
Qed.

Lemma op_touches_lpush ks now k x :
  k ∈ ks → op_touches ks (Redis.lpush now k x).
Proof.
  intros Hin d a d' k' H Hk. assert (k' ≠ k) by (by intros ->).
  revert H. unfold Redis.lpush.
  destruct (Redis.lookup_live now k d) as [e|].
  - destruct (val e); try done. intros [= _ <-]. by rewrite lookup_insert_ne.
  - intros [= _ <-]. by rewrite lookup_insert_ne.
Qed.

Lemma op_touches_ltrim ks now k stop :
  k ∈ ks → op_touches ks (Redis.ltrim now k stop).
Proof.
  intros Hin d a d' k' H Hk. assert (k' ≠ k) by (by intros ->).
  revert H. unfold Redis.ltrim.
  destruct (Redis.lookup_live now k d) as [e|]; [|by intros [= _ <-]].
  destruct (val e); try done. intros [= _ <-]. by rewrite lookup_insert_ne.
Qed.

Lemma op_touches_lrange ks now k start stop :
  op_touches ks (Redis.lrange now k start stop).
Proof.
  intros d a d' k' H _. revert H. unfold Redis.lrange.
  destruct (Redis.lookup_live now k d) as [e|]; [|by intros [= _ <-]].
  destruct (val e); try done. cbv zeta. case_decide; by intros [= _ <-].
Qed.

Ltac touches_tac :=
  repeat first
    [ apply touches_ret | apply touches_throw | apply touches_getClient
    | apply touches_bind; [|intros ?]
    | apply touches_try_catch; [|intros ?]
    | apply touches_command
    | apply op_touches_ttl | apply op_touches_zcard
    | apply op_touches_zrange_first | apply op_touches_lrange
    | apply op_touches_zremrangebyscore | apply op_touches_setex
    | apply op_touches_zadd | apply op_touches_expire
    | apply op_touches_del | apply op_touches_lpush | apply op_touches_ltrim
    | case_decide
    | set_solver ].

Lemma touches_isAllowed rl identifier now rnd :
  touches (limiter_keys identifier) (RateLimiter.isAllowed rl identifier now rnd).
Proof.
  unfold RateLimiter.isAllowed, RateLimiter.isAllowed_try, limiter_keys.
  touches_tac.
Qed.

Lemma touches_getStatus rl identifier now :
  touches (limiter_keys identifier) (RateLimiter.getStatus rl identifier now).
Proof.
  unfold RateLimiter.getStatus, RateLimiter.getStatus_try, limiter_keys.
  touches_tac.
Qed.

Lemma touches_reset identifier now :
  touches (limiter_keys identifier) (RateLimiter.reset identifier now).
Proof. unfold RateLimiter.reset, limiter_keys. touches_tac. Qed.

Lemma touches_logSMSDelivery to message status apiResponse error now iso :
  touches (log_keys iso)
    (SMSService.logSMSDelivery to message status apiResponse error now iso).
Proof. unfold SMSService.logSMSDelivery, log_keys. touches_tac. Qed.

Lemma key_inj identifier identifier' :
  RateLimiter.key identifier = RateLimiter.key identifier' →
  identifier = identifier'.
Proof. unfold RateLimiter.key. cbv [append]. congruence. Qed.

Lemma blockKey_inj identifier identifier' :
  RateLimiter.blockKey identifier = RateLimiter.blockKey identifier' →
  identifier = identifier'.
Proof. unfold RateLimiter.blockKey. cbv [append]. congruence. Qed.

Lemma limiter_keys_disjoint identifier identifier' k :
  identifier' ≠ identifier →
  k ∈ limiter_keys identifier' → k ∉ limiter_keys identifier.
Proof.
  intros Hne Hin Hin'. unfold limiter_keys in *.
  apply elem_of_cons in Hin as [->|Hin]; apply elem_of_cons in Hin' as [Heq|Hin'].
  - by apply key_inj in Heq.
  - apply list_elem_of_singleton in Hin'. by eapply keys_differ.
  - apply list_elem_of_singleton in Hin. subst k. symmetry in Heq. by eapply keys_differ.
  - apply list_elem_of_singleton in Hin, Hin'. subst k. by apply blockKey_inj in Hin'.
Qed.

Lemma events_ext identifier now d1 d2 :
  d1 !! RateLimiter.key identifier = d2 !! RateLimiter.key identifier →
  events identifier now d1 = events identifier now d2.
Proof. intros H. unfold events, Redis.lookup_live. by rewrite H. Qed.


(** X1.  Calls for one identifier never change what the limiter stores
    for another: after [isAllowed], [getStatus] or [reset] on [identifier],
    the events key and the block key of any other identifier hold what they
    held before, so its stored events and the reply of [TTL] on its block
    are the same at every time. *)
Theorem limiter_calls_isolated rl identifier identifier' now rnd w :
  identifier' ≠ identifier →
  let unchanged (w' : World) :=
    db w' !! RateLimiter.key identifier' = db w !! RateLimiter.key identifier'
    ∧ db w' !! RateLimiter.blockKey identifier'
      = db w !! RateLimiter.blockKey identifier'
    ∧ ∀ t, events identifier' t (db w') = events identifier' t (db w)
           ∧ block_seconds identifier' t (db w')
             = block_seconds identifier' t (db w) in
  unchanged (RateLimiter.isAllowed rl identifier now rnd w).2
  ∧ unchanged (RateLimiter.getStatus rl identifier now w).2
  ∧ unchanged (RateLimiter.reset identifier now w).2.
Proof.
  intros Hne unchanged.
  assert (Hframe : ∀ w', (∀ k, k ∉ limiter_keys identifier → db w' !! k = db w !! k) →
                         unchanged w').
  { intros w' Hw'.
    assert (Hk : db w' !! RateLimiter.key identifier'
                 = db w !! RateLimiter.key identifier').
    { apply Hw', (limiter_keys_disjoint _ identifier' _ Hne).
      unfold limiter_keys. by constructor. }
    assert (Hb : db w' !! RateLimiter.blockKey identifier'
                 = db w !! RateLimiter.blockKey identifier').
    { apply Hw', (limiter_keys_disjoint _ identifier' _ Hne).
      unfold limiter_keys. by do 2 constructor. }
    split_and!; try done. intros t. split.
    - by apply events_ext.
    - by apply block_seconds_ext. }
  split_and!; apply Hframe; intros k Hk.
  - eapply touches_isAllowed; [|done]. apply surjective_pairing.
  - eapply touches_getStatus; [|done]. apply surjective_pairing.
  - eapply touches_reset; [|done]. apply surjective_pairing.
Qed.

Lemma limiter_calls_isolated_witness :
  let w := (isAllowed_each RateLimiter.default "u2"
              (burst 1700000000000 3) blank).2 in
  events "u2" 1700000000500
    (db (RateLimiter.isAllowed RateLimiter.default "u1" 1700000000500 9%N w).2)
  = events "u2" 1700000000500 (db w).
Proof.
  intros w.
  refine (proj1 (proj2 (proj2 (proj1
    (limiter_calls_isolated RateLimiter.default "u1" "u2" 1700000000500 9%N w _)))
    1700000000500)).
  discriminate.
Defined.

(** ** Store invariants of [isAllowed] *)

Lemma triple_ret {A} P (a : A) (Q : A → gmap string entry → Prop) E :
  (∀ d, P d → Q a d) → triple P (ret a) Q E.
Proof. intros H w r w' [= <- <-]. apply H. Qed.

Lemma triple_throw {A} P e (Q : A → gmap string entry → Prop) (E : gmap string entry → Prop) :
  (∀ d, P d → E d) → triple P (@throw A e) Q E.
Proof. intros H w r w' [= <- <-]. apply H. Qed.

Lemma triple_getClient P (Q : unit → gmap string entry → Prop) (E : gmap string entry → Prop) :
  (∀ d, P d → Q () d) → (∀ d, P d → E d) → triple P Redis.getClient Q E.
Proof.
  intros HQ HE w r w'. unfold Redis.getClient.
  destruct (initialized w); intros [= <- <-]; [apply HQ|apply HE].
Qed.

Lemma triple_command {A} P
    (op : gmap string entry → Error + A * gmap string entry)
    (Q : A → gmap string entry → Prop) (E : gmap string entry → Prop) :
  (∀ d, P d → E d) →
  (∀ d a d', P d → op d = inr (a, d') → Q a d') →
  triple P (Redis.command op) Q E.
Proof.
  intros HE HQ w r w' Hrun HP.
  destruct (command_inv _ _ _ _ Hrun) as [(e & -> & ->)|(a & -> & Ha)].
  - by apply HE.
  - by eapply HQ.
Qed.

Lemma triple_bind {A B} P (m : Cmd A) (f : A → Cmd B) R Q E :
  triple P m R E → (∀ a, triple (R a) (f a) Q E) → triple P (bind m f) Q E.
Proof.
  intros Hm Hf w r w'. unfold bind.
  destruct (m w) as [[a|e] w1] eqn:Hmw.
  - intros Hfa HP. eapply Hf; [exact Hfa|]. by apply (Hm _ _ _ Hmw).
  - intros [= <- <-] HP. by apply (Hm _ _ _ Hmw).
Qed.

Lemma triple_try_catch {A} P (m : Cmd A) (h : Error → Cmd A) Q R E :
  triple P m Q R → (∀ e, triple R (h e) Q E) → triple P (try_catch m h) Q E.
Proof.
  intros Hm Hh w r w'. unfold try_catch.
  destruct (m w) as [[a|e] w1] eqn:Hmw.
  - intros [= <- <-] HP. by apply (Hm _ _ _ Hmw).
  - intros Hhe HP. eapply Hh; [exact Hhe|]. by apply (Hm _ _ _ Hmw).
Qed.

(** A property of the store that each command of [isAllowed] keeps is
    kept by [isAllowed], whatever the schedule of connection failures. *)
Lemma isAllowed_keeps rl identifier now rnd (I : gmap string entry → Prop) :
  (∀ d n d1, I d →
     Redis.zremrangebyscore now (RateLimiter.key identifier) 0
       (now - RateLimiter.windowMs rl) d = inr (n, d1) → I d1) →
  (∀ d d1, I d →
     Redis.setex now (RateLimiter.blockKey identifier)
       (ceil_div (RateLimiter.blockDurationMs rl) 1000) "1" d = inr ((), d1) →
     I d1) →
  (∀ d c d1, I d →
     Redis.zcard now (RateLimiter.key identifier) d = inr (c, d) →
     c < RateLimiter.maxRequests rl →
     Redis.zadd now (RateLimiter.key identifier) now (now, rnd) d = inr ((), d1) →
     I d1) →
  (∀ d n d1, I d →
     Redis.expire now (RateLimiter.key identifier)
       (ceil_div (RateLimiter.windowMs rl) 1000) d = inr (n, d1) → I d1) →
  ∀ w, I (db w) → I (db (RateLimiter.isAllowed rl identifier now rnd w).2).
Proof.
  intros Hprune Hsetex Hzadd Hexpire.
  assert (Ht : triple I (RateLimiter.isAllowed rl identifier now rnd) (λ _, I) I).
  { unfold RateLimiter.isAllowed, RateLimiter.isAllowed_try.
    eapply (triple_bind _ _ _ (λ _, I)); [by apply triple_getClient|intros []].
    eapply (triple_try_catch _ _ _ _ I); [|intros e; by apply triple_ret].
    eapply (triple_bind _ _ _ (λ _, I)).
    { apply triple_command; [done|]. intros d a d' HI Hop.
      by rewrite (ttl_db _ _ _ _ _ Hop). }
    intros seconds. case_decide as Hdec; [by apply triple_ret|].
    eapply (triple_bind _ _ _ (λ _, I)).
    { apply triple_command; [done|]. intros d a d' HI Hop. by eapply Hprune. }
    intros _.
    eapply (triple_bind _ _ _
      (λ c d, I d ∧ Redis.zcard now (RateLimiter.key identifier) d = inr (c, d))).
    { apply triple_command; [done|]. intros d a d' HI Hop.
      pose proof (zcard_db _ _ _ _ _ Hop). by subst d'. }
    intros c. case_decide as Hfull.
    - eapply (triple_bind _ _ _ (λ _, I)).
      { apply triple_command; [tauto|]. intros d [] d' [HI _] Hop.
        by eapply Hsetex. }
      intros _. eapply (triple_bind _ _ _ (λ _, I)).
      { apply triple_command; [done|]. intros d a d' HI Hop.
        revert Hop. unfold Redis.zrange_first.
        destruct (Redis.lookup_live _ _ d) as [e|]; [|by intros [= _ <-]].
        destruct (val e); try done. by intros [= _ <-]. }
      intros oldest. by apply triple_ret.
    - eapply (triple_bind _ _ _ (λ _, I)).
      { apply triple_command; [tauto|]. intros d [] d' [HI Hc] Hop.
        eapply Hzadd; [exact HI|exact Hc|lia|exact Hop]. }
      intros _. eapply (triple_bind _ _ _ (λ _, I)).
      { apply triple_command; [done|]. intros d a d' HI Hop.
        by eapply Hexpire. }
      intros _. by apply triple_ret. }
  intros w HI.
  destruct (RateLimiter.isAllowed rl identifier now rnd w) as [r w'] eqn:Hrun.
  pose proof (Ht _ _ _ Hrun HI) as H. cbn. by destruct r.
Qed.

Lemma typed_key_ext identifier d d' :
  d' !! RateLimiter.key identifier = d !! RateLimiter.key identifier →
  typed_key identifier d → typed_key identifier d'.
Proof. intros Heq H e. rewrite Heq. apply H. Qed.


Lemma isAllowed_typed rl identifier now rnd w :
  typed_key identifier (db w) →
  typed_key identifier (db (RateLimiter.isAllowed rl identifier now rnd w).2).
Proof.
  apply isAllowed_keeps.
  - intros d n d1 Hty Hop.
    destruct (prune_spec identifier now 0 (now - RateLimiter.windowMs rl) d Hty)
      as (n' & d1' & Hrem & _ & _ & _ & Hty1).
    rewrite Hrem in Hop. by injection Hop as _ <-.
  - intros d d1 Hty. unfold Redis.setex. case_decide; [done|]. intros [= <-].
    eapply typed_key_ext; [|done]. rewrite lookup_insert_ne; [done|].
    intros Heq. symmetry in Heq. by eapply keys_differ.
  - intros d c d1 Hty _ _. unfold Redis.zadd.
    destruct (Redis.lookup_live _ _ d) as [e|].
    + destruct (val e); try done. intros [= <-] e'. rewrite lookup_insert_eq.
      intros [= <-]. cbn. eauto.
    + intros [= <-] e'. rewrite lookup_insert_eq. intros [= <-]. cbn. eauto.
  - intros d n d1 Hty. unfold Redis.expire.
    destruct (Redis.lookup_live _ _ d) as [e|] eqn:Hl; [|by intros [= _ <-]].
    apply lookup_live_Some in Hl as [Hd _].
    case_decide; intros [= _ <-] e'.
    + by rewrite lookup_delete_eq.
    + rewrite lookup_insert_eq. intros [= <-]. cbn. by eapply Hty.
Qed.

Lemma stored_limit_prune rl identifier now lo hi d n d1 :
  stored_limit rl identifier d →
  Redis.zremrangebyscore now (RateLimiter.key identifier) lo hi d = inr (n, d1) →
  stored_limit rl identifier d1.
Proof.
  intros HI. unfold Redis.zremrangebyscore. cbv zeta.
  destruct (Redis.lookup_live now (RateLimiter.key identifier) d) as [e|] eqn:Hl;
    [|by intros [= _ <-]].
  destruct (val e) as [s|z|l] eqn:Hval; try done.
  apply lookup_live_Some in Hl as [Hd _].
  case_decide; intros [= _ <-] e' z'.
  - by rewrite lookup_delete_eq.
  - rewrite lookup_insert_eq. intros [= <-]. cbn. intros [= <-].
    pose proof (HI e z Hd Hval).
    pose proof (map_filter_subseteq
      (λ p : member * Z, ¬ Redis.in_range lo hi p) z) as Hsub.
    apply map_subseteq_size in Hsub. lia.
Qed.

Lemma stored_limit_zadd rl identifier now c m d d1 d2 :
  stored_limit rl identifier d →
  Redis.zcard now (RateLimiter.key identifier) d = inr (c, d1) →
  c < RateLimiter.maxRequests rl →
  Redis.zadd now (RateLimiter.key identifier) now m d = inr ((), d2) →
  stored_limit rl identifier d2.
Proof.
  intros HI. unfold Redis.zcard, Redis.zadd.
  destruct (Redis.lookup_live now (RateLimiter.key identifier) d) as [e|] eqn:Hl.
  - destruct (val e) as [s|z|l] eqn:Hval; try done.
    intros [= <- _] Hc [= <-] e' z'. rewrite lookup_insert_eq.
    intros [= <-]. cbn. intros [= <-].
    destruct (z !! m) as [sc|] eqn:Hm.
    + rewrite map_size_insert_Some by eauto. lia.
    + rewrite map_size_insert_None by done. lia.
  - intros [= <- _] Hc [= <-] e' z'. rewrite lookup_insert_eq.
    intros [= <-]. cbn. intros [= <-]. rewrite map_size_singleton. lia.
Qed.

Lemma stored_limit_expire rl identifier now seconds d n d1 :
  stored_limit rl identifier d →
  Redis.expire now (RateLimiter.key identifier) seconds d = inr (n, d1) →
  stored_limit rl identifier d1.
Proof.
  intros HI. unfold Redis.expire.
  destruct (Redis.lookup_live now (RateLimiter.key identifier) d) as [e|] eqn:Hl;
    [|by intros [= _ <-]].
  apply lookup_live_Some in Hl as [Hd _].
  case_decide; intros [= _ <-] e' z'.
  - by rewrite lookup_delete_eq.
  - rewrite lookup_insert_eq. intros [= <-]. cbn. by apply HI.
Qed.

Lemma stored_limit_setex rl identifier now seconds v d d1 :
  stored_limit rl identifier d →
  Redis.setex now (RateLimiter.blockKey identifier) seconds v d = inr ((), d1) →
  stored_limit rl identifier d1.
Proof.
  intros HI. unfold Redis.setex. case_decide; [done|]. intros [= <-] e z.
  rewrite lookup_insert_ne; [apply HI|].
  intros Heq. symmetry in Heq. by eapply keys_differ.
Qed.

Lemma isAllowed_stored_limit rl identifier now rnd w :
  stored_limit rl identifier (db w) →
  stored_limit rl identifier (db (RateLimiter.isAllowed rl identifier now rnd w).2).
Proof.
  apply isAllowed_keeps.
  - intros d n d1 HI Hop. by eapply stored_limit_prune.
  - intros d d1 HI Hop. by eapply stored_limit_setex.
  - intros d c d1 HI Hc Hlt Hop. by eapply stored_limit_zadd.
  - intros d n d1 HI Hop. by eapply stored_limit_expire.
Qed.

Lemma within_limit_stored rl identifier d :
  within_limit rl identifier d
  ↔ 0 ≤ RateLimiter.maxRequests rl ∧ stored_limit rl identifier d.
Proof.
  split.
  - intros H. split.
    + destruct (d !! RateLimiter.key identifier) as [e|] eqn:Hd.
      * pose proof (H 0). lia.
      * pose proof (H 0) as H0. unfold events, Redis.lookup_live in H0.
        rewrite Hd in H0. by rewrite map_size_empty in H0.
    + intros e z Hd Hval.
      pose proof (H (default 0 (expire_at e))) as Ht.
      unfold events, Redis.lookup_live, Redis.live in Ht. rewrite Hd in Ht.
      destruct (expire_at e) as [x|]; cbn in Ht.
      * rewrite bool_decide_true in Ht by lia. by rewrite Hval in Ht.
      * by rewrite Hval in Ht.
  - intros [Hmax HI] t. unfold events.
    destruct (Redis.lookup_live t (RateLimiter.key identifier) d) as [e|] eqn:Hl;
      [|by rewrite map_size_empty].
    apply lookup_live_Some in Hl as [Hd _].
    destruct (val e) as [s|z|l] eqn:Hval; try (by rewrite map_size_empty).
    by eapply HI.
Qed.

(** X2.  The limiter never stores more than [maxRequests] events for an
    identifier: if no reader at any time sees more than [maxRequests]
    stored events, the same holds after any sequence of [isAllowed] calls,
    made at any times and under any schedule of connection failures. *)
Theorem stored_events_never_exceed_limit rl identifier calls w :
  within_limit rl identifier (db w) →
  within_limit rl identifier (db (isAllowed_each rl identifier calls w).2).
Proof.
  rewrite !within_limit_stored. intros [Hmax HI]. split; [done|].
  revert w HI. induction calls as [|[now rnd] calls IH]; intros w HI; [done|].
  cbn [isAllowed_each]. unfold bind.
  pose proof (isAllowed_stored_limit rl identifier now rnd w HI) as H1.
  destruct (RateLimiter.isAllowed rl identifier now rnd w) as [[d|e] w1];
    [|exact H1].
  cbn in H1. specialize (IH w1 H1).
  destruct (isAllowed_each rl identifier calls w1) as [[ds|e] w2]; exact IH.
Qed.

Lemma stored_events_never_exceed_limit_witness :
  Z.of_nat
    (size (events "u1" 1700000002000
             (db (isAllowed_each RateLimiter.default "u1"
                    (burst 1700000000000 40) blank).2)))
  ≤ 30.
Proof.
  refine (stored_events_never_exceed_limit RateLimiter.default "u1"
            (burst 1700000000000 40) blank _ 1700000002000).
  intros t. vm_compute. discriminate.
Defined.

(** ** [reset] *)

Lemma reset_run identifier now w :
  initialized w = true → faults w = [] →
  RateLimiter.reset identifier now w
  = (Return true,
     set_db (delete (RateLimiter.blockKey identifier)
               (delete (RateLimiter.key identifier) (db w))) w).
Proof.
  destruct w as [i f d o j q]. cbn. intros -> ->.
  unfold RateLimiter.reset, bind, try_catch, ret, Redis.getClient,
    Redis.command, Redis.exec, Redis.del. by sim.
Qed.

Lemma events_absent identifier now d :
  d !! RateLimiter.key identifier = None → events identifier now d = ∅.
Proof. intros H. apply events_dead. unfold Redis.lookup_live. by rewrite H. Qed.

Lemma block_seconds_absent identifier now d :
  d !! RateLimiter.blockKey identifier = None →
  block_seconds identifier now d = -2.
Proof.
  intros H. unfold block_seconds, Redis.ttl, Redis.lookup_live. by rewrite H.
Qed.

Lemma isAllowed_no_history rl identifier now rnd w :
  initialized w = true → faults w = [] →
  db w !! RateLimiter.key identifier = None →
  db w !! RateLimiter.blockKey identifier = None →
  0 < RateLimiter.maxRequests rl →
  (RateLimiter.isAllowed rl identifier now rnd w).1
  = Return (RateLimiter.mkDecision true (RateLimiter.maxRequests rl - 1)
              (now + RateLimiter.windowMs rl) false None).
Proof.
  destruct w as [i f d o j q]. cbn. intros -> -> Hk Hb Hmax. run_limiter.
  rewrite block_seconds_ttl, (block_seconds_absent _ _ _ Hb). sim.
  rewrite decide_False by lia.
  unfold Redis.zremrangebyscore, Redis.zcard, Redis.zadd, Redis.expire.
  unfold Redis.lookup_live at 1. rewrite Hk. sim.
  unfold Redis.lookup_live at 1. rewrite Hk. sim.
  rewrite decide_False by lia.
  unfold Redis.lookup_live at 1. rewrite Hk. sim.
  unfold Redis.lookup_live at 1. rewrite lookup_insert_eq. cbn.
  case_decide; cbn; do 2 f_equal; lia.
Qed.

Lemma getStatus_no_history rl identifier now w :
  initialized w = true → faults w = [] →
  db w !! RateLimiter.key identifier = None →
  db w !! RateLimiter.blockKey identifier = None →
  0 < RateLimiter.maxRequests rl →
  (RateLimiter.getStatus rl identifier now w).1
  = Return (RateLimiter.mkDecision true (RateLimiter.maxRequests rl)
              (now + RateLimiter.windowMs rl) false None).
Proof.
  destruct w as [i f d o j q]. cbn. intros -> -> Hk Hb Hmax. run_limiter.
  rewrite block_seconds_ttl, (block_seconds_absent _ _ _ Hb). sim.
  rewrite decide_False by lia.
  unfold Redis.zremrangebyscore, Redis.zcard.
  unfold Redis.lookup_live at 1. rewrite Hk. sim.
  unfold Redis.lookup_live at 1. rewrite Hk. sim. cbn.
  rewrite Z.sub_0_r, Z.max_r by lia. by rewrite bool_decide_true by lia.
Qed.

(** X3.  On a store that answers, [reset] returns true and leaves no
    history for the identifier: no stored event, no block, every other key
    as it was; with [maxRequests > 0] the next [isAllowed] admits with
    [remaining = maxRequests - 1] and [getStatus] reports
    [remaining = maxRequests], as on a store that never saw the
    identifier. *)
Theorem reset_forgets_history rl identifier now w :
  initialized w = true → faults w = [] → 0 < RateLimiter.maxRequests rl →
  let w' := (RateLimiter.reset identifier now w).2 in
  (RateLimiter.reset identifier now w).1 = Return true
  ∧ (∀ t, events identifier t (db w') = ∅
          ∧ block_seconds identifier t (db w') = -2)
  ∧ (∀ k, k ≠ RateLimiter.key identifier → k ≠ RateLimiter.blockKey identifier →
          db w' !! k = db w !! k)
  ∧ (∀ t rnd,
       (RateLimiter.isAllowed rl identifier t rnd w').1
       = Return (RateLimiter.mkDecision true (RateLimiter.maxRequests rl - 1)
                   (t + RateLimiter.windowMs rl) false None))
  ∧ (∀ t,
       (RateLimiter.getStatus rl identifier t w').1
       = Return (RateLimiter.mkDecision true (RateLimiter.maxRequests rl)
                   (t + RateLimiter.windowMs rl) false None)).
Proof.
  intros Hi Hf Hmax w'. subst w'. rewrite (reset_run identifier now w Hi Hf).
  cbn [fst snd].
  set (w' := set_db _ w).
  assert (Hk : db w' !! RateLimiter.key identifier = None).
  { subst w'. destruct w. cbn. rewrite lookup_delete_ne, lookup_delete_eq; [done|].
    intros Heq. symmetry in Heq. by eapply keys_differ. }
  assert (Hb : db w' !! RateLimiter.blockKey identifier = None).
  { subst w'. destruct w. cbn. by rewrite lookup_delete_eq. }
  assert (Hi' : initialized w' = true) by (subst w'; by destruct w).
  assert (Hf' : faults w' = []) by (subst w'; by destruct w).
  split_and!.
  - done.
  - intros t. split; [by apply events_absent|by apply block_seconds_absent].
  - intros k Hk1 Hk2. subst w'. destruct w. cbn. by rewrite !lookup_delete_ne.
  - intros t rnd. by apply isAllowed_no_history.
  - intros t. by apply getStatus_no_history.
Qed.

Lemma reset_forgets_history_witness :
  let w := (isAllowed_each RateLimiter.default "u1"
              (burst 1700000000000 31) blank).2 in
  let w' := (RateLimiter.reset "u1" 1700000001000 w).2 in
  (RateLimiter.isAllowed RateLimiter.default "u1" 1700000001000 0%N w).1
  = Return (RateLimiter.mkDecision false 0 1700000301000 true (Some 300000))
  ∧ (RateLimiter.isAllowed RateLimiter.default "u1" 1700000001000 0%N w').1
    = Return (RateLimiter.mkDecision true 29 1700000061000 false None).
Proof.
  intros w w'. split; [vm_compute; reflexivity|].
  refine (proj1 (proj2 (proj2 (proj2
    (reset_forgets_history RateLimiter.default "u1" 1700000001000 w _ _ _))))
    1700000001000 0%N); vm_compute; reflexivity.
Defined.

(** X4.  With a connected client [reset] never throws: it returns false
    exactly when the connection fails on its [DEL] command, and then the
    store is unchanged. *)
Theorem reset_reports_failure identifier now w :
  initialized w = true →
  ∃ success w',
    RateLimiter.reset identifier now w = (Return success, w')
    ∧ (success = false ↔ ∃ fs, faults w = true :: fs)
    ∧ (success = false → db w' = db w).
Proof.
  destruct w as [i f d o j q]. cbn. intros ->.
  unfold RateLimiter.reset, bind, try_catch, ret, Redis.getClient,
    Redis.command, Redis.exec, Redis.del. sim.
  destruct f as [|[] fs]; sim; eexists _, _; (split; [reflexivity|]); cbn.
  all: split; [split|]; try done; try (by intros [fs' [=]]); by eauto.
Qed.

Lemma reset_reports_failure_witness :
  ∃ success w',
    RateLimiter.reset "u1" 1700000000000 (set_faults [true] blank)
    = (Return success, w')
    ∧ (success = false ↔ ∃ fs, faults (set_faults [true] blank) = true :: fs)
    ∧ (success = false → db w' = db (set_faults [true] blank)).
Proof.
  apply (reset_reports_failure "u1" 1700000000000 (set_faults [true] blank)).
  reflexivity.
Defined.

(** ** Rejected requests *)

(** A rejection is reported as blocked with a block duration, and leaves
    the stored events as they were or without those that
    [ZREMRANGEBYSCORE key 0 (now - windowMs)] removes. *)
Lemma rejection_prunes rl identifier now rnd w d w' :
  RateLimiter.isAllowed rl identifier now rnd w = (Return d, w') →
  RateLimiter.allowed d = false →
  RateLimiter.blocked d = true
  ∧ is_Some (RateLimiter.blockDuration d)
  ∧ (events identifier now (db w') = events identifier now (db w)
     ∨ events identifier now (db w')
       = in_window rl now (events identifier now (db w))).
Proof.
  intros Hrun Hd.
  set (G := λ d' : gmap string entry,
    d' = db w
    ∨ ∃ n d1,
        Redis.zremrangebyscore now (RateLimiter.key identifier) 0
          (now - RateLimiter.windowMs rl) (db w) = inr (n, d1)
        ∧ ∀ k, k ≠ RateLimiter.blockKey identifier → d' !! k = d1 !! k).
  set (Q := λ (dec : RateLimiter.Decision) (d' : gmap string entry),
    RateLimiter.allowed dec = false →
    G d' ∧ RateLimiter.blocked dec = true
    ∧ is_Some (RateLimiter.blockDuration dec)).
  assert (Ht : triple (λ d0, d0 = db w)
                 (RateLimiter.isAllowed rl identifier now rnd) Q (λ _, True)).
  { unfold RateLimiter.isAllowed, RateLimiter.isAllowed_try.
    eapply (triple_bind _ _ _ (λ _ d0, d0 = db w));
      [by apply triple_getClient|intros []].
    eapply (triple_try_catch _ _ _ _ (λ _, True));
      [|intros e; by apply triple_ret].
    eapply (triple_bind _ _ _ (λ _ d0, d0 = db w)).
    { apply triple_command; [done|]. intros d0 a d' -> Hop.
      by rewrite (ttl_db _ _ _ _ _ Hop). }
    intros seconds. case_decide as Hdec.
    { apply triple_ret. intros d0 -> _. split_and!; [by left|done|by eexists]. }
    eapply (triple_bind _ _ _ (λ _ d1, ∃ n,
      Redis.zremrangebyscore now (RateLimiter.key identifier) 0
        (now - RateLimiter.windowMs rl) (db w) = inr (n, d1))).
    { apply triple_command; [done|]. intros d0 a d' -> Hop. by exists a. }
    intros _.
    eapply (triple_bind _ _ _ (λ _ d1, ∃ n,
      Redis.zremrangebyscore now (RateLimiter.key identifier) 0
        (now - RateLimiter.windowMs rl) (db w) = inr (n, d1))).
    { apply triple_command; [done|]. intros d0 a d' HP Hop.
      by rewrite (zcard_db _ _ _ _ _ Hop). }
    intros c. case_decide as Hfull.
    - eapply (triple_bind _ _ _ (λ _, G)).
      { apply triple_command; [done|]. intros d0 [] d' [n Hn] Hop.
        right. exists n, d0. split; [done|]. intros k Hk. revert Hop.
        unfold Redis.setex. case_decide; [done|]. intros [= <-].
        by rewrite lookup_insert_ne. }
      intros _. eapply (triple_bind _ _ _ (λ _, G)).
      { apply triple_command; [done|]. intros d0 a d' HG Hop. revert Hop.
        unfold Redis.zrange_first.
        destruct (Redis.lookup_live _ _ d0) as [e|]; [|by intros [= _ <-]].
        destruct (val e); try done. by intros [= _ <-]. }
      intros oldest. apply triple_ret. intros d0 HG _.
      split_and!; [done|done|by eexists].
    - eapply (triple_bind _ _ _ (λ _ _, True)); [by apply triple_command|].
      intros _.
      eapply (triple_bind _ _ _ (λ _ _, True)); [by apply triple_command|].
      intros _. by apply triple_ret. }
  destruct (Ht _ _ _ Hrun eq_refl Hd) as (HG & Hb & Hbd).
  assert (Hev : events identifier now (db w') = events identifier now (db w)
     ∨ events identifier now (db w')
       = in_window rl now (events identifier now (db w))).
  { destruct HG as [->|(n & d1 & Hrem & Hsame)]; [by left|right].
    apply prune_frame in Hrem as [_ Hev1]. unfold in_window.
    rewrite <- Hev1. apply events_ext, Hsame.
    apply keys_differ. }
  by split_and!.
Qed.

(** X5.  A request that [isAllowed] rejects is not recorded and is always
    reported as blocked with a block duration: the events stored after the
    call are events stored before it, and the only ones dropped are those
    with a score in [0, now - windowMs]. *)
Theorem rejected_request_not_recorded rl identifier now rnd w d w' :
  RateLimiter.isAllowed rl identifier now rnd w = (Return d, w') →
  RateLimiter.allowed d = false →
  RateLimiter.blocked d = true
  ∧ is_Some (RateLimiter.blockDuration d)
  ∧ (∀ m sc, events identifier now (db w') !! m = Some sc →
       events identifier now (db w) !! m = Some sc)
  ∧ (∀ m sc, events identifier now (db w) !! m = Some sc →
       ¬ (0 ≤ sc ≤ now - RateLimiter.windowMs rl) →
       events identifier now (db w') !! m = Some sc).
Proof.
  intros Hrun Hd.
  destruct (rejection_prunes rl identifier now rnd w d w' Hrun Hd)
    as (Hb & Hbd & Hev).
  split_and!; try done.
  - intros m sc. destruct Hev as [-> | ->]; [done|].
    unfold in_window. rewrite map_lookup_filter_Some. tauto.
  - intros m sc Hm Hsc. destruct Hev as [-> | ->]; [done|].
    unfold in_window. rewrite map_lookup_filter_Some. split; [done|].
    unfold Redis.in_range. cbn. lia.
Qed.

Lemma rejected_request_not_recorded_witness :
  let w := (isAllowed_each RateLimiter.default "u1"
              (burst 1700000000000 30) blank).2 in
  events "u1" 1700000000900
    (db (RateLimiter.isAllowed RateLimiter.default "u1" 1700000000900 30%N w).2)
    !! (1700000000900, 30%N) = None.
Proof.
  intros w.
  destruct (events "u1" 1700000000900
              (db (RateLimiter.isAllowed RateLimiter.default "u1"
                     1700000000900 30%N w).2) !! (1700000000900, 30%N))
    as [sc|] eqn:Hafter; [|reflexivity].
  apply (proj1 (proj2 (proj2
    (rejected_request_not_recorded RateLimiter.default "u1" 1700000000900 30%N w
       (RateLimiter.mkDecision false 0 1700000060000 true (Some 300000))
       (RateLimiter.isAllowed RateLimiter.default "u1" 1700000000900 30%N w).2
       ltac:(vm_compute; reflexivity) eq_refl)))) in Hafter.
  vm_compute in Hafter. discriminate Hafter.
Defined.

(** ** The status after an admission *)

Lemma in_window_insert (rl : RateLimiter.t) (now : Z) (z : gmap member Z) (m : member) :
  0 < RateLimiter.windowMs rl →
  in_window rl now (<[m := now]> (in_window rl now z))
  = <[m := now]> (in_window rl now z).
Proof.
  intros Hw. unfold in_window. apply map_filter_id. intros i x.
  rewrite lookup_insert_Some, map_lookup_filter_Some.
  intros [[<- <-]|(_ & _ & H)]; [|done].
  unfold Redis.in_range. cbn. lia.
Qed.

(** X6.  Right after [isAllowed] admitted a request (on a store that
    answers, with a sorted-set member not stored before), [getStatus] at
    the same time reports the [remaining] that [isAllowed] returned, and
    [allowed] exactly when that is positive. *)
Theorem getStatus_after_admission rl identifier now rnd w d w' :
  store_ok identifier w →
  0 < RateLimiter.windowMs rl → 0 < RateLimiter.blockDurationMs rl →
  RateLimiter.isAllowed rl identifier now rnd w = (Return d, w') →
  RateLimiter.allowed d = true →
  events identifier now (db w) !! (now, rnd) = None →
  (RateLimiter.getStatus rl identifier now w').1
  = Return (RateLimiter.mkDecision
              (bool_decide (RateLimiter.remaining d > 0))
              (RateLimiter.remaining d)
              (now + RateLimiter.windowMs rl) false None).
Proof.
  intros Hok Hw Hbd Hrun Hd Hnew.
  destruct (isAllowed_allowed_inv rl identifier Hw Hbd now rnd w d w' Hok Hrun Hd)
    as (Hb & Hrem & Hnn & (Hi & Hf & Hty) & Hbk & Hev).
  specialize (Hev now ltac:(lia)).
  apply (block_seconds_ext identifier now) in Hbk.
  destruct w' as [i f d' o j q]. cbn in Hi, Hf, Hty, Hbk, Hev. subst i f.
  run_limiter. rewrite block_seconds_ttl. sim.
  rewrite decide_False by lia.
  destruct (prune_spec identifier now 0 (now - RateLimiter.windowMs rl) d' Hty)
    as (n & d1 & Hprune & Hcard & Hev1 & _).
  rewrite Hprune. sim. rewrite Hcard. sim. cbn [fst].
  rewrite Hev1, Hev.
  fold (in_window rl now (<[(now, rnd):=now]>
          (in_window rl now (events identifier now (db w))))).
  rewrite in_window_insert by done.
  rewrite map_size_insert_None.
  2:{ unfold in_window. rewrite map_lookup_filter_None. by left. }
  replace (RateLimiter.maxRequests rl
           - Z.of_nat (S (size (in_window rl now (events identifier now (db w))))))
    with (RateLimiter.remaining d) by lia.
  by rewrite Z.max_r by lia.
Qed.

Lemma getStatus_after_admission_witness :
  (RateLimiter.getStatus RateLimiter.default "u1" 1700000000000
     (RateLimiter.isAllowed RateLimiter.default "u1" 1700000000000 7%N blank).2).1
  = Return (RateLimiter.mkDecision true 29 1700000060000 false None).
Proof.
  refine (getStatus_after_admission RateLimiter.default "u1" 1700000000000 7%N
            blank (RateLimiter.mkDecision true 29 1700000060000 false None)
            _ (blank_store_ok "u1") _ _ _ _ _); vm_compute; reflexivity.
Defined.

(** ** The end of a block *)

Lemma events_mono identifier now t d m sc :
  now ≤ t → events identifier t d !! m = Some sc →
  events identifier now d !! m = Some sc.
Proof.
  intros Ht. unfold events, Redis.lookup_live, Redis.live.
  destruct (d !! RateLimiter.key identifier) as [e|]; [|done].
  destruct (expire_at e) as [x|]; [|done].
  case_bool_decide; [|done]. by rewrite bool_decide_true by lia.
Qed.

(** X7.  A block ends: when [isAllowed] rejects a request at [now] and
    sets a block (every stored event having a score in [0, now]), a call
    made at least one window after [now] and later than 500 ms before the
    block key expires is admitted with [remaining = maxRequests - 1]. *)
Theorem admitted_again_after_block rl identifier now rnd w t rnd' :
  store_ok identifier w →
  0 < RateLimiter.windowMs rl → 0 < RateLimiter.blockDurationMs rl →
  0 < RateLimiter.maxRequests rl →
  block_seconds identifier now (db w) ≤ 0 →
  RateLimiter.maxRequests rl
    ≤ Z.of_nat (size (in_window rl now (events identifier now (db w)))) →
  (∀ m sc, events identifier now (db w) !! m = Some sc → 0 ≤ sc ≤ now) →
  now + RateLimiter.windowMs rl ≤ t →
  now + ceil_div (RateLimiter.blockDurationMs rl) 1000 * 1000 - 500 < t →
  let w' := (RateLimiter.isAllowed rl identifier now rnd w).2 in
  rejected_blocked (RateLimiter.isAllowed rl identifier now rnd w).1
  ∧ (RateLimiter.isAllowed rl identifier t rnd' w').1
    = Return (RateLimiter.mkDecision true (RateLimiter.maxRequests rl - 1)
                (t + RateLimiter.windowMs rl) false None).
Proof.
  intros Hok Hw Hbd Hmax Hb Hfull Hscores Htw Htb w'.
  pose proof (isAllowed_typed rl identifier now rnd w (proj2 (proj2 Hok))) as Hty.
  destruct (isAllowed_rejected rl identifier now rnd w Hok Hbd Hb Hfull)
    as (reset & w1 & Hrun & Hblk & Hi1 & Hf1).
  assert (Hsub : ∀ m sc, events identifier now (db w1) !! m = Some sc →
                         events identifier now (db w) !! m = Some sc).
  { destruct (rejection_prunes _ _ _ _ _ _ _ Hrun eq_refl) as (_ & _ & Hev).
    intros m sc. destruct Hev as [-> | ->]; [done|].
    unfold in_window. rewrite map_lookup_filter_Some. tauto. }
  subst w'. rewrite Hrun in Hty |- *. cbn [fst snd] in *.
  split; [by eexists|].
  assert (Hb1 : block_seconds identifier t (db w1) ≤ 0).
  { destruct (decide
      (t ≤ now + ceil_div (RateLimiter.blockDurationMs rl) 1000 * 1000)) as [Hle|Hgt].
    - rewrite (block_seconds_stored _ _ _ _ _ Hblk Hle).
      assert ((now + ceil_div (RateLimiter.blockDurationMs rl) 1000 * 1000
               - t + 500) / 1000 < 1); [|lia].
      apply Z.div_lt_upper_bound; lia.
    - unfold block_seconds, Redis.ttl, Redis.lookup_live, Redis.live.
      rewrite Hblk. cbn. by rewrite bool_decide_false by lia. }
  assert (Hempty : in_window rl t (events identifier t (db w1)) = ∅).
  { unfold in_window. apply map_empty. intros m.
    apply map_lookup_filter_None. right. intros sc Hm HP.
    apply HP. apply (events_mono _ now) in Hm; [|lia].
    apply Hsub, Hscores in Hm. unfold Redis.in_range. cbn. lia. }
  destruct (isAllowed_admitted rl identifier t rnd' w1 (conj Hi1 (conj Hf1 Hty)) Hw Hb1)
    as (w2 & Hadm & _).
  { rewrite Hempty, map_size_empty. lia. }
  rewrite Hadm. cbn. rewrite Hempty, map_size_empty. do 2 f_equal.
Qed.

Lemma admitted_again_after_block_witness :
  let rl := RateLimiter.mk 60000 1 300000 in
  let w := mkWorld true []
             {[ RateLimiter.key "u1" :=
                  mkEntry (ZSet {[ (1700000000000, 0%N) := 1700000000000 ]}) None ]}
             [] [] [] in
  let w' := (RateLimiter.isAllowed rl "u1" 1700000001000 1%N w).2 in
  rejected_blocked (RateLimiter.isAllowed rl "u1" 1700000001000 1%N w).1
  ∧ (RateLimiter.isAllowed rl "u1" 1700000300600 2%N w').1
    = Return (RateLimiter.mkDecision true 0 1700000360600 false None).
Proof.
  intros rl w.
  assert (Hev : events "u1" 1700000001000 (db w)
                = {[ (1700000000000, 0%N) := 1700000000000 ]}).
  { unfold events, Redis.lookup_live. cbn. by rewrite lookup_singleton_eq. }
  apply (admitted_again_after_block rl "u1" 1700000001000 1%N w
           1700000300600 2%N).
  - split_and!; try reflexivity. intros e. cbn.
    rewrite lookup_singleton_eq. intros [= <-]. eauto.
  - reflexivity.
  - reflexivity.
  - reflexivity.
  - vm_compute. discriminate.
  - rewrite Hev. vm_compute. discriminate.
  - rewrite Hev. intros m sc [<- <-]%lookup_singleton_Some. lia.
  - vm_compute. discriminate.
  - vm_compute. reflexivity.
Defined.

(** ** List commands *)

Lemma live_expiry_at now k d v :
  Redis.live now (mkEntry v (expiry_at now k d)) = true.
Proof.
  unfold expiry_at. destruct (Redis.lookup_live now k d) as [e|] eqn:Hl; [|done].
  apply lookup_live_Some in Hl as [_ Hlive]. by destruct e.
Qed.

Lemma lookup_live_insert now k e d :
  Redis.live now e = true → Redis.lookup_live now k (<[k := e]> d) = Some e.
Proof. intros H. unfold Redis.lookup_live. by rewrite lookup_insert_eq, H. Qed.

Lemma list_at_insert now k l x d :
  Redis.live now (mkEntry (Lst l) x) = true →
  list_at now k (<[k := mkEntry (Lst l) x]> d) = Some l.
Proof. intros H. unfold list_at. by rewrite lookup_live_insert. Qed.

Lemma list_at_ext now k d d' :
  d' !! k = d !! k → list_at now k d' = list_at now k d.
Proof. intros H. unfold list_at, Redis.lookup_live. by rewrite H. Qed.

Lemma lpush_spec now k x d l :
  list_at now k d = Some l →
  Redis.lpush now k x d
  = inr (Z.of_nat (S (length l)),
         <[k := mkEntry (Lst (x :: l)) (expiry_at now k d)]> d).
Proof.
  unfold list_at, expiry_at, Redis.lpush.
  destruct (Redis.lookup_live now k d) as [e|].
  - destruct (val e); try done. by intros [= ->].
  - by intros [= <-].
Qed.

Lemma ltrim_spec now k stop l x d :
  Redis.live now (mkEntry (Lst l) x) = true →
  Redis.ltrim now k stop (<[k := mkEntry (Lst l) x]> d)
  = inr ((), <[k := mkEntry (Lst (take (S stop) l)) x]> d).
Proof.
  intros H. unfold Redis.ltrim. rewrite lookup_live_insert by done. cbn.
  by rewrite insert_insert_eq.
Qed.

Lemma expire_spec now k seconds v x d :
  Redis.live now (mkEntry v x) = true → 0 < seconds →
  Redis.expire now k seconds (<[k := mkEntry v x]> d)
  = inr (1, <[k := mkEntry v (Some (now + seconds * 1000))]> d).
Proof.
  intros H Hs. unfold Redis.expire. rewrite lookup_live_insert by done.
  rewrite decide_False by lia. cbn. by rewrite insert_insert_eq.
Qed.

Lemma lrange_spec now k start stop d l :
  list_at now k d = Some l → 0 ≤ start → start ≤ stop →
  Redis.lrange now k start stop d
  = inr (take (Z.to_nat (stop - start + 1)) (drop (Z.to_nat start) l), d).
Proof.
  unfold list_at, Redis.lrange. intros Hl H0 Hle.
  destruct (Redis.lookup_live now k d) as [e|].
  2:{ injection Hl as <-. by rewrite drop_nil, take_nil. }
  destruct (val e) as [| |l']; try done. injection Hl as ->. cbv zeta.
  destruct (decide (start < 0)) as [?|_]; [lia|].
  destruct (decide (stop < 0)) as [?|_]; [lia|]. cbv iota.
  destruct (decide (start < 0)) as [?|_]; [lia|]. cbv iota.
  case_decide as Hout.
  - rewrite drop_ge by lia. by rewrite take_nil.
  - case_decide as Hclip; [|done].
    rewrite !take_ge; [done| |]; rewrite length_drop; lia.
Qed.

Lemma lrange_all now k d l :
  list_at now k d = Some l → Redis.lrange now k 0 (-1) d = inr (l, d).
Proof.
  unfold list_at, Redis.lrange. intros Hl.
  destruct (Redis.lookup_live now k d) as [e|]; [|by injection Hl as <-].
  destruct (val e) as [| |l']; try done. injection Hl as ->. cbv zeta.
  destruct (decide (0 < 0)) as [?|_]; [lia|].
  destruct (decide (-1 < 0)) as [_|?]; [|lia]. cbv iota.
  destruct (decide (0 < 0)) as [?|_]; [lia|]. cbv iota.
  case_decide as Hout.
  - destruct l; [done|]. cbn [length] in Hout. lia.
  - rewrite decide_False by lia. change (Z.to_nat 0) with 0%nat.
    rewrite drop_0, take_ge by lia. done.
Qed.

(** ** Message previews *)

Lemma substring_0_short n s :
  (String.length s ≤ n)%nat → String.substring 0 n s = s.
Proof.
  revert n. induction s as [|c s IH]; intros [|n] H; cbn in *; try done; try lia.
  f_equal. apply IH. lia.
Qed.

Lemma substring_0_length n s :
  (n ≤ String.length s)%nat → String.length (String.substring 0 n s) = n.
Proof.
  revert n. induction s as [|c s IH]; intros [|n] H; cbn in *; try done; try lia.
  f_equal. apply IH. lia.
Qed.

Lemma length_app_string s1 s2 :
  String.length (s1 +:+ s2) = (String.length s1 + String.length s2)%nat.
Proof.
  induction s1 as [|c s1 IH]; [done|]. rewrite append_cons. cbn. by rewrite IH.
Qed.

Lemma app_empty_r s : s +:+ "" = s.
Proof. induction s as [|c s IH]; [done|]. by rewrite append_cons, IH. Qed.

(** ** [logSMSDelivery] on a store that answers *)

Lemma logged_entry to message status apiResponse error iso :
  logged to message status apiResponse error iso
    (mkLogEntry iso to
       (String.substring 0 100 message +:+
          (if Nat.ltb 100 (String.length message) then "..." else ""))
       status apiResponse error).
Proof.
  unfold logged.
  cbn [log_timestamp log_to log_status log_apiResponse log_error log_message].
  split_and!; try done. case_decide as Hlen.
  - rewrite (proj2 (Nat.ltb_ge _ _)) by lia.
    by rewrite app_empty_r, substring_0_short.
  - rewrite (proj2 (Nat.ltb_lt _ _)) by lia. split; [done|].
    rewrite length_app_string, substring_0_length by lia. done.
Qed.


Lemma calm_ret {A} (a : A) : calm (ret a).
Proof. by intros w r w' [= <- <-]. Qed.

Lemma calm_throw {A} e : calm (@throw A e).
Proof. by intros w r w' [= <- <-]. Qed.

Lemma calm_getClient : calm Redis.getClient.
Proof.
  intros w r w'. unfold Redis.getClient.
  destruct (initialized w); by intros [= <- <-].
Qed.

Lemma calm_command {A}
    (op : gmap string entry → Error + A * gmap string entry) :
  calm (Redis.command op).
Proof.
  intros [i f d o j q] r w'. unfold Redis.command, Redis.exec. sim.
  intros Hrun ->. revert Hrun.
  destruct (op d) as [e|[a d']]; by intros [= <- <-].
Qed.

Lemma calm_bind {A B} (m : Cmd A) (f : A → Cmd B) :
  calm m → (∀ a, calm (f a)) → calm (bind m f).
Proof.
  intros Hm Hf w r w'. unfold bind.
  destruct (m w) as [[a|e] w1] eqn:Hmw.
  - intros Hfa Hw. eapply Hf; [exact Hfa|]. by eapply Hm.
  - intros [= <- <-] Hw. by eapply Hm.
Qed.

Lemma calm_try_catch {A} (m : Cmd A) (h : Error → Cmd A) :
  calm m → (∀ e, calm (h e)) → calm (try_catch m h).
Proof.
  intros Hm Hh w r w'. unfold try_catch.
  destruct (m w) as [[a|e] w1] eqn:Hmw.
  - intros [= <- <-] Hw. by eapply Hm.
  - intros Hhe Hw. eapply Hh; [exact Hhe|]. by eapply Hm.
Qed.

Ltac calm_tac :=
  repeat first
    [ apply calm_ret | apply calm_throw | apply calm_getClient
    | apply calm_command
    | apply calm_bind; [|intros ?]
    | apply calm_try_catch; [|intros ?]
    | case_decide ].

Lemma calm_isAllowed rl identifier now rnd :
  calm (RateLimiter.isAllowed rl identifier now rnd).
Proof. unfold RateLimiter.isAllowed, RateLimiter.isAllowed_try. calm_tac. Qed.

Lemma calm_logSMSDelivery to message status apiResponse error now iso :
  calm (SMSService.logSMSDelivery to message status apiResponse error now iso).
Proof. unfold SMSService.logSMSDelivery. calm_tac. Qed.

Lemma logSMSDelivery_main_key to message status apiResponse error now iso w old :
  initialized w = true → faults w = [] →
  list_at now "sms_delivery_logs" (db w) = Some old →
  db (SMSService.logSMSDelivery to message status apiResponse error now iso w).2
    !! "sms_delivery_logs"
  = Some (mkEntry
            (Lst (mkLogEntry iso to
                    (String.substring 0 100 message +:+
                       (if Nat.ltb 100 (String.length message) then "..." else ""))
                    status apiResponse error :: take 999 old))
            (expiry_at now "sms_delivery_logs" (db w))).
Proof.
  intros Hi Hf Hold. unfold SMSService.logSMSDelivery. cbv zeta.
  set (e := mkLogEntry _ _ _ _ _ _).
  destruct w as [i f d o j q]. cbn in Hi, Hf, Hold. subst i f.
  unfold bind at 1, Redis.getClient. sim. unfold try_catch.
  unfold bind at 1. unfold Redis.command at 1, Redis.exec. sim.
  rewrite (lpush_spec _ _ _ _ _ Hold). sim.
  unfold bind at 1. unfold Redis.command at 1, Redis.exec. sim.
  rewrite ltrim_spec by apply live_expiry_at. sim.
  match goal with |- context [bind ?m ?k ?w] =>
    assert (Htouch : touches ["sms_logs:" +:+ before "T" iso] (bind m k))
      by touches_tac;
    destruct (bind m k w) as [r w3] eqn:Hrest end.
  pose proof (Htouch _ _ _ "sms_delivery_logs" Hrest) as Hk.
  cbn in Hk. rewrite lookup_insert_eq in Hk.
  destruct r as [[]|err]; cbn; apply Hk.
  all: intros Hin%list_elem_of_singleton; symmetry in Hin;
    by apply daily_key_differs in Hin.
Qed.

Lemma logSMSDelivery_main to message status apiResponse error now iso w old :
  initialized w = true → faults w = [] →
  list_at now "sms_delivery_logs" (db w) = Some old →
  ∃ e w',
    SMSService.logSMSDelivery to message status apiResponse error now iso w
    = (Return (), w')
    ∧ logged to message status apiResponse error iso e
    ∧ db w' !! "sms_delivery_logs"
      = Some (mkEntry (Lst (e :: take 999 old))
                (expiry_at now "sms_delivery_logs" (db w)))
    ∧ initialized w' = true ∧ faults w' = []
    ∧ (∀ k, k ∉ log_keys iso → db w' !! k = db w !! k)
    ∧ outbox w' = outbox w ∧ jobs w' = jobs w ∧ qfaults w' = qfaults w.
Proof.
  intros Hi Hf Hold.
  destruct (logSMSDelivery_returns to message status apiResponse error now iso
              w Hi) as [w' Hrun].
  pose proof (logSMSDelivery_main_key to message status apiResponse error
                now iso w old Hi Hf Hold) as Hkey.
  rewrite Hrun in Hkey. cbn [snd] in Hkey.
  destruct (redis_only_logSMSDelivery _ _ _ _ _ _ _ _ _ _ Hrun)
    as (Hi' & Ho' & Hj' & Hq').
  eexists _, w'. split_and!; try done.
  - apply logged_entry.
  - congruence.
  - by eapply calm_logSMSDelivery.
  - intros k Hk. by eapply touches_logSMSDelivery.
Qed.

(** X8.  On a store that answers, [logSMSDelivery] puts the new entry at
    the head of the delivery log and keeps at most 1000 entries, the 999
    newest of the former ones; the entry holds the time stamp, recipient,
    status, response and error as given, and of the message at most its
    first 100 characters, followed by three dots when it is longer. *)
Theorem delivery_log_newest_first to message status apiResponse error now iso
    w old :
  initialized w = true → faults w = [] →
  list_at now "sms_delivery_logs" (db w) = Some old →
  let w' :=
    (SMSService.logSMSDelivery to message status apiResponse error now iso w).2 in
  ∃ e, list_at now "sms_delivery_logs" (db w') = Some (e :: take 999 old)
       ∧ logged to message status apiResponse error iso e
       ∧ (length (e :: take 999 old) ≤ 1000)%nat.
Proof.
  intros Hi Hf Hold w'.
  destruct (logSMSDelivery_main to message status apiResponse error now iso
              w old Hi Hf Hold) as (e & w1 & Hrun & Hlogged & Hkey & _).
  subst w'. rewrite Hrun. cbn [snd]. exists e. split_and!; [|done|].
  - unfold list_at, Redis.lookup_live. rewrite Hkey.
    by rewrite live_expiry_at.
  - cbn [length]. rewrite length_take. lia.
Qed.

Lemma delivery_log_newest_first_witness :
  ∃ e, list_at 1700000000000 "sms_delivery_logs"
         (db (SMSService.logSMSDelivery "+254712345678" "Hello" "success" None
                None 1700000000000 "2023-11-14T22:13:20.000Z" blank).2)
       = Some (e :: take 999 [])
       ∧ logged "+254712345678" "Hello" "success" None None
           "2023-11-14T22:13:20.000Z" e
       ∧ (length (e :: take 999 []) ≤ 1000)%nat.
Proof.
  apply (delivery_log_newest_first "+254712345678" "Hello" "success" None None
           1700000000000 "2023-11-14T22:13:20.000Z" blank []);
    reflexivity.
Defined.

Lemma getDeliveryLogs_spec now w l :
  initialized w = true → faults w = [] →
  list_at now "sms_delivery_logs" (db w) = Some l →
  (∀ limit offset, 1 ≤ limit → 0 ≤ offset →
     SMSService.getDeliveryLogs (Some limit) (Some offset) now w
     = (Return (take (Z.to_nat limit) (drop (Z.to_nat offset) l)), w))
  ∧ SMSService.getDeliveryLogs None None now w = (Return (take 50 l), w)
  ∧ SMSService.getDeliveryLogs (Some 0) (Some 0) now w = (Return l, w).
Proof.
  destruct w as [i f d o j q]. cbn. intros -> -> Hl.
  assert (Hpage : ∀ limit offset, 1 ≤ limit → 0 ≤ offset →
     SMSService.getDeliveryLogs (Some limit) (Some offset) now
       (mkWorld true [] d o j q)
     = (Return (take (Z.to_nat limit) (drop (Z.to_nat offset) l)),
        mkWorld true [] d o j q)).
  { intros limit offset Hlimit Hoffset.
    unfold SMSService.getDeliveryLogs, bind, try_catch, Redis.getClient,
      Redis.command, Redis.exec. sim.
    cbv beta iota delta [default from_option id].
    rewrite (lrange_spec _ _ _ _ _ _ Hl) by lia.
    by replace (offset + limit - 1 - offset + 1) with limit by lia. }
  split_and!; [done|apply (Hpage 50 0); lia|].
  unfold SMSService.getDeliveryLogs, bind, try_catch, Redis.getClient,
    Redis.command, Redis.exec. sim.
    cbv beta iota delta [default from_option id].
  change (0 + 0 - 1) with (-1). by rewrite (lrange_all _ _ _ _ Hl).
Qed.

(** X9.  On a store that answers, [getDeliveryLogs(limit, offset)] with
    [limit >= 1] and [offset >= 0] returns the [limit] entries of the
    delivery log that follow the first [offset], newest first, and leaves
    the store as it is; the defaults give the 50 newest entries; a limit
    of 0 with offset 0 returns the whole log. *)
Theorem getDeliveryLogs_page now w l :
  initialized w = true → faults w = [] →
  list_at now "sms_delivery_logs" (db w) = Some l →
  (∀ limit offset, 1 ≤ limit → 0 ≤ offset →
     SMSService.getDeliveryLogs (Some limit) (Some offset) now w
     = (Return (take (Z.to_nat limit) (drop (Z.to_nat offset) l)), w))
  ∧ SMSService.getDeliveryLogs None None now w = (Return (take 50 l), w)
  ∧ SMSService.getDeliveryLogs (Some 0) (Some 0) now w = (Return l, w).
Proof. apply getDeliveryLogs_spec. Qed.

Lemma getDeliveryLogs_page_witness :
  let w := (SMSService.logSMSDelivery "+254712345678" "Hello" "success" None
              None 1700000000000 "2023-11-14T22:13:20.000Z" blank).2 in
  ∃ l, list_at 1700000000000 "sms_delivery_logs" (db w) = Some l
       ∧ SMSService.getDeliveryLogs None None 1700000000000 w
         = (Return (take 50 l), w).
Proof.
  intros w. eexists. split; [vm_compute; reflexivity|].
  refine (proj1 (proj2 (getDeliveryLogs_page 1700000000000 w _ _ _ _)));
    vm_compute; reflexivity.
Defined.

(** X10.  What [logSMSDelivery] writes, [getDeliveryLogs] reads back: on
    a store that answers, with a delivery log that has no expiry, the
    entry just logged is the first one returned at any later time. *)
Theorem logged_entry_is_read_back to message status apiResponse error now iso
    w old :
  initialized w = true → faults w = [] →
  list_at now "sms_delivery_logs" (db w) = Some old →
  expiry_at now "sms_delivery_logs" (db w) = None →
  let w' :=
    (SMSService.logSMSDelivery to message status apiResponse error now iso w).2 in
  ∃ e, logged to message status apiResponse error iso e
       ∧ ∀ t, (SMSService.getDeliveryLogs (Some 1) None t w').1 = Return [e]
              ∧ (SMSService.getDeliveryLogs None None t w').1
                = Return (e :: take 49 old).
Proof.
  intros Hi Hf Hold Hexp w'.
  destruct (logSMSDelivery_main to message status apiResponse error now iso
              w old Hi Hf Hold)
    as (e & w1 & Hrun & Hlogged & Hkey & Hi1 & Hf1 & _).
  subst w'. rewrite Hrun. cbn [snd]. exists e. split; [done|]. intros t.
  rewrite Hexp in Hkey.
  assert (Hl : list_at t "sms_delivery_logs" (db w1) = Some (e :: take 999 old)).
  { unfold list_at, Redis.lookup_live. by rewrite Hkey. }
  destruct (getDeliveryLogs_spec t w1 _ Hi1 Hf1 Hl) as (Hpage & Hdefault & _).
  change (SMSService.getDeliveryLogs (Some 1) None t w1)
    with (SMSService.getDeliveryLogs (Some 1) (Some 0) t w1).
  rewrite (Hpage 1 0), Hdefault by lia. cbn [fst]. split; [done|].
  do 2 f_equal. change 50%nat with (S 49). cbn [take].
  f_equal. rewrite take_take. by rewrite Nat.min_l by lia.
Qed.

Lemma logged_entry_is_read_back_witness :
  ∃ e, logged "+254712345678" "Hello" "failed" None (Some "Gateway down")
         "2023-11-14T22:13:20.000Z" e
       ∧ ∀ t, (SMSService.getDeliveryLogs (Some 1) None t
                 (SMSService.logSMSDelivery "+254712345678" "Hello" "failed"
                    None (Some "Gateway down") 1700000000000
                    "2023-11-14T22:13:20.000Z" blank).2).1 = Return [e]
              ∧ (SMSService.getDeliveryLogs None None t
                   (SMSService.logSMSDelivery "+254712345678" "Hello" "failed"
                      None (Some "Gateway down") 1700000000000
                      "2023-11-14T22:13:20.000Z" blank).2).1
                = Return (e :: take 49 []).
Proof.
  apply (logged_entry_is_read_back "+254712345678" "Hello" "failed" None
           (Some "Gateway down") 1700000000000 "2023-11-14T22:13:20.000Z"
           blank []); reflexivity.
Defined.

(** ** Daily statistics *)

Lemma count_log_fold l t s f day :
  fold_left SMSService.count_log l (SMSService.mkDailyStats t s f day)
  = SMSService.mkDailyStats t
      (s + Z.of_nat (length (filter (λ e, log_status e = "success") l)))
      (f + Z.of_nat (length (filter (λ e, log_status e ≠ "success") l)))
      day.
Proof.
  revert s f. induction l as [|e l IH]; intros s f.
  - cbn. f_equal; lia.
  - cbn [fold_left]. unfold SMSService.count_log at 2.
    cbn [SMSService.total SMSService.successful SMSService.failed
         SMSService.date].
    rewrite !filter_cons. case_decide as Hs.
    + rewrite decide_False by tauto. rewrite IH. cbn [length]. f_equal; lia.
    + rewrite decide_True by done. rewrite IH. cbn [length]. f_equal; lia.
Qed.

Lemma filter_split_length (l : list LogEntry) :
  (length (filter (λ e, log_status e = "success") l)
   + length (filter (λ e, log_status e ≠ "success") l) = length l)%nat.
Proof.
  induction l as [|e l IH]; [done|]. rewrite !filter_cons.
  case_decide as Hs.
  - rewrite decide_False by tauto. cbn [length]. lia.
  - rewrite decide_True by done. cbn [length]. lia.
Qed.

Lemma lrange_wrongtype now k start stop d :
  list_at now k d = None →
  Redis.lrange now k start stop d = inl Redis.wrongtype.
Proof.
  unfold list_at, Redis.lrange.
  destruct (Redis.lookup_live now k d) as [e|]; [|done].
  by destruct (val e).
Qed.

Lemma getDailyStats_spec date now iso w :
  initialized w = true →
  ∃ stats w',
    SMSService.getDailyStats date now iso w = (Return stats, w')
    ∧ db w' = db w
    ∧ SMSService.date stats = default (before "T" iso) date
    ∧ SMSService.total stats
      = SMSService.successful stats + SMSService.failed stats
    ∧ 0 ≤ SMSService.successful stats ∧ 0 ≤ SMSService.failed stats
    ∧ (faults w = [] →
       ∀ l, list_at now ("sms_logs:" +:+ default (before "T" iso) date) (db w)
            = Some l →
            SMSService.total stats = Z.of_nat (length l)
            ∧ SMSService.successful stats
              = Z.of_nat (length (filter (λ e, log_status e = "success") l))).
Proof.
  intros Hi. unfold SMSService.getDailyStats. cbv zeta.
  set (day := default (before "T" iso) date).
  unfold bind at 1, Redis.getClient. rewrite Hi. unfold try_catch, bind.
  destruct (Redis.command (Redis.lrange now ("sms_logs:" +:+ day) 0 (-1)) w)
    as [r w1] eqn:Hrun.
  pose proof (calm_command _ _ _ _ Hrun) as Hcalm.
  destruct (command_inv _ _ _ _ Hrun) as [(e & -> & Hdb)|(logs & -> & Hop)].
  - eexists _, _. split; [reflexivity|]. cbn. split_and!; try done.
    intros Hf l Hl. destruct w as [i f d o j q]. cbn in Hf, Hl, Hi. subst i f.
    revert Hrun. unfold Redis.command, Redis.exec. sim.
    by rewrite (lrange_all _ _ _ _ Hl).
  - assert (Hdb : db w1 = db w).
    { revert Hop. unfold Redis.lrange.
      destruct (Redis.lookup_live _ _ (db w)) as [e|]; [|by intros [= _ <-]].
      destruct (val e); try done. cbv zeta. case_decide; by intros [= _ <-]. }
    unfold ret. eexists _, _. split; [reflexivity|].
    rewrite count_log_fold. cbn.
    pose proof (filter_split_length logs). split_and!; try done; try lia.
    intros Hf l Hl. rewrite (lrange_all _ _ _ _ Hl) in Hop.
    by injection Hop as -> _.
Qed.

(** X11.  With a connected client [getDailyStats] never throws and never
    changes the store; its counts add up, [total = successful + failed],
    whatever the store holds or fails to answer; on a store that answers
    [total] is the length of the day's list and [successful] the number of
    its entries with status 'success'. *)
Theorem getDailyStats_counts date now iso w :
  initialized w = true →
  ∃ stats w',
    SMSService.getDailyStats date now iso w = (Return stats, w')
    ∧ db w' = db w
    ∧ SMSService.date stats = default (before "T" iso) date
    ∧ SMSService.total stats
      = SMSService.successful stats + SMSService.failed stats
    ∧ 0 ≤ SMSService.successful stats ∧ 0 ≤ SMSService.failed stats
    ∧ (faults w = [] →
       ∀ l, list_at now ("sms_logs:" +:+ default (before "T" iso) date) (db w)
            = Some l →
            SMSService.total stats = Z.of_nat (length l)
            ∧ SMSService.successful stats
              = Z.of_nat (length (filter (λ e, log_status e = "success") l))).
Proof. apply getDailyStats_spec. Qed.

Lemma getDailyStats_counts_witness :
  ∃ stats w',
    SMSService.getDailyStats (Some "2023-11-14") 1700000000000
      "2023-11-15T08:00:00.000Z" (set_faults [true] blank) = (Return stats, w')
    ∧ SMSService.date stats = "2023-11-14"
    ∧ SMSService.total stats
      = SMSService.successful stats + SMSService.failed stats.
Proof.
  destruct (getDailyStats_counts (Some "2023-11-14") 1700000000000
              "2023-11-15T08:00:00.000Z" (set_faults [true] blank))
    as (stats & w' & Hrun & _ & Hdate & Htotal & _); [reflexivity|].
  by exists stats, w'.
Defined.

(** ** A day of logging *)

Lemma plain_list_at now k d :
  plain_list k d → ∃ l, list_at now k d = Some l ∧ expiry_at now k d = None.
Proof.
  unfold plain_list, list_at, expiry_at, Redis.lookup_live, Redis.live.
  destruct (d !! k) as [e|]; [|by eauto].
  intros [[l Hl] Hx]. rewrite Hx, Hl. eauto.
Qed.

Lemma daily_state_list_at k t0 dl d t :
  daily_state k t0 dl d → t ≤ t0 + 604800000 → list_at t k d = Some dl.
Proof.
  unfold list_at, Redis.lookup_live, Redis.live.
  intros [[-> ->]|(x & -> & Hx)] Ht; [done|]. cbn.
  by rewrite bool_decide_true by lia.
Qed.

Lemma logSMSDelivery_daily_key to message status apiResponse error now iso w
    old dl :
  initialized w = true → faults w = [] →
  list_at now "sms_delivery_logs" (db w) = Some old →
  list_at now ("sms_logs:" +:+ before "T" iso) (db w) = Some dl →
  ∃ e, log_status e = status
       ∧ db (SMSService.logSMSDelivery to message status apiResponse error
               now iso w).2 !! ("sms_logs:" +:+ before "T" iso)
         = Some (mkEntry (Lst (e :: dl)) (Some (now + 604800000))).
Proof.
  intros Hi Hf Hold Hdl. unfold SMSService.logSMSDelivery. cbv zeta.
  set (e := mkLogEntry _ _ _ _ _ _). exists e. split; [done|].
  pose proof (daily_key_differs (before "T" iso)) as Hne.
  destruct w as [i f d o j q]. cbn in Hi, Hf, Hold, Hdl. subst i f.
  unfold bind at 1, Redis.getClient. sim. unfold try_catch.
  unfold bind at 1. unfold Redis.command at 1, Redis.exec. sim.
  rewrite (lpush_spec _ _ _ _ _ Hold). sim.
  unfold bind at 1. unfold Redis.command at 1, Redis.exec. sim.
  rewrite ltrim_spec by apply live_expiry_at. sim.
  unfold bind at 1. unfold Redis.command at 1, Redis.exec. sim.
  erewrite lpush_spec.
  2:{ erewrite list_at_ext; [exact Hdl|]. by rewrite lookup_insert_ne. }
  sim.
  unfold bind at 1. unfold Redis.command at 1, Redis.exec. sim.
  rewrite expire_spec; [|apply live_expiry_at|lia]. sim.
  unfold bind, ret. cbn. rewrite lookup_insert_eq. do 3 f_equal; lia.
Qed.

Lemma logSMSDelivery_each_day k day t0 calls :
  k = "sms_logs:" +:+ day →
  Forall (λ c, before "T" (call_iso c) = day
               ∧ t0 ≤ call_now c ≤ t0 + 604800000) calls →
  ∀ w dl,
    initialized w = true → faults w = [] →
    plain_list "sms_delivery_logs" (db w) →
    daily_state k t0 dl (db w) →
    ∃ w' dl',
      logSMSDelivery_each calls w = (Return (), w')
      ∧ initialized w' = true ∧ faults w' = []
      ∧ daily_state k t0 dl' (db w')
      ∧ length dl' = (length calls + length dl)%nat
      ∧ length (filter (λ e, log_status e = "success") dl')
        = (length (filter (λ c, call_status c = "success") calls)
           + length (filter (λ e, log_status e = "success") dl))%nat.
Proof.
  intros -> Hcalls. induction Hcalls as [|c calls [Hday Ht] _ IH];
    intros w dl Hi Hf Hplain Hdaily.
  { exists w, dl. by split_and!. }
  cbn [logSMSDelivery_each].
  destruct (plain_list_at (call_now c) _ _ Hplain) as (old & Hold & Hexp).
  pose proof (daily_state_list_at _ _ _ _ (call_now c) Hdaily ltac:(lia)) as Hdl.
  destruct (logSMSDelivery_main (call_to c) (call_message c) (call_status c)
              (call_apiResponse c) (call_error c) (call_now c) (call_iso c)
              w old Hi Hf Hold)
    as (e0 & w1 & Hrun & _ & Hkey & Hi1 & Hf1 & _).
  rewrite <- Hday in Hdl.
  destruct (logSMSDelivery_daily_key (call_to c) (call_message c)
              (call_status c) (call_apiResponse c) (call_error c) (call_now c)
              (call_iso c) w old dl Hi Hf Hold Hdl) as (e & Hstatus & Hdk).
  rewrite Hrun in Hdk. cbn [snd] in Hdk. rewrite Hday in Hdk.
  rewrite Hexp in Hkey.
  destruct (IH w1 (e :: dl) Hi1 Hf1) as (w' & dl' & Hrest & Hi' & Hf' & Hd' & Hlen & Hsucc).
  { unfold plain_list. rewrite Hkey. cbn. eauto. }
  { right. eexists. split; [exact Hdk|]. lia. }
  exists w', dl'. rewrite (bind_Return _ _ _ _ _ Hrun). split_and!; try done.
  - rewrite Hlen. cbn [length]. lia.
  - rewrite Hsucc, !filter_cons, Hstatus.
    case_decide; cbn [length]; lia.
Qed.

(** X12.  The statistics of a day count the deliveries logged for it: on
    a store that answers, with no list for the day yet, after any number
    of [logSMSDelivery] calls stamped with that day, [getDailyStats] for
    the day reports their number as [total], those with status 'success'
    as [successful] and the others as [failed], as long as the calls and
    the reading lie within seven days. *)
Theorem daily_stats_after_logging day t0 calls now iso w :
  initialized w = true → faults w = [] →
  plain_list "sms_delivery_logs" (db w) →
  db w !! ("sms_logs:" +:+ day) = None →
  Forall (λ c, before "T" (call_iso c) = day
               ∧ t0 ≤ call_now c ≤ t0 + 604800000) calls →
  t0 ≤ now ≤ t0 + 604800000 →
  (SMSService.getDailyStats (Some day) now iso
     (logSMSDelivery_each calls w).2).1
  = Return (SMSService.mkDailyStats
              (Z.of_nat (length calls))
              (Z.of_nat (length (filter (λ c, call_status c = "success") calls)))
              (Z.of_nat (length (filter (λ c, call_status c ≠ "success") calls)))
              day).
Proof.
  intros Hi Hf Hplain Hnone Hcalls Hnow.
  destruct (logSMSDelivery_each_day ("sms_logs:" +:+ day) day t0 calls eq_refl
              Hcalls w [] Hi Hf Hplain)
    as (w' & dl & Hrun & Hi' & Hf' & Hd' & Hlen & Hsucc); [by left|].
  rewrite Hrun. cbn [snd].
  destruct (getDailyStats_spec (Some day) now iso w' Hi')
    as (stats & w2 & Hstats & _ & Hdate & Htotal & _ & _ & Hexact).
  rewrite Hstats. cbn [fst].
  destruct (Hexact Hf' dl) as [Ht Hs].
  { apply (daily_state_list_at _ t0); [done|lia]. }
  destruct stats as [t s f d]. cbn in *. subst d.
  assert (Hsplit : ∀ l : list LogCall,
    (length (filter (λ c, call_status c = "success") l)
     + length (filter (λ c, call_status c ≠ "success") l) = length l)%nat).
  { induction l as [|c l IHl]; [done|]. rewrite !filter_cons.
    case_decide as Hc.
    - rewrite decide_False by tauto. cbn [length]. lia.
    - rewrite decide_True by done. cbn [length]. lia. }
  pose proof (Hsplit calls). f_equal. f_equal; lia.
Qed.

Lemma daily_stats_after_logging_witness :
  (SMSService.getDailyStats (Some "2023-11-14") 1700050000000
     "2023-11-15T12:06:40.000Z" (logSMSDelivery_each sample_day blank).2).1
  = Return (SMSService.mkDailyStats 5 3 2 "2023-11-14").
Proof.
  apply (daily_stats_after_logging "2023-11-14" 1700000000000 sample_day
           1700050000000 "2023-11-15T12:06:40.000Z" blank).
  - reflexivity.
  - reflexivity.
  - vm_compute. exact I.
  - reflexivity.
  - repeat constructor; vm_compute; congruence.
  - lia.
Defined.

(** X13.  [GET /sms/logs] answers with a page: the limit is 50 when the
    parameter is absent, not a number or 0; for a positive limit and an
    offset that is not negative the page never holds more than [limit]
    entries, and the [total] it reports is the number of entries on the
    page; without a connected client the answer is a 500 with the
    client's error message. *)
Theorem api_logs_page limit offset now w :
  (initialized w = true →
   ∃ logs w',
     APIRouter.getDeliveryLogs limit offset now w
     = (Return (APIRouter.LogsPage logs (APIRouter.number_or limit 50)
                  (APIRouter.number_or offset 0) (length logs)), w')
     ∧ APIRouter.number_or limit 50 ≠ 0
     ∧ (0 < APIRouter.number_or limit 50 → 0 ≤ APIRouter.number_or offset 0 →
        Z.of_nat (length logs) ≤ APIRouter.number_or limit 50))
  ∧ (initialized w = false →
     APIRouter.getDeliveryLogs limit offset now w
     = (Return (APIRouter.Failed "Failed to get delivery logs"
                  (Some "Redis client not initialized. Call connect() first.")),
        w)).
Proof.
  unfold APIRouter.getDeliveryLogs, SMSService.getDeliveryLogs. cbv zeta.
  cbv beta iota delta [default from_option id].
  set (lim := APIRouter.number_or limit 50).
  set (off := APIRouter.number_or offset 0).
  assert (Hlim : lim ≠ 0).
  { subst lim. unfold APIRouter.number_or. destruct limit as [n|]; [|done].
    by case_decide. }
  split; intros Hi.
  2:{ unfold try_catch, bind, Redis.getClient. by rewrite Hi. }
  unfold try_catch at 1, bind at 1, bind at 1, Redis.getClient. rewrite Hi.
  unfold try_catch.
  destruct (Redis.command
              (Redis.lrange now "sms_delivery_logs" off (off + lim - 1)) w)
    as [r w1] eqn:Hrun.
  destruct (command_inv _ _ _ _ Hrun) as [(e & -> & Hdb)|(logs & -> & Hop)].
  - unfold ret. eexists [], _. split; [reflexivity|]. split; [done|].
    cbn [length]. lia.
  - unfold ret. eexists logs, _. split; [reflexivity|]. split; [done|].
    intros Hpos Hoff.
    destruct (list_at now "sms_delivery_logs" (db w)) as [l|] eqn:Hl.
    + rewrite (lrange_spec _ _ _ _ _ _ Hl) in Hop by lia.
      injection Hop as <- _. rewrite length_take. lia.
    + by rewrite (lrange_wrongtype _ _ _ _ _ Hl) in Hop.
Qed.

Lemma api_logs_page_witness :
  ∃ logs w',
    APIRouter.getDeliveryLogs (Some 0) None 1700000000000 blank
    = (Return (APIRouter.LogsPage logs 50 0 (length logs)), w').
Proof.
  destruct (proj1 (api_logs_page (Some 0) None 1700000000000 blank) eq_refl)
    as (logs & w' & Hrun & _).
  by exists logs, w'.
Defined.

(** ** What [sendSMS] hands to the gateway *)

Lemma trimStart_first s c :
  first_char (trimStart s) = Some c → is_space c = false.
Proof.
  induction s as [|a s IH]; [done|]. cbn [trimStart].
  destruct (is_space a) eqn:Ha; [done|]. by intros [= <-].
Qed.

Lemma trimEnd_first s c :
  first_char (trimEnd s) = Some c → first_char s = Some c.
Proof.
  destruct s as [|a s]; [done|]. cbn [trimEnd].
  destruct (trimEnd s); [|done]. by destruct (is_space a).
Qed.

Lemma trimEnd_last s c :
  last_char (trimEnd s) = Some c → is_space c = false.
Proof.
  induction s as [|a s IH]; [done|]. cbn [trimEnd].
  destruct (trimEnd s) as [|b rest].
  - destruct (is_space a) eqn:Ha; [done|]. by intros [= <-].
  - exact IH.
Qed.

Lemma trim_trimmed message c :
  first_char (trim message) = Some c ∨ last_char (trim message) = Some c →
  is_space c = false.
Proof.
  unfold trim. intros [H|H].
  - by eapply trimStart_first, trimEnd_first.
  - by eapply trimEnd_last.
Qed.

Lemma sendSMS_outbox svc to message identifier now rnd iso w :
  let r := SMSService.sendSMS svc to message identifier now rnd iso w in
  (outbox r.2 = outbox w ∧ ∃ e, r.1 = Throw e)
  ∨ (outbox r.2
     = mkSmsPayload [to] (trim message) (SMSService.from svc) :: outbox w
     ∧ SMSService.isValidPhoneNumber to = true
     ∧ trim message ≠ "").
Proof.
  intros r. subst r.
  destruct (initialized w) eqn:Hi.
  2:{ rewrite (sendSMS_not_initialized _ _ _ _ _ _ _ _ Hi). left. eauto. }
  destruct (sendSMS_outcome svc to message identifier now rnd iso w Hi)
    as (d & w1 & _ & Hout). cbv zeta in Hout.
  destruct (negb (RateLimiter.allowed d));
    [left; destruct Hout as [Hr Ho]; eauto|].
  destruct (SMSService.isValidPhoneNumber to); cbn [negb] in Hout;
    [|left; destruct Hout as [Hr Ho]; eauto].
  destruct (bool_decide (message = "")
            || Nat.eqb (String.length (trim message)) 0) eqn:Hblank;
    [left; destruct Hout as [Hr Ho]; eauto|].
  right. destruct Hout as [Ho _]. split_and!; try done.
  apply orb_false_iff in Hblank as [_ Hlen]. intros Heq.
  by rewrite Heq in Hlen.
Qed.

(** X14.  [sendSMS] hands the gateway at most one payload, and only a
    valid one: either nothing is dispatched and [sendSMS] throws, or the
    one payload added has the recipient as given, which matches the
    pattern of phone numbers, and the trimmed message, which is not empty
    and neither starts nor ends with white space. *)
Theorem sendSMS_dispatches_valid svc to message identifier now rnd iso w :
  let r := SMSService.sendSMS svc to message identifier now rnd iso w in
  (outbox r.2 = outbox w ∧ ∃ e, r.1 = Throw e)
  ∨ (outbox r.2
     = mkSmsPayload [to] (trim message) (SMSService.from svc) :: outbox w
     ∧ SMSService.isValidPhoneNumber to = true
     ∧ trim message ≠ ""
     ∧ ∀ c, first_char (trim message) = Some c
            ∨ last_char (trim message) = Some c → is_space c = false).
Proof.
  intros r.
  destruct (sendSMS_outbox svc to message identifier now rnd iso w)
    as [Hnone|(Ho & Hvalid & Hmsg)]; [by left|right].
  split_and!; try done. apply trim_trimmed.
Qed.





(** ** The log entry of an outcome *)

Lemma list_at_isAllowed rl identifier now rnd w d w1 t :
  RateLimiter.isAllowed rl identifier now rnd w = (Return d, w1) →
  list_at t "sms_delivery_logs" (db w1) = list_at t "sms_delivery_logs" (db w).
Proof.
  intros Hrun. apply list_at_ext.
  eapply touches_isAllowed; [exact Hrun|].
  unfold limiter_keys, RateLimiter.key, RateLimiter.blockKey.
  intros Hin. apply elem_of_cons in Hin as [Heq|Hin].
  - revert Heq. cbv [append]. discriminate.
  - apply list_elem_of_singleton in Hin. revert Hin. cbv [append]. discriminate.
Qed.

(** X16.  Every outcome of [sendSMS] is logged: on a store that answers,
    after [sendSMS] the newest entry of the delivery log is for this
    recipient and time stamp; its status is 'success' with no error when
    [sendSMS] returned, and 'failed' with the message of the error when
    [sendSMS] threw. *)
Theorem sendSMS_outcome_is_logged svc to message identifier now rnd iso w old :
  initialized w = true → faults w = [] →
  list_at now "sms_delivery_logs" (db w) = Some old →
  let r := SMSService.sendSMS svc to message identifier now rnd iso w in
  ∃ e rest,
    list_at now "sms_delivery_logs" (db r.2) = Some (e :: rest)
    ∧ log_to e = to ∧ log_timestamp e = iso
    ∧ match r.1 with
      | Return _ => log_status e = "success" ∧ log_error e = None
      | Throw err =>
          log_status e = "failed" ∧ log_error e = Some (error_message err)
      end.
Proof.
  intros Hi Hf Hold r.
  destruct (isAllowed_returns (SMSService.rateLimiter svc)
              (default "default" identifier) now rnd w Hi) as (d & w1 & Hd).
  destruct (redis_only_isAllowed _ _ _ _ _ _ _ Hd) as (Hi1 & _).
  rewrite Hi in Hi1.
  pose proof (calm_isAllowed _ _ _ _ _ _ _ Hd Hf) as Hf1.
  pose proof (list_at_isAllowed _ _ _ _ _ _ _ now Hd) as Hl1.
  rewrite Hold in Hl1.
  assert (Hlog : ∀ status apiResponse error w2 old2,
    initialized w2 = true → faults w2 = [] →
    list_at now "sms_delivery_logs" (db w2) = Some old2 →
    ∃ e w3,
      SMSService.logSMSDelivery to message status apiResponse error now iso w2
      = (Return (), w3)
      ∧ initialized w3 = true ∧ faults w3 = []
      ∧ list_at now "sms_delivery_logs" (db w3) = Some (e :: take 999 old2)
      ∧ log_to e = to ∧ log_timestamp e = iso ∧ log_status e = status
      ∧ log_error e = error).
  { intros status apiResponse error w2 old2 Hi2 Hf2 Hold2.
    destruct (logSMSDelivery_main to message status apiResponse error now iso
                w2 old2 Hi2 Hf2 Hold2)
      as (e & w3 & Hrun & (Hts & Hto & Hst & _ & Herr & _) & Hkey & Hi3 & Hf3 & _).
    exists e, w3. split_and!; try done.
    unfold list_at, Redis.lookup_live. rewrite Hkey.
    by rewrite live_expiry_at. }
  assert (Hfail : ∀ err w2 old2,
    initialized w2 = true → faults w2 = [] →
    list_at now "sms_delivery_logs" (db w2) = Some old2 →
    ∃ e w3,
      (SMSService.logSMSDelivery to message "failed" None
         (Some (error_message err)) now iso ;; throw err) w2
      = (@Throw SMSService.SendResult err, w3)
      ∧ list_at now "sms_delivery_logs" (db w3) = Some (e :: take 999 old2)
      ∧ log_to e = to ∧ log_timestamp e = iso ∧ log_status e = "failed"
      ∧ log_error e = Some (error_message err)).
  { intros err w2 old2 Hi2 Hf2 Hold2.
    destruct (Hlog "failed" None (Some (error_message err)) w2 old2 Hi2 Hf2 Hold2)
      as (e & w3 & Hrun & _ & _ & Hrest).
    exists e, w3. by rewrite (bind_Return _ _ _ _ _ Hrun). }
  assert (Hr : r = SMSService.sendSMS svc to message identifier now rnd iso w)
    by done. clearbody r.
  unfold SMSService.sendSMS, try_catch, SMSService.sendSMS_try in Hr.
  rewrite (bind_Return _ _ _ _ _ Hd) in Hr.
  destruct (negb (RateLimiter.allowed d)).
  { unfold throw at 1 in Hr.
    destruct (Hfail (RateLimitError (SMSService.blocked_seconds d)) w1 old
                Hi1 Hf1 Hl1) as (e & w3 & Heq & Hrest).
    rewrite Heq in Hr. subst r. cbn [fst snd]. by exists e, (take 999 old). }
  destruct (negb (SMSService.isValidPhoneNumber to)).
  { unfold throw at 1 in Hr.
    destruct (Hfail PhoneFormatError w1 old Hi1 Hf1 Hl1)
      as (e & w3 & Heq & Hrest).
    rewrite Heq in Hr. subst r. cbn [fst snd]. by exists e, (take 999 old). }
  destruct (bool_decide (message = "")
            || Nat.eqb (String.length (trim message)) 0).
  { unfold throw at 1 in Hr.
    destruct (Hfail EmptyMessageError w1 old Hi1 Hf1 Hl1)
      as (e & w3 & Heq & Hrest).
    rewrite Heq in Hr. subst r. cbn [fst snd]. by exists e, (take 999 old). }
  set (smsData := mkSmsPayload [to] (trim message) (SMSService.from svc)) in Hr.
  set (w2 := set_outbox (smsData :: outbox w1) w1).
  assert (Hi2 : initialized w2 = true) by done.
  assert (Hf2 : faults w2 = []) by done.
  assert (Hl2 : list_at now "sms_delivery_logs" (db w2) = Some old) by done.
  destruct (SMSService.client svc smsData) as [msg|result] eqn:Hsend.
  { rewrite (bind_Throw _ _ _ (GatewayFailure msg) w2) in Hr
      by (unfold SMSService.send; by rewrite Hsend).
    destruct (Hfail (GatewayFailure msg) w2 old Hi2 Hf2 Hl2)
      as (e & w3 & Heq & Hrest).
    rewrite Heq in Hr. subst r. cbn [fst snd]. by exists e, (take 999 old). }
  rewrite (bind_Return _ _ _ result w2) in Hr
    by (unfold SMSService.send; by rewrite Hsend).
  destruct (Hlog "success" (Some result) None w2 old Hi2 Hf2 Hl2)
    as (e & w3 & Hrun & Hi3 & Hf3 & Hl3 & Hto & Hts & Hst & Herr).
  rewrite (bind_Return _ _ _ _ _ Hrun) in Hr.
  destruct (Recipients result) as [|r0 rest].
  - unfold throw at 1 in Hr.
    destruct (Hfail NoRecipient w3 _ Hi3 Hf3 Hl3) as (e' & w4 & Heq & Hrest).
    rewrite Heq in Hr. subst r. cbn [fst snd]. by eexists e', _.
  - unfold ret in Hr. subst r. cbn [fst snd]. by exists e, (take 999 old).
Qed.

Lemma sendSMS_outcome_is_logged_witness :
  let r := SMSService.sendSMS (failing_service "Gateway down") "+254712345678"
             "Hello" (Some "u1") 1700000000000 7%N "2023-11-14T22:13:20.000Z"
             blank in
  ∃ e rest,
    list_at 1700000000000 "sms_delivery_logs" (db r.2) = Some (e :: rest)
    ∧ log_to e = "+254712345678" ∧ log_timestamp e = "2023-11-14T22:13:20.000Z"
    ∧ match r.1 with
      | Return _ => log_status e = "success" ∧ log_error e = None
      | Throw err =>
          log_status e = "failed" ∧ log_error e = Some (error_message err)
      end.
Proof.
  apply (sendSMS_outcome_is_logged (failing_service "Gateway down")
           "+254712345678" "Hello" (Some "u1") 1700000000000 7%N
           "2023-11-14T22:13:20.000Z" blank []); reflexivity.
Defined.

(** ** The keys the worker touches *)

Lemma touches_mono {A} ks ks' (m : Cmd A) :
  ks ⊆ ks' → touches ks m → touches ks' m.
Proof.
  intros Hsub Hm w r w' k Hrun Hk. eapply Hm; [done|].
  intros Hin. by apply Hk, Hsub.
Qed.

Lemma touches_send ks svc smsData : touches ks (SMSService.send svc smsData).
Proof.
  intros w r w' k. unfold SMSService.send.
  destruct (SMSService.client svc smsData); by intros [= <- <-].
Qed.

Lemma touches_sendSMS svc to message identifier now rnd iso :
  touches (limiter_keys (default "default" identifier) ++ log_keys iso)
    (SMSService.sendSMS svc to message identifier now rnd iso).
Proof.
  assert (Hlim : ∀ rl, touches
    (limiter_keys (default "default" identifier) ++ log_keys iso)
    (RateLimiter.isAllowed rl (default "default" identifier) now rnd)).
  { intros rl. eapply touches_mono; [|apply touches_isAllowed].
    intros k Hk. apply elem_of_app. by left. }
  assert (Hlog : ∀ status apiResponse error, touches
    (limiter_keys (default "default" identifier) ++ log_keys iso)
    (SMSService.logSMSDelivery to message status apiResponse error now iso)).
  { intros status apiResponse error.
    eapply touches_mono; [|apply touches_logSMSDelivery].
    intros k Hk. apply elem_of_app. by right. }
  unfold SMSService.sendSMS, SMSService.sendSMS_try.
  apply touches_try_catch.
  - apply touches_bind; [apply Hlim|]. intros d.
    destruct (negb (RateLimiter.allowed d)); [apply touches_throw|].
    destruct (negb (SMSService.isValidPhoneNumber to)); [apply touches_throw|].
    destruct (bool_decide (message = "")
              || Nat.eqb (String.length (trim message)) 0);
      [apply touches_throw|].
    apply touches_bind; [apply touches_send|]. intros result.
    apply touches_bind; [apply Hlog|]. intros _.
    destruct (Recipients result); [apply touches_throw|apply touches_ret].
  - intros e. apply touches_bind; [apply Hlog|]. intros _. apply touches_throw.
Qed.

Lemma log_key_not_limiter_key identifier iso k :
  k ∈ limiter_keys identifier → k ∉ log_keys iso.
Proof.
  unfold limiter_keys, log_keys, RateLimiter.key, RateLimiter.blockKey.
  intros Hin Hin'.
  apply elem_of_cons in Hin as [->|Hin];
    [|apply list_elem_of_singleton in Hin; subst k];
    (apply elem_of_cons in Hin' as [Heq|Hin'];
       [|apply list_elem_of_singleton in Hin']);
    revert Heq || revert Hin'; cbv [append]; discriminate.
Qed.

(** X17.  The worker charges the identifier stored in the job's data,
    'default' when there is none: [processSMSJob] changes no key of the
    store but the two limiter keys of that identifier and the two log keys
    of the day, so the stored events and the block of every other
    identifier, one given in the job's options included, stay as they
    were. *)
Theorem worker_charges_data_identifier svc job now rnd iso w :
  let charged := default "default" (data_identifier (job_data job)) in
  let w' := (QueueProcessor.processSMSJob svc job now rnd iso w).2 in
  (∀ k, k ∉ limiter_keys charged ++ log_keys iso → db w' !! k = db w !! k)
  ∧ ∀ identifier, identifier ≠ charged →
      ∀ t, events identifier t (db w') = events identifier t (db w)
           ∧ block_seconds identifier t (db w')
             = block_seconds identifier t (db w).
Proof.
  intros charged w'.
  assert (Hframe : ∀ k, k ∉ limiter_keys charged ++ log_keys iso →
                        db w' !! k = db w !! k).
  { intros k Hk. subst w'.
    assert (Ht : touches (limiter_keys charged ++ log_keys iso)
                   (QueueProcessor.processSMSJob svc job now rnd iso)).
    { unfold QueueProcessor.processSMSJob, QueueProcessor.updateProgress,
        QueueProcessor.addResult.
      apply touches_try_catch.
      - apply touches_bind; [apply touches_sendSMS|]. intros result.
        apply touches_bind; [apply touches_ret|intros _].
        apply touches_bind; [apply touches_throw|intros _].
        apply touches_ret.
      - intros e. apply touches_bind; [apply touches_ret|intros _].
        apply touches_bind; [apply touches_throw|intros _].
        destruct (QueueProcessor.shouldRetry e); apply touches_throw. }
    eapply Ht; [apply surjective_pairing|done]. }
  split; [done|]. intros identifier Hne t.
  assert (Hout : ∀ k, k ∈ limiter_keys identifier →
                      k ∉ limiter_keys charged ++ log_keys iso).
  { intros k Hk Hin. apply elem_of_app in Hin as [Hin|Hin].
    - by eapply (limiter_keys_disjoint charged identifier).
    - by eapply log_key_not_limiter_key. }
  split.
  - apply events_ext, Hframe, Hout. unfold limiter_keys. by constructor.
  - apply block_seconds_ext, Hframe, Hout. unfold limiter_keys.
    by do 2 constructor.
Qed.

(** ** Jobs queued by the API *)

Lemma addBulkSMSJobs_jobs cfg messages options :
  ∀ w, ∃ new,
    jobs (QueueProcessor.addBulkSMSJobs cfg messages options w).2
    = jobs w ++ new
    ∧ Forall (λ job,
        job_data job ∈ messages
        ∧ job_name job = "send-sms"
        ∧ job_opts job
          = mkJobOptions (QueueProcessor.maxAttempts cfg)
              (QueueProcessor.backoffType cfg) (QueueProcessor.delay cfg) 100 50
              (default 0 (QueueProcessor.priority options))
              (default 0 (QueueProcessor.delay_ms options))
              (QueueProcessor.identifier options)) new.
Proof.
  induction messages as [|smsData messages IH]; intros w.
  { exists []. cbn. by rewrite app_nil_r. }
  cbn [QueueProcessor.addBulkSMSJobs]. unfold bind at 1, try_catch, bind at 1.
  rewrite addSMSJob_spec, queue_add_spec. case_bool_decide as Hfault.
  - set (w1 := set_qfaults (tail (qfaults w)) w). unfold ret at 1.
    unfold bind. destruct (IH w1) as (new & Hjobs & Hnew).
    exists new. split.
    + destruct (QueueProcessor.addBulkSMSJobs cfg messages options w1)
        as [[rs|e] w2]; exact Hjobs.
    + eapply Forall_impl; [exact Hnew|]. intros job (Hd & Hrest).
      split; [by right|done].
  - set (job0 := mkJob _ _ _ _).
    set (w1 := set_jobs (jobs w ++ [job0]) (set_qfaults (tail (qfaults w)) w)).
    unfold ret at 1. unfold bind. destruct (IH w1) as (new & Hjobs & Hnew).
    exists (job0 :: new). split.
    + destruct (QueueProcessor.addBulkSMSJobs cfg messages options w1)
        as [[rs|e] w2]; cbn in Hjobs |- *; rewrite Hjobs;
        by rewrite <- app_assoc.
    + constructor; [split_and!; [by left|done|done]|].
      eapply Forall_impl; [exact Hnew|]. intros job (Hd & Hrest).
      split; [by right|done].
Qed.

(** X18.  [POST /sms/bulk] only appends jobs to the queue, and every job
    it appends carries one of the messages of the request as its data,
    unchanged; the identifier and the priority of the request go to the
    job's options (defaults 'bulk-api' and 0), with no delay and the
    configured number of attempts. *)
Theorem bulk_jobs_keep_item_data cfg body w :
  ∃ new,
    jobs (APIRouter.sendBulkSMS cfg body w).2 = jobs w ++ new
    ∧ Forall (λ job,
        job_data job ∈ default [] (APIRouter.messages body)
        ∧ job_name job = "send-sms"
        ∧ opt_identifier (job_opts job)
          = Some (or_else (APIRouter.bulk_identifier body) "bulk-api")
        ∧ opt_priority (job_opts job) = default 0 (APIRouter.bulk_priority body)
        ∧ opt_delay (job_opts job) = 0
        ∧ opt_attempts (job_opts job) = QueueProcessor.maxAttempts cfg) new.
Proof.
  unfold APIRouter.sendBulkSMS, try_catch.
  destruct (APIRouter.messages body) as [[|m msgs]|] eqn:Hmsgs;
    try (exists []; cbn; by rewrite app_nil_r).
  destruct (existsb _ (m :: msgs)); [exists []; cbn; by rewrite app_nil_r|].
  set (options := QueueProcessor.mkOptions _ _ _).
  unfold bind.
  destruct (addBulkSMSJobs_jobs cfg (m :: msgs) options w) as (new & Hjobs & Hnew).
  exists new. split.
  - destruct (QueueProcessor.addBulkSMSJobs cfg (m :: msgs) options w)
      as [[rs|e] w1]; exact Hjobs.
  - eapply Forall_impl; [exact Hnew|]. intros job (Hd & Hn & Ho).
    rewrite Ho. by split_and!.
Qed.

(** X19.  [POST /sms/send] never touches the store or the gateway and
    answers in one of three ways: 400 with the queue unchanged when [to]
    or [message] is missing; 500 with the queue unchanged when [queue.add]
    fails; and, when [queue.add] succeeds, 500 as well, with the details
    'job.getQueuePosition is not a function', after exactly one job has
    been appended, numbered after the jobs already queued, whose data
    holds the request with the defaults 'api', 0 and '{}' and whose
    options are those of the retry configuration with priority 0 and no
    delay, whatever priority was requested.  It never answers 202. *)
Theorem api_send_queues_one_job cfg body w :
  let r := APIRouter.sendSMS cfg body w in
  db r.2 = db w ∧ outbox r.2 = outbox w
  ∧ ((∃ error, r.1 = Return (APIRouter.BadRequest error) ∧ jobs r.2 = jobs w
               ∧ (data_to body = "" ∨ data_message body = ""))
     ∨ (∃ details,
          r.1 = Return (APIRouter.ServerError "Failed to queue SMS" details)
          ∧ jobs r.2 = jobs w ∧ head (qfaults w) = Some true)
     ∨ (∃ job,
          r.1 = Return (APIRouter.ServerError "Failed to queue SMS"
                          "job.getQueuePosition is not a function")
          ∧ jobs r.2 = jobs w ++ [job]
          ∧ job_id job = S (length (jobs w))
          ∧ job_data job
            = mkSmsData (data_to body) (data_message body)
                (Some (or_else (data_identifier body) "api"))
                (Some (default 0 (data_priority body)))
                (Some (default "{}" (data_metadata body)))
          ∧ job_opts job
            = mkJobOptions (QueueProcessor.maxAttempts cfg)
                (QueueProcessor.backoffType cfg) (QueueProcessor.delay cfg)
                100 50 0 0 None)).
Proof.
  intros r. subst r. unfold APIRouter.sendSMS, try_catch, APIRouter.falsy.
  assert (Hbad : data_to body = "" ∨ data_message body = "" →
    bool_decide (data_to body = "") || bool_decide (data_message body = "")
    = true).
  { intros [H|H]; rewrite (bool_decide_eq_true_2 _ H); [done|].
    apply orb_true_r. }
  destruct (decide (data_to body = "" ∨ data_message body = "")) as [Hmiss|Hok].
  { rewrite (Hbad Hmiss). unfold ret. cbn. split_and!; [done|done|].
    left. eexists. split_and!; [reflexivity|reflexivity|exact Hmiss]. }
  rewrite (bool_decide_eq_false_2 (data_to body = "")) by tauto.
  rewrite (bool_decide_eq_false_2 (data_message body = "")) by tauto.
  cbn [orb]. unfold bind. rewrite addSMSJob_spec, queue_add_spec.
  destruct (bool_decide (head (qfaults w) = Some true)) eqn:Hfault.
  - apply bool_decide_eq_true in Hfault.
    unfold ret. cbn. split_and!; [done|done|]. right. left. by eexists.
  - unfold QueueProcessor.getQueuePosition, throw, ret. cbn.
    split_and!; [done|done|]. right. right.
    eexists (mkJob _ _ _ _). by split_and!.
Qed.

(** ** The shape of a valid number *)

Lemma not_space (c : ascii) :
  (33 ≤ nat_of_ascii c ≤ 159)%nat → is_space c = false.
Proof.
  intros H. unfold is_space. cbv zeta.
  destruct (Nat.leb_spec 9 (nat_of_ascii c)), (Nat.leb_spec (nat_of_ascii c) 13),
    (Nat.eqb_spec (nat_of_ascii c) 32), (Nat.eqb_spec (nat_of_ascii c) 160);
    cbn; try done; lia.
Qed.

(** X20.  A number that [isValidPhoneNumber] accepts has between 3 and
    16 characters, starts with a plus sign and holds no white space. *)
Theorem valid_number_shape phoneNumber :
  SMSService.isValidPhoneNumber phoneNumber = true →
  (3 ≤ String.length phoneNumber ≤ 16)%nat
  ∧ first_char phoneNumber = Some "+"%char
  ∧ ∀ c, c ∈ list_ascii_of_string phoneNumber → is_space c = false.
Proof.
  intros (d & ds & -> & Hd & Hlen & Hds)%isValidPhoneNumber_spec.
  split; [|split].
  - cbn [String.length]. lia.
  - reflexivity.
  - intros c. cbn [list_ascii_of_string]. rewrite !elem_of_cons.
    intros [->|[->|Hc]].
    + reflexivity.
    + apply not_space. lia.
    + apply not_space. specialize (Hds c Hc). lia.
Qed.

Lemma valid_number_shape_witness :
  (3 ≤ String.length "+254712345678" ≤ 16)%nat
  ∧ first_char "+254712345678" = Some "+"%char
  ∧ ∀ c, c ∈ list_ascii_of_string "+254712345678" → is_space c = false.
Proof. apply (valid_number_shape "+254712345678"). vm_compute. reflexivity. Defined.

(** ** A client that is not connected *)

(** X21.  Without a connected client nothing runs and nothing fails open:
    [isAllowed], [getStatus], [reset], [sendSMS], [getDeliveryLogs] and
    [getDailyStats] throw the client's error and leave the store, the
    gateway and the queue as they are; [processSMSJob] throws as well,
    the [TypeError] of its call of [job.addResult], and changes nothing. *)
Theorem not_connected_nothing_runs svc job limited to message identifier
    now rnd iso w :
  initialized w = false →
  RateLimiter.isAllowed (SMSService.rateLimiter svc) limited now rnd w
  = (Throw ClientNotInitialized, w)
  ∧ RateLimiter.getStatus (SMSService.rateLimiter svc) limited now w
    = (Throw ClientNotInitialized, w)
  ∧ RateLimiter.reset limited now w = (Throw ClientNotInitialized, w)
  ∧ SMSService.sendSMS svc to message identifier now rnd iso w
    = (Throw ClientNotInitialized, w)
  ∧ SMSService.getDeliveryLogs None None now w = (Throw ClientNotInitialized, w)
  ∧ SMSService.getDailyStats None now iso w = (Throw ClientNotInitialized, w)
  ∧ QueueProcessor.processSMSJob svc job now rnd iso w
    = (Throw (NotAFunction "job.addResult"), w).
Proof.
  intros Hi. split_and!.
  - by apply isAllowed_not_initialized.
  - unfold RateLimiter.getStatus, bind, Redis.getClient. by rewrite Hi.
  - unfold RateLimiter.reset, bind, Redis.getClient. by rewrite Hi.
  - by apply sendSMS_not_initialized.
  - unfold SMSService.getDeliveryLogs, bind, Redis.getClient. by rewrite Hi.
  - unfold SMSService.getDailyStats, bind, Redis.getClient. by rewrite Hi.
  - unfold QueueProcessor.processSMSJob, try_catch.
    rewrite (bind_Throw _ _ _ _ _ (sendSMS_not_initialized _ _ _ _ _ _ _ _ Hi)).
    unfold QueueProcessor.updateProgress, QueueProcessor.addResult, bind, ret,
      throw.
    reflexivity.
Qed.

Lemma not_connected_nothing_runs_witness :
  SMSService.sendSMS sample_service "+254712345678" "Hello" (Some "u1")
    1700000000000 7%N "2023-11-14T22:13:20.000Z"
    (mkWorld false [] ∅ [] [] [])
  = (Throw ClientNotInitialized, mkWorld false [] ∅ [] [] []).
Proof.
  refine (proj1 (proj2 (proj2 (proj2
    (not_connected_nothing_runs sample_service
       (mkJob 1 "send-sms" (mkSmsData "+254712345678" "Hello" None None None)
          (mkJobOptions 3 "exponential" 2000 100 50 0 0 None))
       "u1" "+254712345678" "Hello" (Some "u1") 1700000000000 7%N
       "2023-11-14T22:13:20.000Z" (mkWorld false [] ∅ [] [] []) _))))).
  reflexivity.
Defined.

(** X22.  With a connected client and an identifier that is not empty,
    [POST /rate-limit/:identifier/reset] on a store that answers replies
    200, after which [GET /rate-limit/:identifier] reports the identifier
    as allowed with [remaining = maxRequests]; when the connection fails
    on the [DEL] command the reply is a 500 without details. *)
Theorem api_reset_then_status svc identifier now w :
  initialized w = true → identifier ≠ "" →
  let r := APIRouter.resetRateLimit identifier now w in
  (faults w = [] → 0 < RateLimiter.maxRequests (SMSService.rateLimiter svc) →
   r.1 = Return (APIRouter.ResetReply identifier)
   ∧ ∀ t, (APIRouter.getRateLimitStatus svc identifier t r.2).1
          = Return (APIRouter.RateLimitReply identifier
                      (RateLimiter.mkDecision true
                         (RateLimiter.maxRequests (SMSService.rateLimiter svc))
                         (t + RateLimiter.windowMs (SMSService.rateLimiter svc))
                         false None)))
  ∧ (∀ fs, faults w = true :: fs →
       r = (Return (APIRouter.Failed "Failed to reset rate limit" None),
            set_faults fs w)).
Proof.
  intros Hi Hid r. subst r.
  unfold APIRouter.resetRateLimit, APIRouter.falsy, SMSService.resetRateLimit.
  rewrite (bool_decide_eq_false_2 _ Hid). split.
  - intros Hf Hmax. unfold try_catch, bind.
    rewrite (reset_run identifier now w Hi Hf). unfold ret. cbn [fst snd].
    split; [done|]. intros t.
    set (w' := set_db _ w).
    assert (Hk : db w' !! RateLimiter.key identifier = None).
    { subst w'. destruct w. cbn.
      rewrite lookup_delete_ne, lookup_delete_eq; [done|].
      intros Heq. symmetry in Heq. by eapply keys_differ. }
    assert (Hb : db w' !! RateLimiter.blockKey identifier = None).
    { subst w'. destruct w. cbn. by rewrite lookup_delete_eq. }
    assert (Hi' : initialized w' = true) by (subst w'; by destruct w).
    assert (Hf' : faults w' = []) by (subst w'; by destruct w).
    pose proof (getStatus_no_history (SMSService.rateLimiter svc) identifier t
                  w' Hi' Hf' Hk Hb Hmax) as Hstatus.
    unfold APIRouter.getRateLimitStatus, APIRouter.falsy,
      SMSService.getRateLimitStatus, try_catch, bind.
    rewrite (bool_decide_eq_false_2 _ Hid).
    destruct (RateLimiter.getStatus (SMSService.rateLimiter svc) identifier t w')
      as [res w2]. cbn [fst] in Hstatus. by subst res.
  - intros fs Hf. destruct w as [i f d o j q]. cbn in Hi, Hf. subst i f.
    unfold RateLimiter.reset, try_catch, bind, ret, Redis.getClient,
      Redis.command. by sim.
Qed.

Lemma api_reset_then_status_witness :
  let w := (isAllowed_each RateLimiter.default "u1"
              (burst 1700000000000 31) blank).2 in
  (APIRouter.getRateLimitStatus sample_service "u1" 1700000001000 w).1
  = Return (APIRouter.RateLimitReply "u1"
              (RateLimiter.mkDecision false 0 1700000301000 true (Some 300000)))
  ∧ (APIRouter.getRateLimitStatus sample_service "u1" 1700000001000
       (APIRouter.resetRateLimit "u1" 1700000001000 w).2).1
    = Return (APIRouter.RateLimitReply "u1"
                (RateLimiter.mkDecision true 30 1700000061000 false None)).
Proof.
  intros w. split; [vm_compute; reflexivity|].
  refine (proj2 (proj1
    (api_reset_then_status sample_service "u1" 1700000001000 w _ _) _ _)
    1700000001000).
  - vm_compute. reflexivity.
  - discriminate.
  - vm_compute. reflexivity.
  - reflexivity.
Defined.

(** ** What the processor reports *)

(** X23.  [processSMSJob] never returns a result: for every job, whether
    [sendSMS] returned or threw, it throws the [TypeError] of the call of
    [job.addResult], which it awaits in its [try] block and in its [catch]
    block, and leaves the world as [sendSMS] left it.  The errors of
    [sendSMS] and the 'Non-retryable error' of the processor never leave
    it, and [shouldRetry] holds the error that does for retryable. *)
Theorem processSMSJob_always_throws svc job now rnd iso w :
  QueueProcessor.processSMSJob svc job now rnd iso w
  = (Throw (NotAFunction "job.addResult"),
     (SMSService.sendSMS svc (data_to (job_data job))
        (data_message (job_data job)) (data_identifier (job_data job))
        now rnd iso w).2)
  ∧ error_message (NotAFunction "job.addResult")
    = "job.addResult is not a function"
  ∧ QueueProcessor.shouldRetry (NotAFunction "job.addResult") = true.
Proof.
  split_and!; [|reflexivity|vm_compute; reflexivity].
  unfold QueueProcessor.processSMSJob, try_catch, bind,
    QueueProcessor.updateProgress, QueueProcessor.addResult, ret, throw.
  by destruct (SMSService.sendSMS svc _ _ _ now rnd iso w) as [[res|e] w1].
Qed.
